(** * CustomProjection: the pluggable projection loader and adapter

    A shallow embedding of [Source/Core/CustomProjection.js]: the
    constructor, the accessors, [project], [unproject] and
    [buildCustomProjection], over an explicit store that holds the
    module-level cache [loadedProjectionFunctions], the global slot
    [createProjectionFunctions], the adapters, the deferreds and the
    promise chains the file creates.

    The file is in four parts: the program; the vocabulary of its
    properties; the properties and their proofs; concrete runs. *)

From Stdlib Require Import Floats.
From stdpp Require Import base option list gmap strings.

#[local] Set Warnings "-register-all".

(** * Part I: the program *)

(** ** Values *)

(** Objects live in stores indexed by their position; an index is the
    object's identity. *)
Abbreviation loc := nat (only parsing).

Inductive error :=
  | DeveloperError (message : string)
  | ReferenceError (identifier : string)
  | TypeError (message : string)
  | Thrown (reason : string).

(** The message an error carries. *)
Definition error_text (e : error) : string :=
  match e with
  | DeveloperError message => message
  | ReferenceError identifier => identifier +:+ " is not defined"
  | TypeError message => message
  | Thrown reason => reason
  end.

(** Whether the text [s] occurs in the message of [e]. *)
Definition mentions (s : string) (e : error) : bool :=
  match String.index 0 s (error_text e) with
  | Some _ => true
  | None => false
  end.

(** First-order JavaScript values that callers pass as arguments.  [null]
    is left out: how the helper [defined] treats it is not visible in the
    file. *)
Inductive data :=
  | VUndefined
  | VString (s : string)
  | VNumber (x : float)
  | VObject (l : loc).

(** A number or [undefined] ([None]); numbers are IEEE doubles. *)
Abbreviation number := (option float) (only parsing).

(** The classes that make coordinate objects. *)
Inductive constructor :=
  | ByCartesian3
  | ByCartographic.

(** A coordinate object: the class that made it and its properties.  It is
    a JavaScript object: a property that was never assigned reads as
    [undefined], and any property can be assigned. *)
Record instance := {
  made : constructor;
  properties : gmap string number
}.

(** [object.key] and [object.key = v], for an object of the heap. *)
Definition read (key : string) (o : instance) : number :=
  default None (properties o !! key).

Definition write (key : string) (v : number) (o : instance) : instance :=
  {| made := made o; properties := <[key := v]> (properties o) |}.

(** The objects the two classes make, by their coordinates. *)
Definition Cartesian3 (x y z : float) : instance :=
  {| made := ByCartesian3;
     properties := {["x" := Some x; "y" := Some y; "z" := Some z]} |}.

Definition Cartographic (longitude latitude height : float) : instance :=
  {| made := ByCartographic;
     properties := {["longitude" := Some longitude; "latitude" := Some latitude;
                     "height" := Some height]} |}.

Inductive completion (A : Type) :=
  | Normal (a : A)
  | Throw (e : error).
Arguments Normal {A} a.
Arguments Throw {A} e.

(** What external code may hand over: plain data, a coordinate function
    [f(input, result)], or a factory.  A coordinate function acts on the
    coordinate objects, as the documentation comments of lines 259-285
    have it: from the heap it is called in, it gives how it ends and the
    heap it leaves, so that it may write to objects and then throw.  A
    factory is described by what one invocation does synchronously: the
    argument pairs with which it calls the callback it was given, in order,
    and the exception it ends with, if any.  Later (asynchronous) calls of
    a callback are events of the environment, see [ECallback]. *)
Inductive jsval :=
  | JData (d : data)
  | JFunction (f : data → data → list instance → completion unit * list instance)
  | JFactory (calls : list (jsval * jsval)) (throws : option error).

Definition undefined : jsval := JData VUndefined.

(** Modelled from the spec: the ellipsoid class is not in the file; the
    spec calls it a pass-through configuration value with no behaviour, its
    default a standard reference ellipsoid. *)
Inductive Ellipsoid :=
  | WGS84
  | EllipsoidOf (x y z : float).

(** ** Promises *)

(** The value a promise is resolved with. *)
Inductive resolution :=
  | ResUndefined
  | ResAdapter (a : loc).

Inductive settlement :=
  | Pending
  | Resolved (v : resolution)
  | Rejected (e : error).

(** What [buildCustomProjection] returns: on a cache hit the deferred it
    made (line 203: the deferred itself, not [deferred.promise]), otherwise
    the promise [fetch.then(...).then(...)] (line 232), named by the chain
    it is the end of. *)
Inductive promise :=
  | OfDeferred (d : nat)
  | OfChain (c : nat).

(** The stages of a chain [fetch.then(h1).then(h2)]: the fetch is under
    way; the fetch promise is fulfilled and [h1] is due; [h1] has returned
    [deferred.promise]; or the fetch or [h1] failed.  In a worker [h1] runs
    inside [then], see [then_chain]; in a page it runs once the fetch has
    settled, see [EThen]. *)
Inductive stage :=
  | Fetching
  | Queued
  | Following
  | Failed (e : error).

(** The variables [h1] (lines 216-227) and [h2] (lines 228-230) close
    over. *)
Record chain := {
  ch_customProjection : loc;
  ch_projectionName : string;
  ch_deferred : nat;
  ch_stage : stage
}.

(** The two completion callbacks of the file, as closures over
    [customProjection] and [deferred]: lines 196-201 and lines 219-224. *)
Inductive closure :=
  | CachedCallback (customProjection : loc) (deferred : nat)
  | LoadedCallback (customProjection : loc) (deferred : nat).

(** ** The adapter *)

Record CustomProjection := {
  _ellipsoid : Ellipsoid;
  _project : jsval;
  _unproject : jsval;
  _projectionName : string;
  _url : string;
  _ready : bool;
  (* [None] until line 58 has assigned the field. *)
  _readyPromise : option promise
}.

(** Calls into the environment and into external code, in the order they
    happen. *)
Inductive effect :=
  | FetchJsonp (url : string)
  | ImportScripts (url : string)
  | CacheStore (projectionName : string)
  | FactoryCall (projectionName : string)
  | CallbackRun (customProjection : loc)
  | ProjectCall (customProjection : loc)
  | UnprojectCall (customProjection : loc).

Record state := {
  loadedProjectionFunctions : gmap string jsval;
  createProjectionFunctions : option jsval;
  inWorker : bool;
  baseUri : string;
  heap : list instance;
  adapters : list CustomProjection;
  deferreds : list settlement;
  chains : list chain;
  callbacks : list closure;
  effects : list effect
}.

(** The store when the module has been loaded and no adapter made.  The
    cache is the object literal of line 27: it has no entry of its own,
    and reads as defined the properties [inherited] from its prototype.
    The page may have put a value in the global slot already. *)
Definition initial (inherited : gmap string jsval) (slot : option jsval)
    (worker : bool) (base : string) : state :=
  {| loadedProjectionFunctions := inherited;
     createProjectionFunctions := slot;
     inWorker := worker;
     baseUri := base;
     heap := [];
     adapters := [];
     deferreds := [];
     chains := [];
     callbacks := [];
     effects := [] |}.

(** Field updates. *)
Definition with_cache (f : gmap string jsval → gmap string jsval) (σ : state) : state :=
  {| loadedProjectionFunctions := f (loadedProjectionFunctions σ);
     createProjectionFunctions := createProjectionFunctions σ;
     inWorker := inWorker σ; baseUri := baseUri σ; heap := heap σ;
     adapters := adapters σ; deferreds := deferreds σ; chains := chains σ;
     callbacks := callbacks σ; effects := effects σ |}.

Definition with_slot (v : option jsval) (σ : state) : state :=
  {| loadedProjectionFunctions := loadedProjectionFunctions σ;
     createProjectionFunctions := v;
     inWorker := inWorker σ; baseUri := baseUri σ; heap := heap σ;
     adapters := adapters σ; deferreds := deferreds σ; chains := chains σ;
     callbacks := callbacks σ; effects := effects σ |}.

Definition with_base (b : string) (σ : state) : state :=
  {| loadedProjectionFunctions := loadedProjectionFunctions σ;
     createProjectionFunctions := createProjectionFunctions σ;
     inWorker := inWorker σ; baseUri := b; heap := heap σ;
     adapters := adapters σ; deferreds := deferreds σ; chains := chains σ;
     callbacks := callbacks σ; effects := effects σ |}.

Definition with_heap (h : list instance) (σ : state) : state :=
  {| loadedProjectionFunctions := loadedProjectionFunctions σ;
     createProjectionFunctions := createProjectionFunctions σ;
     inWorker := inWorker σ; baseUri := baseUri σ; heap := h;
     adapters := adapters σ; deferreds := deferreds σ; chains := chains σ;
     callbacks := callbacks σ; effects := effects σ |}.

Definition with_adapters (f : list CustomProjection → list CustomProjection) (σ : state) : state :=
  {| loadedProjectionFunctions := loadedProjectionFunctions σ;
     createProjectionFunctions := createProjectionFunctions σ;
     inWorker := inWorker σ; baseUri := baseUri σ; heap := heap σ;
     adapters := f (adapters σ); deferreds := deferreds σ; chains := chains σ;
     callbacks := callbacks σ; effects := effects σ |}.

Definition with_deferreds (f : list settlement → list settlement) (σ : state) : state :=
  {| loadedProjectionFunctions := loadedProjectionFunctions σ;
     createProjectionFunctions := createProjectionFunctions σ;
     inWorker := inWorker σ; baseUri := baseUri σ; heap := heap σ;
     adapters := adapters σ; deferreds := f (deferreds σ); chains := chains σ;
     callbacks := callbacks σ; effects := effects σ |}.

Definition with_chains (f : list chain → list chain) (σ : state) : state :=
  {| loadedProjectionFunctions := loadedProjectionFunctions σ;
     createProjectionFunctions := createProjectionFunctions σ;
     inWorker := inWorker σ; baseUri := baseUri σ; heap := heap σ;
     adapters := adapters σ; deferreds := deferreds σ; chains := f (chains σ);
     callbacks := callbacks σ; effects := effects σ |}.

Definition with_callbacks (f : list closure → list closure) (σ : state) : state :=
  {| loadedProjectionFunctions := loadedProjectionFunctions σ;
     createProjectionFunctions := createProjectionFunctions σ;
     inWorker := inWorker σ; baseUri := baseUri σ; heap := heap σ;
     adapters := adapters σ; deferreds := deferreds σ; chains := chains σ;
     callbacks := f (callbacks σ); effects := effects σ |}.

Definition with_effects (f : list effect → list effect) (σ : state) : state :=
  {| loadedProjectionFunctions := loadedProjectionFunctions σ;
     createProjectionFunctions := createProjectionFunctions σ;
     inWorker := inWorker σ; baseUri := baseUri σ; heap := heap σ;
     adapters := adapters σ; deferreds := deferreds σ; chains := chains σ;
     callbacks := callbacks σ; effects := f (effects σ) |}.

(** ** A state and exception monad *)

Definition M (A : Type) : Type := state → completion A * state.

Definition ret {A} (a : A) : M A := λ σ, (Normal a, σ).
Definition throw {A} (e : error) : M A := λ σ, (Throw e, σ).
Definition bind {A B} (m : M A) (k : A → M B) : M B :=
  λ σ, match m σ with
       | (Normal a, σ') => k a σ'
       | (Throw e, σ') => (Throw e, σ')
       end.
Definition gets {A} (f : state → A) : M A := λ σ, (Normal (f σ), σ).
Definition modify (f : state → state) : M unit := λ σ, (Normal tt, f σ).
(** [try { m } catch (e) { ... }], the exception handed back as a value. *)
Definition catch {A} (m : M A) : M (completion A) :=
  λ σ, match m σ with (r, σ') => (Normal r, σ') end.

#[global] Instance M_ret : MRet M := @ret.
#[global] Instance M_bind : MBind M := λ A B k m, bind m k.

Definition log (e : effect) : M unit := modify (with_effects (λ l, l ++ [e])).

(** ** Helpers the file imports *)

(** Modelled from the spec: [defined], [defaultValue] and [Check] are
    imported from [./defined], [./defaultValue] and [./Check], which are
    not among the sources; the spec calls them simple precondition checks
    and has [project] allocate a result when none is supplied.
    [defined(value)]: the value is not [undefined]. *)
Definition defined (v : jsval) : bool :=
  match v with
  | JData VUndefined => false
  | _ => true
  end.

(** [defaultValue(a, b)]. *)
Definition defaultValue {A} (a : option A) (b : A) : A :=
  match a with
  | Some x => x
  | None => b
  end.

(** [Check.defined(name, test)]: throws a [DeveloperError] when [test] is
    not defined. *)
Definition Check_defined (name : string) (test : data) : M unit :=
  if defined (JData test) then mret tt
  else throw (DeveloperError (name +:+ " is required, actual value was undefined")).

(** The text of a value that is a string. *)
Definition text (v : data) : string :=
  match v with
  | VString s => s
  | _ => ""
  end.

(** Reading a property of an object used as a map: a missing key reads as
    [undefined]. *)
Definition property (o : gmap string jsval) (key : string) : jsval :=
  default undefined (o !! key).

(** Modelled from the spec: the promise library [../ThirdParty/when] is not
    among the sources.  The spec describes its futures as
    single-resolution, with the states pending, resolved and rejected, a
    second resolution being a no-op.  [when.defer()] makes a pending
    deferred. *)
Definition when_defer : M nat :=
  d ← gets (λ σ, length (deferreds σ));
  modify (with_deferreds (λ l, l ++ [Pending]));;
  mret d.

(** [deferred.resolve(value)]. *)
Definition settle (v : resolution) (s : settlement) : settlement :=
  match s with
  | Pending => Resolved v
  | _ => s
  end.

Definition deferred_resolve (d : nat) (v : resolution) : M unit :=
  modify (with_deferreds (alter (settle v) d)).

(** What loading and executing the external file does: it fails, or it
    runs and may register a value in the global slot
    [createProjectionFunctions]. *)
Inductive script :=
  | ScriptFails (e : error)
  | ScriptRuns (registers : option jsval).

Definition execute (s : script) : M unit :=
  match s with
  | ScriptFails e => throw e
  | ScriptRuns None => mret tt
  | ScriptRuns (Some f) => modify (with_slot (Some f))
  end.

(** [importScripts(url)] loads and executes the file synchronously. *)
Definition importScripts (url : string) (s : script) : M unit :=
  log (ImportScripts url);; execute s.

(** [Resource.fetchJsonp({url : url})] starts the load; the file executes
    later, see [EFetchSettles]. *)
Definition Resource_fetchJsonp (url : string) : M unit :=
  log (FetchJsonp url).

(** Modelled from the spec: [new Cartesian3()] and [new Cartographic()]
    come from classes that are not among the sources; the spec asks for a
    freshly allocated object of the right shape.  Its fields start at
    zero. *)
Definition allocate (o : instance) : M loc :=
  l ← gets (λ σ, length (heap σ));
  modify (λ σ, with_heap (heap σ ++ [o]) σ);;
  mret l.

Definition new_Cartesian3 : M data :=
  l ← allocate (Cartesian3 0 0 0); mret (VObject l).

Definition new_Cartographic : M data :=
  l ← allocate (Cartographic 0 0 0); mret (VObject l).

(** ** Adapter fields *)

Definition set_functions (project unproject : jsval) (this : CustomProjection) : CustomProjection :=
  {| _ellipsoid := _ellipsoid this; _project := project; _unproject := unproject;
     _projectionName := _projectionName this; _url := _url this;
     _ready := _ready this; _readyPromise := _readyPromise this |}.

Definition set_ready (b : bool) (this : CustomProjection) : CustomProjection :=
  {| _ellipsoid := _ellipsoid this; _project := _project this;
     _unproject := _unproject this;
     _projectionName := _projectionName this; _url := _url this;
     _ready := b; _readyPromise := _readyPromise this |}.

Definition set_readyPromise (p : promise) (this : CustomProjection) : CustomProjection :=
  {| _ellipsoid := _ellipsoid this; _project := _project this;
     _unproject := _unproject this;
     _projectionName := _projectionName this; _url := _url this;
     _ready := _ready this; _readyPromise := Some p |}.

Definition assign (a : loc) (f : CustomProjection → CustomProjection) : M unit :=
  modify (with_adapters (alter f a)).

(** The accessors of lines 61-136. *)
Definition ellipsoid (this : CustomProjection) : Ellipsoid := _ellipsoid this.
Definition isEquatorialCylindrical (this : CustomProjection) : bool := false.
Definition readyPromise (this : CustomProjection) : option promise := _readyPromise this.
Definition url (this : CustomProjection) : string := _url this.
Definition projectionName (this : CustomProjection) : string := _projectionName this.

(** ** The completion callbacks and the factory call *)

(** Lines 196-201 and 219-224: both store the pair and set the flag; the
    first resolves the deferred with the adapter, the second with no
    argument. *)
Definition completion_callback (cb : closure) (project unproject : jsval) : M unit :=
  match cb with
  | CachedCallback customProjection deferred =>
      log (CallbackRun customProjection);;
      assign customProjection (set_functions project unproject);;
      assign customProjection (set_ready true);;
      deferred_resolve deferred (ResAdapter customProjection)
  | LoadedCallback customProjection deferred =>
      log (CallbackRun customProjection);;
      assign customProjection (set_functions project unproject);;
      assign customProjection (set_ready true);;
      deferred_resolve deferred ResUndefined
  end.

(** The synchronous callback calls of one factory invocation. *)
Fixpoint callback_calls (cb : closure) (calls : list (jsval * jsval)) : M unit :=
  match calls with
  | [] => mret tt
  | (project, unproject) :: rest =>
      completion_callback cb project unproject;;
      callback_calls cb rest
  end.

(** [factory(callback)]: a factory receives the callback, which from then
    on the external code may call, see [ECallback]; calling a value that
    is no factory is a [TypeError] (plain data cannot be called, and a
    coordinate function called this way has no result to write to). *)
Definition invoke (projectionName : string) (factory : jsval) (cb : closure) : M unit :=
  match factory with
  | JFactory calls throws =>
      log (FactoryCall projectionName);;
      modify (with_callbacks (λ l, l ++ [cb]));;
      callback_calls cb calls;;
      match throws with
      | Some e => throw e
      | None => mret tt
      end
  | _ => throw (TypeError "factory is not a function")
  end.

(** ** buildCustomProjection (lines 192-233) *)

(** The first [then] handler, lines 216-227, up to its [return]. *)
Definition fetch_handler (ch : chain) : M unit :=
  slot ← gets createProjectionFunctions;
  match slot with
  | None => throw (ReferenceError "createProjectionFunctions")
  | Some localCreateProjectionFunctions =>
      modify (with_cache (<[ch_projectionName ch := localCreateProjectionFunctions]>));;
      log (CacheStore (ch_projectionName ch));;
      invoke (ch_projectionName ch) localCreateProjectionFunctions
        (LoadedCallback (ch_customProjection ch) (ch_deferred ch))
  end.

Definition set_stage (s : stage) (ch : chain) : chain :=
  {| ch_customProjection := ch_customProjection ch;
     ch_projectionName := ch_projectionName ch;
     ch_deferred := ch_deferred ch;
     ch_stage := s |}.

(** The first handler of chain [c] runs, if it is due.  Modelled from the
    spec, for the promise library is not among the sources: the promise
    [then] returns follows what the handler returns, and is rejected with
    what the handler throws. *)
Definition fetch_then (c : nat) : M unit :=
  ch ← gets (λ σ, chains σ !! c);
  match ch with
  | Some ch =>
      match ch_stage ch with
      | Queued =>
          r ← catch (fetch_handler ch);
          modify (with_chains (alter (set_stage
            match r with
            | Normal _ => Following
            | Throw e => Failed e
            end) c))
      | _ => mret tt
      end
  | None => mret tt
  end.

(** [fetch.then(h1).then(h2)], lines 215-230: the chain is set up.  On a
    promise that is fulfilled already, that of [when.resolve()] at line
    208, the promise library runs the handler at once, inside [then]: in
    a worker the handler has run when [buildCustomProjection] returns.  On
    the promise of [Resource.fetchJsonp], which is pending, the handler
    waits for the fetch, see [EFetchSettles] and [EThen]. *)
Definition then_chain (ch : chain) : M nat :=
  c ← gets (λ σ, length (chains σ));
  modify (with_chains (λ l, l ++ [ch]));;
  fetch_then c;;
  mret c.

Definition buildCustomProjection (customProjection : loc) (url projectionName : string)
    (imported : script) : M promise :=
  deferred ← when_defer;
  cached ← gets (λ σ, property (loadedProjectionFunctions σ) projectionName);
  if defined cached then
    invoke projectionName cached (CachedCallback customProjection deferred);;
    mret (OfDeferred deferred)
  else
    worker ← gets inWorker;
    fetch ← (if worker : bool
             then importScripts url imported;; mret Queued
             else Resource_fetchJsonp url;; mret Fetching);
    c ← then_chain {| ch_customProjection := customProjection;
                      ch_projectionName := projectionName;
                      ch_deferred := deferred;
                      ch_stage := fetch |};
    mret (OfChain c).

(** The state of a promise: a deferred's is its cell; a chain's follows
    from its stage, the second handler (lines 228-230) turning the
    resolution of [deferred.promise] into the adapter. *)
Definition promise_state (σ : state) (p : promise) : settlement :=
  match p with
  | OfDeferred d => default Pending (deferreds σ !! d)
  | OfChain c =>
      match chains σ !! c with
      | None => Pending
      | Some ch =>
          match ch_stage ch with
          | Fetching | Queued => Pending
          | Failed e => Rejected e
          | Following =>
              match default Pending (deferreds σ !! ch_deferred ch) with
              | Pending => Pending
              | Resolved _ => Resolved (ResAdapter (ch_customProjection ch))
              | Rejected e => Rejected e
              end
          end
      end
  end.

(** ** project and unproject (lines 149-190) *)

(** The checks of lines 150-155 and 177-182 stand between build pragmas
    that strip them from release builds; they are modelled as the file
    has them. *)

Definition not_loaded : string :=
  "CustomProjection is not loaded. User CustomProjection.readyPromise or wait for CustomProjection.ready to be true.".

(** [this], for a method called on the adapter at [a]. *)
Definition adapter (a : loc) : M CustomProjection :=
  this ← gets (λ σ, adapters σ !! a);
  match this with
  | Some this => mret this
  | None => throw (TypeError "not a CustomProjection")
  end.

(** [f(input, result)] for a stored coordinate function: what the
    function wrote stays written, whether it returns or throws. *)
Definition call (f : jsval) (called : effect) (input result : data) : M unit :=
  match f with
  | JFunction f =>
      log called;;
      h ← gets heap;
      modify (with_heap (f input result h).2);;
      match (f input result h).1 with
      | Normal _ => mret tt
      | Throw e => throw e
      end
  | _ => throw (TypeError "not a function")
  end.

Definition project (a : loc) (cartographic result : data) : M data :=
  this ← adapter a;
  if negb (_ready this) then throw (DeveloperError not_loaded)
  else
    Check_defined "cartographic" cartographic;;
    result ← (if negb (defined (JData result)) then new_Cartesian3 else mret result);
    call (_project this) (ProjectCall a) cartographic result;;
    mret result.

Definition unproject (a : loc) (cartesian result : data) : M data :=
  this ← adapter a;
  if negb (_ready this) then throw (DeveloperError not_loaded)
  else
    Check_defined "cartesian" cartesian;;
    result ← (if negb (defined (JData result)) then new_Cartographic else mret result);
    call (_unproject this) (UnprojectCall a) cartesian result;;
    mret result.

(** ** The constructor and the events of a run *)

Inductive event :=
  (* [new CustomProjection(url, projectionName, ellipsoid)]; [imported] is
     what [importScripts] finds at the url when the call is made in a
     worker. *)
  | ENew (url projectionName : data) (ellipsoid : option Ellipsoid) (imported : script)
  (* the fetch of chain [c] ends: the file failed to load, or it ran *)
  | EFetchSettles (c : nat) (fetched : script)
  (* the first [then] handler of chain [c] runs, its fetch having settled *)
  | EThen (c : nat)
  (* external code calls the completion callback it was handed *)
  | ECallback (k : nat) (project unproject : jsval)
  | EProject (a : loc) (cartographic result : data)
  | EUnproject (a : loc) (cartesian result : data)
  (* a caller allocates a coordinate object *)
  | EAllocate (o : instance)
  (* the base against which relative urls resolve changes *)
  | ENavigate (base : string).

Section Adapter.

(** [getAbsoluteUri(relative)], imported from [./getAbsoluteUri], resolves
    against the base of the moment; it is a parameter of the
    development, taking the relative url and the base. *)
Variable getAbsoluteUri : string → string → string.

(** [Check.typeOf.string(name, test)], imported from [./Check], throws a
    [DeveloperError] unless [test] passes; which values pass is a parameter
    of the development.  The test the call names is [is_string] below. *)
Variable typeOf_string : data → bool.

Definition Check_typeOf_string (name : string) (test : data) : M unit :=
  if typeOf_string test then mret tt
  else throw (DeveloperError ("Expected " +:+ name +:+ " to be typeof string")).

(** The adapter as lines 47-57 leave it, before line 58 builds the
    projection. *)
Definition fields (url projectionName : data) (ellipsoid : option Ellipsoid)
    (base : string) : CustomProjection :=
  {| _ellipsoid := defaultValue ellipsoid WGS84;
     _project := undefined;
     _unproject := undefined;
     _projectionName := text projectionName;
     _url := getAbsoluteUri (text url) base;
     _ready := false;
     _readyPromise := None |}.

(** Lines 43-59.  The result is the new adapter. *)
Definition new_CustomProjection (url projectionName : data)
    (ellipsoid : option Ellipsoid) (imported : script) : M loc :=
  Check_typeOf_string "url" url;;
  Check_typeOf_string "projectionName" projectionName;;
  base ← gets baseUri;
  this ← gets (λ σ, length (adapters σ));
  modify (with_adapters (λ l, l ++ [fields url projectionName ellipsoid base]));;
  p ← buildCustomProjection this (getAbsoluteUri (text url) base)
         (text projectionName) imported;
  assign this (set_readyPromise p);;
  mret this.

(** The end of the fetch of chain [c]: the file failed to load, which
    rejects the chain, or it was executed, and the handler is due. *)
Definition fetch_settles (c : nat) (fetched : script) : M unit :=
  ch ← gets (λ σ, chains σ !! c);
  match ch with
  | Some ch =>
      match ch_stage ch with
      | Fetching =>
          r ← catch (execute fetched);
          modify (with_chains (alter (set_stage
            match r with
            | Normal _ => Queued
            | Throw e => Failed e
            end) c))
      | _ => mret tt
      end
  | None => mret tt
  end.

(** External code calls the [k]-th callback that was handed out. *)
Definition callback_fires (k : nat) (project unproject : jsval) : M unit :=
  cb ← gets (λ σ, callbacks σ !! k);
  match cb with
  | Some cb => completion_callback cb project unproject
  | None => mret tt
  end.

Definition step (e : event) : M data :=
  match e with
  | ENew url projectionName ellipsoid imported =>
      this ← new_CustomProjection url projectionName ellipsoid imported;
      mret (VObject this)
  | EFetchSettles c fetched => fetch_settles c fetched;; mret VUndefined
  | EThen c => fetch_then c;; mret VUndefined
  | ECallback k project unproject =>
      callback_fires k project unproject;; mret VUndefined
  | EProject a cartographic result => project a cartographic result
  | EUnproject a cartesian result => unproject a cartesian result
  | EAllocate o => l ← allocate o; mret (VObject l)
  | ENavigate base => modify (with_base base);; mret VUndefined
  end.

(** The state an event leaves, whether it returned or threw. *)
Definition after (e : event) (σ : state) : state := (step e σ).2.

Definition run (events : list event) (σ : state) : state :=
  foldl (λ σ e, after e σ) σ events.

(** The states a program can be in: those a run from an initial state
    reaches. *)
Definition reachable (σ : state) : Prop :=
  ∃ inherited slot worker base events,
    σ = run events (initial inherited slot worker base).

(** The effects a run adds to the log. *)
Definition added_by (events : list event) (σ : state) : list effect :=
  drop (length (effects σ)) (effects (run events σ)).

End Adapter.

(** * Part II: the vocabulary of the properties *)

(** [Check.typeOf.string] is imported from [./Check], which is not among
    the sources.  The call of lines 44-45 names its test: the type of the
    value is [string].  Nothing in the file looks at the length of the
    text: the empty string is a string, and passes. *)
Definition is_string (test : data) : bool :=
  match test with
  | VString _ => true
  | _ => false
  end.

(** The values the spec has the constructor refuse: a missing one, and
    the empty string. *)
Definition missing_or_empty (v : data) : bool :=
  match v with
  | VUndefined | VString EmptyString => true
  | _ => false
  end.

(** The state after the stored function was called and left the heap
    [h]. *)
Definition called (e : effect) (h : list instance) (σ : state) : state :=
  with_heap h (with_effects (λ l, l ++ [e]) σ).

(** The calls that load a file. *)
Definition is_load (e : effect) : bool :=
  match e with
  | FetchJsonp _ | ImportScripts _ => true
  | _ => false
  end.

(** ** The callbacks in closed form *)

Definition closure_adapter (cb : closure) : loc :=
  match cb with
  | CachedCallback customProjection _ | LoadedCallback customProjection _ =>
      customProjection
  end.

Definition closure_deferred (cb : closure) : nat :=
  match cb with
  | CachedCallback _ deferred | LoadedCallback _ deferred => deferred
  end.

(** What the callback resolves its deferred with: line 200 and line 223. *)
Definition closure_resolution (cb : closure) : resolution :=
  match cb with
  | CachedCallback customProjection _ => ResAdapter customProjection
  | LoadedCallback _ _ => ResUndefined
  end.

Definition callback_state (cb : closure) (project unproject : jsval) (σ : state) : state :=
  with_deferreds (alter (settle (closure_resolution cb)) (closure_deferred cb))
    (with_adapters (alter (set_ready true) (closure_adapter cb))
       (with_adapters (alter (set_functions project unproject) (closure_adapter cb))
          (with_effects (λ l, l ++ [CallbackRun (closure_adapter cb)]) σ))).

Definition calls_state (cb : closure) (calls : list (jsval * jsval)) (σ : state) : state :=
  foldl (λ σ call, callback_state cb call.1 call.2 σ) σ calls.

Definition invoke_result (factory : jsval) : completion unit :=
  match factory with
  | JFactory _ (Some e) => Throw e
  | JFactory _ None => Normal tt
  | _ => Throw (TypeError "factory is not a function")
  end.

Definition invoke_state (projectionName : string) (factory : jsval) (cb : closure)
    (σ : state) : state :=
  match factory with
  | JFactory calls _ =>
      calls_state cb calls
        (with_callbacks (λ l, l ++ [cb])
           (with_effects (λ l, l ++ [FactoryCall projectionName]) σ))
  | _ => σ
  end.

Definition invoke_effects (projectionName : string) (factory : jsval) (cb : closure)
    : list effect :=
  match factory with
  | JFactory calls _ =>
      FactoryCall projectionName
        :: replicate (length calls) (CallbackRun (closure_adapter cb))
  | _ => []
  end.

(** ** The constructor in closed form *)

(** The store once lines 47-57 have run and [when.defer()] has been
    called. *)
Definition allocated (this : CustomProjection) (σ : state) : state :=
  with_deferreds (λ l, l ++ [Pending]) (with_adapters (λ l, l ++ [this]) σ).

(** The effect of executing a file that runs. *)
Definition registered (registers : option jsval) (σ : state) : state :=
  match registers with
  | Some f => with_slot (Some f) σ
  | None => σ
  end.

(** The chain a construction in a worker sets up, its handler due. *)
Definition importing_chain (this : CustomProjection) (σ : state) : chain :=
  {| ch_customProjection := length (adapters σ);
     ch_projectionName := _projectionName this;
     ch_deferred := length (deferreds σ);
     ch_stage := Queued |}.

(** The store the handler starts from in a worker: the file was imported
    and ran, the chain is set up; the promise of line 58 is taken as
    assigned, which the handler does not look at. *)
Definition importing (this : CustomProjection) (registers : option jsval) (σ : state)
    : state :=
  with_adapters
    (alter (set_readyPromise (OfChain (length (chains σ)))) (length (adapters σ)))
    (with_chains (λ l, l ++ [importing_chain this σ])
       (registered registers
          (with_effects (λ l, l ++ [ImportScripts (_url this)])
             (allocated this σ)))).

(** ** How a state may change *)

(** What a later state keeps of an adapter: the fields fixed at
    construction, a flag that was set, a readiness promise that was
    assigned. *)
Definition keeps (this this' : CustomProjection) : Prop :=
  _url this' = _url this ∧
  _projectionName this' = _projectionName this ∧
  _ellipsoid this' = _ellipsoid this ∧
  (_ready this = true → _ready this' = true) ∧
  (∀ p, _readyPromise this = Some p → _readyPromise this' = Some p).

Definition terminal (s : stage) : bool :=
  match s with
  | Following | Failed _ => true
  | Fetching | Queued => false
  end.

Definition chain_keeps (ch ch' : chain) : Prop :=
  ch_customProjection ch' = ch_customProjection ch ∧
  ch_projectionName ch' = ch_projectionName ch ∧
  ch_deferred ch' = ch_deferred ch ∧
  (terminal (ch_stage ch) = true → ch_stage ch' = ch_stage ch).

Definition settlement_keeps (s s' : settlement) : Prop :=
  s = Pending ∨ s' = s.

(** [evolves added σ σ']: [σ'] comes after [σ], the effects [added] having
    happened in between.  Nothing is lost; an adapter is ready in [σ'] only
    if it was ready in [σ] or its completion callback ran in between. *)
Record evolves (added : list effect) (σ σ' : state) : Prop := {
  ev_effects : effects σ' = effects σ ++ added;
  ev_adapters : ∀ a this, adapters σ !! a = Some this →
    ∃ this', adapters σ' !! a = Some this' ∧ keeps this this';
  ev_cause : ∀ a this', adapters σ' !! a = Some this' → _ready this' = true →
    (∃ this, adapters σ !! a = Some this ∧ _ready this = true) ∨
    CallbackRun a ∈ added;
  ev_deferreds : ∀ d s, deferreds σ !! d = Some s →
    ∃ s', deferreds σ' !! d = Some s' ∧ settlement_keeps s s';
  ev_chains : ∀ c ch, chains σ !! c = Some ch →
    ∃ ch', chains σ' !! c = Some ch' ∧ chain_keeps ch ch'
}.

(** The parts of the store that no callback and no factory call
    touches. *)
Record same_surroundings (σ σ' : state) : Prop := {
  same_cache : loadedProjectionFunctions σ' = loadedProjectionFunctions σ;
  same_slot : createProjectionFunctions σ' = createProjectionFunctions σ;
  same_worker : inWorker σ' = inWorker σ;
  same_base : baseUri σ' = baseUri σ;
  same_heap : heap σ' = heap σ;
  same_chains : chains σ' = chains σ;
  same_adapters : length (adapters σ') = length (adapters σ);
  same_deferreds : length (deferreds σ') = length (deferreds σ)
}.

(** [project], [unproject], a caller's allocation and a change of base
    touch the heap, the base and the log only. *)
Record quiet (added : list effect) (σ σ' : state) : Prop := {
  quiet_effects : effects σ' = effects σ ++ added;
  quiet_cache : loadedProjectionFunctions σ' = loadedProjectionFunctions σ;
  quiet_slot : createProjectionFunctions σ' = createProjectionFunctions σ;
  quiet_worker : inWorker σ' = inWorker σ;
  quiet_adapters : adapters σ' = adapters σ;
  quiet_deferreds : deferreds σ' = deferreds σ;
  quiet_chains : chains σ' = chains σ;
  quiet_callbacks : callbacks σ' = callbacks σ
}.

(** ** The wiring of adapters, deferreds, chains and callbacks *)

(** [consistent running σ]: the adapter at [a] owns the deferred at [a];
    its flag is set exactly when that deferred is resolved; a deferred
    handed out as the readiness promise (cache hit) is resolved with the
    adapter only; a chain and its adapter point at each other, and the
    adapter is not ready before the handler of the chain has started;
    every callback handed out belongs to an adapter of the matching kind.
    [running] names the chain whose handler is executing, if any. *)
Record consistent (running : option nat) (σ : state) : Prop := {
  cons_length : length (adapters σ) = length (deferreds σ);
  cons_flag : ∀ a this, adapters σ !! a = Some this →
    (deferreds σ !! a = Some Pending ∧ _ready this = false) ∨
    (∃ v, deferreds σ !! a = Some (Resolved v) ∧ _ready this = true ∧
          ((∀ c, _readyPromise this ≠ Some (OfChain c)) → v = ResAdapter a));
  cons_deferred : ∀ a this d, adapters σ !! a = Some this →
    _readyPromise this = Some (OfDeferred d) → d = a;
  cons_chain : ∀ a this c, adapters σ !! a = Some this →
    _readyPromise this = Some (OfChain c) →
    ∃ ch, chains σ !! c = Some ch ∧ ch_customProjection ch = a;
  cons_chains : ∀ c ch, chains σ !! c = Some ch →
    ch_deferred ch = ch_customProjection ch ∧
    ∃ this, adapters σ !! ch_customProjection ch = Some this ∧
      _readyPromise this = Some (OfChain c) ∧
      (terminal (ch_stage ch) = false → running ≠ Some c → _ready this = false);
  cons_callbacks : ∀ k cb, callbacks σ !! k = Some cb →
    closure_deferred cb = closure_adapter cb ∧
    ∃ this, adapters σ !! closure_adapter cb = Some this ∧
      match cb with
      | CachedCallback _ _ => ∀ c, _readyPromise this ≠ Some (OfChain c)
      | LoadedCallback _ _ =>
          ∃ c ch, _readyPromise this = Some (OfChain c) ∧
            chains σ !! c = Some ch ∧
            (terminal (ch_stage ch) = true ∨ running = Some c)
      end
}.

(** ** What callback calls leave *)

(** The adapter once a completion callback has run with a pair: lines
    197-199 and 220-222. *)
Definition wired (project unproject : jsval) (this : CustomProjection) : CustomProjection :=
  set_ready true (set_functions project unproject this).

(** The adapter once the callback calls of one factory invocation have
    run: the pair of the last call stays. *)
Definition after_calls (calls : list (jsval * jsval)) (this : CustomProjection)
    : CustomProjection :=
  match last calls with
  | Some (project, unproject) => wired project unproject this
  | None => this
  end.

(** The deferred of the callback once these calls have run. *)
Definition settled_by (calls : list (jsval * jsval)) (v : resolution) (s : settlement)
    : settlement :=
  match last calls with
  | Some _ => settle v s
  | None => s
  end.

(** ** Kinds of events *)

(** The events that construct an adapter. *)
Definition is_new (e : event) : bool :=
  match e with
  | ENew _ _ _ _ => true
  | _ => false
  end.

(** The events in which the first handler of a chain runs after its
    fetch. *)
Definition is_then (e : event) : bool :=
  match e with
  | EThen _ => true
  | _ => false
  end.

(** The value the file of an event writes to the global slot, when the
    event executes a file that registers one. *)
Definition registered_by (e : event) : option jsval :=
  match e with
  | ENew _ _ _ (ScriptRuns (Some f)) | EFetchSettles _ (ScriptRuns (Some f)) => Some f
  | _ => None
  end.


(** ** An adapter whose load has failed *)

(** No callback of the adapter at [a] has been handed to external code. *)
Definition unreached (a : loc) (σ : state) : bool :=
  forallb (λ cb, bool_decide (closure_adapter cb ≠ a)) (callbacks σ).

(** [stranded c a σ]: the chain [c] of the adapter at [a] has failed, no
    callback of the adapter was handed out, and the adapter is not
    ready. *)
Record stranded (c : nat) (a : loc) (σ : state) : Prop := {
  stranded_wiring : consistent None σ;
  stranded_chain : ∃ ch e,
    chains σ !! c = Some ch ∧ ch_customProjection ch = a ∧ ch_stage ch = Failed e;
  stranded_callbacks : unreached a σ = true;
  stranded_flag : ∃ this, adapters σ !! a = Some this ∧ _ready this = false
}.

(** ** Example values and runs *)

(** An example resolver and example projection functions, those of the
    documentation comment at lines 241-257, for concrete runs. *)
Definition against_base (relative base : string) : string := base +:+ relative.

Definition radius : float := 6378137.0%float.

(** [object.key] read by external code: reading a property of [undefined]
    is a [TypeError] ([None]); a string or a number has no such property;
    a location without an object stands for an object of another kind,
    without coordinates. *)
Definition member (object : data) (key : string) (h : list instance) : option number :=
  match object with
  | VUndefined => None
  | VObject l => Some (default None (read key <$> h !! l))
  | _ => Some None
  end.

(** [object.key = v] in external code: on [undefined] a [TypeError]
    ([None]); on a string or a number the assignment is dropped, the
    documentation comment showing no strict mode. *)
Definition assign_member (object : data) (key : string) (v : number)
    (h : list instance) : option (list instance) :=
  match object with
  | VUndefined => None
  | VObject l => Some (alter (write key v) l h)
  | _ => Some h
  end.

(** A value used as a number: [undefined] is NaN. *)
Definition to_number (v : number) : float := default nan v.

(** Lines 243-247: three assignments to properties of [result]. *)
Definition simple_project (cartographic result : data) (h : list instance)
    : completion unit * list instance :=
  match
    h ← (longitude ← member cartographic "longitude" h;
         assign_member result "x" (Some (to_number longitude * radius)%float) h);
    h ← (latitude ← member cartographic "latitude" h;
         assign_member result "y" (Some (to_number latitude * radius)%float) h);
    height ← member cartographic "height" h;
    assign_member result "z" height h
  with
  | Some h' => (Normal tt, h')
  | None => (Throw (TypeError "undefined has no properties"), h)
  end.

(** Lines 249-253. *)
Definition simple_unproject (cartesian result : data) (h : list instance)
    : completion unit * list instance :=
  match
    h ← (x ← member cartesian "x" h;
         assign_member result "longitude" (Some (to_number x / radius)%float) h);
    h ← (y ← member cartesian "y" h;
         assign_member result "latitude" (Some (to_number y / radius)%float) h);
    z ← member cartesian "z" h;
    assign_member result "height" z h
  with
  | Some h' => (Normal tt, h')
  | None => (Throw (TypeError "undefined has no properties"), h)
  end.

(** A coordinate function that assigns [result.x] and then throws. *)
Definition unfinished_project (cartographic result : data) (h : list instance)
    : completion unit * list instance :=
  match
    longitude ← member cartographic "longitude" h;
    assign_member result "x" (Some (to_number longitude * radius)%float) h
  with
  | Some h' => (Throw (Thrown "latitude out of range"), h')
  | None => (Throw (TypeError "undefined has no properties"), h)
  end.

Definition simpleProjection : jsval :=
  JFactory [(JFunction simple_project, JFunction simple_unproject)] None.

(** The adapter of the example runs, before and after its file arrived. *)
Definition example_pending : CustomProjection :=
  set_readyPromise (OfChain 0)
    (fields against_base (VString "proj.js") (VString "simple") None "https://host/").

Definition example_ready : CustomProjection :=
  set_ready true
    (set_functions (JFunction simple_project) (JFunction simple_unproject) example_pending).

(** A page has constructed an adapter; its file has not arrived yet. *)
Definition loading : state :=
  run against_base is_string
    [ENew (VString "proj.js") (VString "simple") None (ScriptRuns None);
     EAllocate (Cartographic 0 0 10);
     EAllocate (Cartesian3 1 2 3)]
    (initial ∅ None false "https://host/").

(** The file has arrived and registered [simpleProjection], which called
    back. *)
Definition loaded : state :=
  run against_base is_string
    [EFetchSettles 0 (ScriptRuns (Some simpleProjection)); EThen 0] loading.

(** The file of the example adapter has run and registered nothing; the
    handler is due. *)
Definition unregistered : state :=
  run against_base is_string [EFetchSettles 0 (ScriptRuns None)] loading.

(** A factory that never calls the callback it is given. *)
Definition silent : jsval := JFactory [] None.


(** A second adapter of the same name is constructed after the first is
    ready: a cache hit. *)
Definition both : state :=
  run against_base is_string
    [ENew (VString "proj.js") (VString "simple") None (ScriptRuns None)] loaded.

Definition example_second : CustomProjection :=
  set_readyPromise (OfDeferred 1)
    (set_ready true
       (set_functions (JFunction simple_project) (JFunction simple_unproject)
          (fields against_base (VString "proj.js") (VString "simple") None
             "https://host/"))).

(** The file of the example adapter has run and registered
    [simpleProjection]; the handler is due. *)
Definition arrived : state :=
  run against_base is_string
    [EFetchSettles 0 (ScriptRuns (Some simpleProjection))] loading.

(** The file of the example adapter has run and set the global to a
    number; the handler is due. *)
Definition misregistered : state :=
  run against_base is_string
    [EFetchSettles 0 (ScriptRuns (Some (JData (VNumber 42))))] loading.

(** After the example adapter is ready, an adapter of another name is
    constructed; its file is being fetched, and the global slot holds
    [simpleProjection] still. *)
Definition other_loading : state :=
  run against_base is_string
    [ENew (VString "other.js") (VString "other") None (ScriptRuns None)] loaded.

(** The example adapter is ready; a second call of its callback has
    handed it [unfinished_project] for both functions. *)
Definition unfinished : state :=
  run against_base is_string
    [ECallback 0 (JFunction unfinished_project) (JFunction unfinished_project)] loaded.

(** A worker in which no adapter was made. *)
Definition worker : state := initial ∅ None true "https://host/".

(** The file of the example adapter has run and registered [silent]; the
    handler is due. *)
Definition arrived_silent : state :=
  run against_base is_string [EFetchSettles 0 (ScriptRuns (Some silent))] loading.

(** The handler of the example adapter has called [silent], which keeps
    the callback it was given for later. *)
Definition kept_waiting : state := run against_base is_string [EThen 0] arrived_silent.

(** A factory that hands over the pair and then throws. *)
Definition hands_over_then_throws : jsval :=
  JFactory [(JFunction simple_project, JFunction simple_unproject)] (Some (Thrown "boom")).

(** The file of the example adapter has registered
    [hands_over_then_throws], and the handler has run. *)
Definition handler_threw : state :=
  run against_base is_string
    [EFetchSettles 0 (ScriptRuns (Some hands_over_then_throws)); EThen 0] loading.

(** A page in which no adapter was made. *)
Definition page : state := initial ∅ None false "https://host/".

(** * Part III: properties *)

Ltac unfold_monad :=
  unfold mbind, mret, M_bind, M_ret, bind, ret, throw, gets, modify, catch in *.

Ltac sim :=
  cbn [fst snd negb loadedProjectionFunctions createProjectionFunctions inWorker
       baseUri heap adapters deferreds chains callbacks effects
       with_cache with_slot with_base with_heap with_adapters with_deferreds
       with_chains with_callbacks with_effects] in *.

(** ** Calls before readiness *)

(** C1. On an adapter whose [_ready] flag is false, [project] and
    [unproject] throw the not-loaded [DeveloperError], whatever the
    arguments, and leave the whole state as it was: the flag, the stored
    pair and every other field of every adapter. *)
Theorem not_ready_call_fails (σ : state) (a : loc) (this : CustomProjection)
    (input result : data) :
  adapters σ !! a = Some this →
  _ready this = false →
  project a input result σ = (Throw (DeveloperError not_loaded), σ) ∧
  unproject a input result σ = (Throw (DeveloperError not_loaded), σ).
Proof.
  intros Hthis Hready.
  unfold project, unproject, adapter. unfold_monad.
  rewrite Hthis, Hready. by split.
Qed.

(** ** The argument check *)

(** C10. On a ready adapter, [project] with an undefined [cartographic]
    and [unproject] with an undefined [cartesian] throw a
    [DeveloperError]; the state is left as it was, so nothing was
    allocated and the stored function, whatever it is, was not called (no
    [ProjectCall] or [UnprojectCall] is logged). *)
Theorem undefined_input_is_refused (σ : state) (a : loc) (this : CustomProjection)
    (result : data) :
  adapters σ !! a = Some this →
  _ready this = true →
  (∃ message, project a VUndefined result σ = (Throw (DeveloperError message), σ)) ∧
  (∃ message, unproject a VUndefined result σ = (Throw (DeveloperError message), σ)).
Proof.
  intros Hthis Hready.
  unfold project, unproject, adapter, Check_defined. unfold_monad.
  rewrite Hthis, Hready. split; by eexists.
Qed.

(** ** The result argument *)

(** C6. On a ready adapter whose stored pair are functions, with a defined
    input: when a result is supplied, the stored function is called with
    that very value as its output argument, the heap is what the function
    made of it, and the same value is returned; when none is supplied, a
    [Cartesian3] (for [project]) or a [Cartographic] (for [unproject]) is
    allocated at a location that was free, the stored function is called
    with it, and it is returned. *)
Theorem result_object_is_returned (σ : state) (a : loc) (this : CustomProjection)
    (f g : data → data → list instance → completion unit * list instance)
    (input : data) :
  adapters σ !! a = Some this →
  _ready this = true →
  _project this = JFunction f →
  _unproject this = JFunction g →
  defined (JData input) = true →
  let fresh := length (heap σ) in
  (∀ result h', defined (JData result) = true →
     f input result (heap σ) = (Normal tt, h') →
     project a input result σ = (Normal result, called (ProjectCall a) h' σ)) ∧
  (∀ result h', defined (JData result) = true →
     g input result (heap σ) = (Normal tt, h') →
     unproject a input result σ = (Normal result, called (UnprojectCall a) h' σ)) ∧
  heap σ !! fresh = None ∧
  (∀ h', f input (VObject fresh) (heap σ ++ [Cartesian3 0 0 0]) = (Normal tt, h') →
     project a input VUndefined σ = (Normal (VObject fresh), called (ProjectCall a) h' σ)) ∧
  (∀ h', g input (VObject fresh) (heap σ ++ [Cartographic 0 0 0]) = (Normal tt, h') →
     unproject a input VUndefined σ = (Normal (VObject fresh), called (UnprojectCall a) h' σ)).
Proof.
  intros Hthis Hready Hf Hg Hin fresh.
  destruct input; try discriminate Hin.
  all: repeat split; try (by apply lookup_ge_None).
  all: try (intros result h' Hres Hcall; destruct result; try discriminate Hres).
  all: try intros h' Hcall.
  all: unfold project, unproject, adapter, call, log, new_Cartesian3,
         new_Cartographic, allocate; unfold_monad.
  all: rewrite Hthis, Hready; simpl.
  all: rewrite ?Hf, ?Hg; simpl; fold fresh.
  all: by rewrite Hcall.
Qed.

(** ** Evolution, one change at a time *)

Lemma keeps_refl this : keeps this this.
Proof. by repeat split. Qed.

Lemma keeps_trans x y z : keeps x y → keeps y z → keeps x z.
Proof.
  intros (? & ? & ? & ? & ?) (? & ? & ? & ? & ?).
  repeat split; try congruence; auto.
Qed.

Lemma chain_keeps_refl ch : chain_keeps ch ch.
Proof. by repeat split. Qed.

Lemma chain_keeps_trans x y z : chain_keeps x y → chain_keeps y z → chain_keeps x z.
Proof.
  intros (? & ? & ? & Hxy) (? & ? & ? & Hyz).
  repeat split; try congruence.
  intros Hx. rewrite <- (Hxy Hx). apply Hyz. by rewrite (Hxy Hx).
Qed.

Lemma settlement_keeps_trans x y z :
  settlement_keeps x y → settlement_keeps y z → settlement_keeps x z.
Proof. intros [?|?] [?|?]; subst; unfold settlement_keeps; auto. Qed.

Lemma evolves_refl σ : evolves [] σ σ.
Proof.
  split; intros.
  - by rewrite app_nil_r.
  - eauto using keeps_refl.
  - eauto.
  - eexists; split; [done | by right].
  - eauto using chain_keeps_refl.
Qed.

Lemma evolves_trans l1 l2 σ1 σ2 σ3 :
  evolves l1 σ1 σ2 → evolves l2 σ2 σ3 → evolves (l1 ++ l2) σ1 σ3.
Proof.
  intros [He1 Ha1 Hc1 Hd1 Hch1] [He2 Ha2 Hc2 Hd2 Hch2]. split.
  - by rewrite He2, He1, app_assoc.
  - intros a this Hthis.
    destruct (Ha1 _ _ Hthis) as (this' & Hthis' & ?).
    destruct (Ha2 _ _ Hthis') as (this'' & ? & ?).
    eauto using keeps_trans.
  - intros a this'' Hthis'' Hready.
    destruct (Hc2 _ _ Hthis'' Hready) as [(this' & Hthis' & Hready')|Hin].
    + destruct (Hc1 _ _ Hthis' Hready') as [?|Hin]; [by left |].
      right. apply elem_of_app. by left.
    + right. apply elem_of_app. by right.
  - intros d s Hs.
    destruct (Hd1 _ _ Hs) as (s' & Hs' & ?).
    destruct (Hd2 _ _ Hs') as (s'' & ? & ?).
    eauto using settlement_keeps_trans.
  - intros c ch Hch.
    destruct (Hch1 _ _ Hch) as (ch' & Hch' & ?).
    destruct (Hch2 _ _ Hch') as (ch'' & ? & ?).
    eauto using chain_keeps_trans.
Qed.

(** A change that touches neither adapters, deferreds nor chains. *)
Lemma evolves_frame l added σ σ' σ'' :
  evolves l σ σ' →
  effects σ'' = effects σ' ++ added →
  adapters σ'' = adapters σ' →
  deferreds σ'' = deferreds σ' →
  chains σ'' = chains σ' →
  evolves (l ++ added) σ σ''.
Proof.
  intros Hev He Ha Hd Hc.
  apply (evolves_trans _ _ _ σ'); [done |].
  split.
  - done.
  - intros a this. rewrite Ha. eauto using keeps_refl.
  - intros a this'. rewrite Ha. eauto.
  - intros d s. rewrite Hd. intros; eexists; split; [done | by right].
  - intros c ch. rewrite Hc. eauto using chain_keeps_refl.
Qed.

Lemma evolves_silent l σ σ' σ'' :
  evolves l σ σ' →
  effects σ'' = effects σ' →
  adapters σ'' = adapters σ' →
  deferreds σ'' = deferreds σ' →
  chains σ'' = chains σ' →
  evolves l σ σ''.
Proof.
  intros Hev He Ha Hd Hc. rewrite <- (app_nil_r l).
  apply (evolves_frame _ _ _ σ'); try done. by rewrite app_nil_r.
Qed.

Lemma evolves_log l σ σ' e :
  evolves l σ σ' → evolves (l ++ [e]) σ (with_effects (λ l, l ++ [e]) σ').
Proof. intros. by apply (evolves_frame _ _ _ σ'). Qed.

(** One adapter changes: it keeps what it had, unless it is newer than
    [σ]; if its flag is set, its callback has run. *)
Lemma evolves_alter l σ σ' (a : loc) (g : CustomProjection → CustomProjection) :
  evolves l σ σ' →
  (∀ this', adapters σ' !! a = Some this' →
     (length (adapters σ) ≤ a ∨ keeps this' (g this')) ∧
     (_ready (g this') = true → _ready this' = true ∨ CallbackRun a ∈ l)) →
  evolves l σ (with_adapters (alter g a) σ').
Proof.
  intros [He Ha Hc Hd Hch] Hg. split; sim; try done.
  - intros a0 this Hthis.
    destruct (Ha _ _ Hthis) as (this' & Hthis' & Hkeeps).
    destruct (decide (a = a0)) as [->|Hne].
    + rewrite list_lookup_alter_eq, Hthis'. eexists; split; [done |].
      destruct (Hg _ Hthis') as [[Hnew|Hk] _].
      * apply lookup_lt_Some in Hthis. lia.
      * eauto using keeps_trans.
    + rewrite list_lookup_alter_ne by done. eauto.
  - intros a0 this'' Hthis'' Hready.
    destruct (decide (a = a0)) as [->|Hne].
    + rewrite list_lookup_alter_eq in Hthis''.
      apply fmap_Some in Hthis'' as (this' & Hthis' & ->).
      destruct (Hg _ Hthis') as [_ Hr].
      destruct (Hr Hready) as [?|?]; eauto.
    + rewrite list_lookup_alter_ne in Hthis'' by done. eauto.
Qed.

Lemma evolves_set_functions l σ σ' a project unproject :
  evolves l σ σ' →
  evolves l σ (with_adapters (alter (set_functions project unproject) a) σ').
Proof.
  intros. apply evolves_alter; [done |].
  intros this' _. split; [right; by repeat split | auto].
Qed.

Lemma evolves_set_ready l σ σ' a :
  evolves l σ σ' → CallbackRun a ∈ l →
  evolves l σ (with_adapters (alter (set_ready true) a) σ').
Proof.
  intros. apply evolves_alter; [done |].
  intros this' _. split; [right; by repeat split | auto].
Qed.

Lemma evolves_set_readyPromise l σ σ' (a : loc) p :
  evolves l σ σ' → length (adapters σ) ≤ a →
  evolves l σ (with_adapters (alter (set_readyPromise p) a) σ').
Proof.
  intros. apply evolves_alter; [done |].
  intros this' _. split; [by left | auto].
Qed.

Lemma evolves_new_adapter l σ σ' this :
  evolves l σ σ' → _ready this = false →
  evolves l σ (with_adapters (λ l, l ++ [this]) σ').
Proof.
  intros [He Ha Hc Hd Hch] Hthis. split; sim; try done.
  - intros a0 this0 Hthis0.
    destruct (Ha _ _ Hthis0) as (this' & Hthis' & Hkeeps).
    exists this'. split; [by apply lookup_app_l_Some | done].
  - intros a0 this' Hthis' Hready.
    apply lookup_app_Some in Hthis' as [?|[_ Hlast]]; [eauto |].
    apply list_lookup_singleton_Some in Hlast as [_ <-]. congruence.
Qed.

Lemma evolves_when_defer l σ σ' :
  evolves l σ σ' → evolves l σ (with_deferreds (λ l, l ++ [Pending]) σ').
Proof.
  intros [He Ha Hc Hd Hch]. split; sim; try done.
  intros d s Hs. destruct (Hd _ _ Hs) as (s' & Hs' & ?).
  exists s'. split; [by apply lookup_app_l_Some | done].
Qed.

Lemma evolves_resolve l σ σ' d v :
  evolves l σ σ' → evolves l σ (with_deferreds (alter (settle v) d) σ').
Proof.
  intros [He Ha Hc Hd Hch]. split; sim; try done.
  intros d0 s Hs. destruct (Hd _ _ Hs) as (s' & Hs' & Hkeeps).
  destruct (decide (d = d0)) as [->|Hne].
  - rewrite list_lookup_alter_eq, Hs'. eexists; split; [done |].
    destruct Hkeeps as [->| ->]; [by left |].
    destruct s; [by left | by right | by right].
  - rewrite list_lookup_alter_ne by done. eauto.
Qed.

Lemma evolves_then_chain l σ σ' ch :
  evolves l σ σ' → evolves l σ (with_chains (λ l, l ++ [ch]) σ').
Proof.
  intros [He Ha Hc Hd Hch]. split; sim; try done.
  intros c ch0 Hch0. destruct (Hch _ _ Hch0) as (ch' & Hch' & ?).
  exists ch'. split; [by apply lookup_app_l_Some | done].
Qed.

(** A chain that had not come to an end moves on. *)
Lemma evolves_set_stage l σ σ' c s :
  evolves l σ σ' →
  (∀ ch, chains σ !! c = Some ch → terminal (ch_stage ch) = false) →
  evolves l σ (with_chains (alter (set_stage s) c) σ').
Proof.
  intros [He Ha Hc Hd Hch] Hopen. split; sim; try done.
  intros c0 ch Hch0. destruct (Hch _ _ Hch0) as (ch' & Hch' & Hkeeps).
  destruct (decide (c = c0)) as [->|Hne].
  - rewrite list_lookup_alter_eq, Hch'. eexists; split; [done |].
    destruct Hkeeps as (? & ? & ? & ?). repeat split; try done.
    intros Hterminal. rewrite (Hopen _ Hch0) in Hterminal. done.
  - rewrite list_lookup_alter_ne by done. eauto.
Qed.

(** ** The callbacks and the factory call *)

Lemma completion_callback_eq cb project unproject σ :
  completion_callback cb project unproject σ
  = (Normal tt, callback_state cb project unproject σ).
Proof. by destruct cb. Qed.

Lemma callback_calls_eq cb calls σ :
  callback_calls cb calls σ = (Normal tt, calls_state cb calls σ).
Proof.
  revert σ. induction calls as [|[project unproject] calls IH]; intros σ; [done |].
  simpl. unfold_monad. rewrite completion_callback_eq. apply IH.
Qed.

Lemma invoke_eq projectionName factory cb σ :
  invoke projectionName factory cb σ
  = (invoke_result factory, invoke_state projectionName factory cb σ).
Proof.
  destruct factory as [d|f|calls [e|]]; try done.
  all: unfold invoke, log; unfold_monad; by rewrite callback_calls_eq.
Qed.

Lemma evolves_callback l σ σ' cb project unproject :
  evolves l σ σ' →
  evolves (l ++ [CallbackRun (closure_adapter cb)]) σ
    (callback_state cb project unproject σ').
Proof.
  intros Hev. unfold callback_state.
  apply evolves_resolve, evolves_set_ready, elem_of_app; [| right; by left].
  by apply evolves_set_functions, evolves_log.
Qed.

Lemma evolves_calls l σ σ' cb calls :
  evolves l σ σ' →
  evolves (l ++ replicate (length calls) (CallbackRun (closure_adapter cb))) σ
    (calls_state cb calls σ').
Proof.
  revert l σ'. induction calls as [|[project unproject] calls IH]; intros l σ' Hev.
  - simpl. by rewrite app_nil_r.
  - simpl. rewrite (cons_middle _ l), app_assoc.
    apply IH. by apply evolves_callback.
Qed.

Lemma evolves_invoke l σ σ' projectionName factory cb :
  evolves l σ σ' →
  evolves (l ++ invoke_effects projectionName factory cb) σ
    (invoke_state projectionName factory cb σ').
Proof.
  intros Hev. destruct factory as [d|f|calls throws]; simpl.
  1,2: by rewrite app_nil_r.
  rewrite (cons_middle _ l), app_assoc. apply evolves_calls.
  apply (evolves_silent _ _ (with_effects (λ l, l ++ [FactoryCall projectionName]) σ'));
    try done.
  by apply evolves_log.
Qed.

(** ** The handler and the assignment of line 58 *)

(** In a worker the handler runs inside [buildCustomProjection], before
    line 58 assigns the promise; the callbacks do not touch that field,
    so the assignment may as well come first. *)
Lemma alter_commute {A} (f g : A → A) (i j : nat) (l : list A) :
  (∀ x, f (g x) = g (f x)) → alter f i (alter g j l) = alter g j (alter f i l).
Proof.
  intros Hfg. apply list_eq. intros k. rewrite !list_lookup_alter.
  repeat case_decide; subst; rewrite ?list_lookup_alter_eq, ?list_lookup_alter_ne by done;
    try done.
  destruct (l !! k); simpl; [| done]. by rewrite Hfg.
Qed.

Lemma callback_state_readyPromise cb project unproject (a : loc) p σ :
  callback_state cb project unproject (with_adapters (alter (set_readyPromise p) a) σ)
  = with_adapters (alter (set_readyPromise p) a) (callback_state cb project unproject σ).
Proof.
  unfold callback_state, with_deferreds, with_adapters, with_effects. sim. f_equal.
  by rewrite <- !(alter_commute (set_readyPromise p)).
Qed.

Lemma calls_state_readyPromise cb calls (a : loc) p σ :
  calls_state cb calls (with_adapters (alter (set_readyPromise p) a) σ)
  = with_adapters (alter (set_readyPromise p) a) (calls_state cb calls σ).
Proof.
  revert σ. induction calls as [|[project unproject] calls IH]; intros σ; [done |].
  simpl. by rewrite callback_state_readyPromise, IH.
Qed.

Lemma invoke_state_readyPromise projectionName factory cb (a : loc) p σ :
  invoke_state projectionName factory cb (with_adapters (alter (set_readyPromise p) a) σ)
  = with_adapters (alter (set_readyPromise p) a)
      (invoke_state projectionName factory cb σ).
Proof.
  destruct factory as [v|f|calls throws]; try done.
  unfold invoke_state. by rewrite <- calls_state_readyPromise.
Qed.

(** ** What the callbacks leave alone *)

Lemma calls_state_ind (P : state → Prop) cb calls σ :
  P σ →
  (∀ σ project unproject, P σ → P (callback_state cb project unproject σ)) →
  P (calls_state cb calls σ).
Proof.
  intros Hσ Hstep. revert σ Hσ.
  induction calls as [|[project unproject] calls IH]; intros σ Hσ; [done |].
  simpl. apply IH, Hstep, Hσ.
Qed.

Lemma calls_state_surroundings cb calls σ :
  same_surroundings σ (calls_state cb calls σ) ∧
  callbacks (calls_state cb calls σ) = callbacks σ.
Proof.
  apply calls_state_ind; [by repeat split |].
  intros σ' project unproject [[] Hcallbacks].
  unfold callback_state. repeat split; sim; try done.
  all: by rewrite ?length_alter.
Qed.

Lemma invoke_state_surroundings projectionName factory cb σ :
  same_surroundings σ (invoke_state projectionName factory cb σ).
Proof.
  destruct factory as [d|f|calls throws]; simpl; try by repeat split.
  by destruct (calls_state_surroundings cb calls
    (with_callbacks (λ l, l ++ [cb])
       (with_effects (λ l, l ++ [FactoryCall projectionName]) σ))) as [[] _].
Qed.

Lemma invoke_state_effects projectionName factory cb σ :
  effects (invoke_state projectionName factory cb σ)
  = effects σ ++ invoke_effects projectionName factory cb.
Proof.
  by destruct (evolves_invoke [] σ σ projectionName factory cb (evolves_refl σ)).
Qed.

Lemma invoke_effects_no_load projectionName factory cb :
  Forall (λ e, is_load e = false) (invoke_effects projectionName factory cb).
Proof.
  destruct factory as [d|f|calls throws]; simpl; try by constructor.
  constructor; [done |]. by apply Forall_replicate.
Qed.

(** ** What the callbacks leave in adapters and deferreds *)

Lemma callback_state_adapter cb project unproject σ (a : loc) :
  adapters (callback_state cb project unproject σ) !! a
  = if decide (a = closure_adapter cb)
    then wired project unproject <$> adapters σ !! a
    else adapters σ !! a.
Proof.
  unfold callback_state. sim. destruct (decide (a = closure_adapter cb)) as [->|Hne].
  - rewrite !list_lookup_alter_eq. by destruct (adapters σ !! closure_adapter cb).
  - by rewrite !list_lookup_alter_ne.
Qed.

Lemma callback_state_deferred cb project unproject σ (d : nat) :
  deferreds (callback_state cb project unproject σ) !! d
  = if decide (d = closure_deferred cb)
    then settle (closure_resolution cb) <$> deferreds σ !! d
    else deferreds σ !! d.
Proof.
  unfold callback_state. sim. destruct (decide (d = closure_deferred cb)) as [->|Hne].
  - by rewrite list_lookup_alter_eq.
  - by rewrite list_lookup_alter_ne.
Qed.

Lemma calls_state_snoc cb calls call σ :
  calls_state cb (calls ++ [call]) σ
  = callback_state cb call.1 call.2 (calls_state cb calls σ).
Proof. unfold calls_state. by rewrite foldl_app. Qed.

Lemma calls_state_adapter cb calls σ (a : loc) :
  adapters (calls_state cb calls σ) !! a
  = if decide (a = closure_adapter cb)
    then after_calls calls <$> adapters σ !! a
    else adapters σ !! a.
Proof.
  unfold after_calls. induction calls as [|[project unproject] calls IH] using rev_ind.
  - simpl. destruct (decide _); [| done]. by destruct (adapters σ !! a).
  - rewrite calls_state_snoc, callback_state_adapter, last_snoc, IH. simpl.
    destruct (decide _); [| done].
    destruct (adapters σ !! a) as [this|]; [| done]. simpl.
    by destruct (last calls) as [[] |].
Qed.

Lemma calls_state_deferred cb calls σ (d : nat) :
  deferreds (calls_state cb calls σ) !! d
  = if decide (d = closure_deferred cb)
    then settled_by calls (closure_resolution cb) <$> deferreds σ !! d
    else deferreds σ !! d.
Proof.
  unfold settled_by. induction calls as [|[project unproject] calls IH] using rev_ind.
  - simpl. destruct (decide _); [| done]. by destruct (deferreds σ !! d).
  - rewrite calls_state_snoc, callback_state_deferred, last_snoc, IH. simpl.
    destruct (decide _); [| done].
    destruct (deferreds σ !! d) as [s|]; [| done]. simpl.
    destruct (last calls) as [[] |]; [| done]. by destruct s.
Qed.

Lemma invoke_state_adapter projectionName calls throws cb σ (a : loc) :
  adapters (invoke_state projectionName (JFactory calls throws) cb σ) !! a
  = if decide (a = closure_adapter cb)
    then after_calls calls <$> adapters σ !! a
    else adapters σ !! a.
Proof. unfold invoke_state. by rewrite calls_state_adapter. Qed.

Lemma invoke_state_deferred projectionName calls throws cb σ (d : nat) :
  deferreds (invoke_state projectionName (JFactory calls throws) cb σ) !! d
  = if decide (d = closure_deferred cb)
    then settled_by calls (closure_resolution cb) <$> deferreds σ !! d
    else deferreds σ !! d.
Proof. unfold invoke_state. by rewrite calls_state_deferred. Qed.

Lemma invoke_state_others projectionName factory cb σ :
  (∀ a : loc, a ≠ closure_adapter cb →
     adapters (invoke_state projectionName factory cb σ) !! a = adapters σ !! a) ∧
  (∀ d : nat, d ≠ closure_deferred cb →
     deferreds (invoke_state projectionName factory cb σ) !! d = deferreds σ !! d) ∧
  (∀ k : nat, k < length (callbacks σ) →
     callbacks (invoke_state projectionName factory cb σ) !! k = callbacks σ !! k).
Proof.
  destruct factory as [v|f|calls throws]; try done.
  split; [| split].
  - intros a Hne. rewrite invoke_state_adapter. by rewrite decide_False.
  - intros d Hne. rewrite invoke_state_deferred. by rewrite decide_False.
  - intros k Hk. unfold invoke_state.
    rewrite (proj2 (calls_state_surroundings _ _ _)). sim. by apply lookup_app_l.
Qed.

(** ** Evolution of the closed forms *)

Lemma quiet_evolves added σ σ' : quiet added σ σ' → evolves added σ σ'.
Proof.
  intros []. by apply (evolves_frame [] added σ σ σ'); [apply evolves_refl | ..].
Qed.

Lemma evolves_allocated l σ σ' this :
  evolves l σ σ' → _ready this = false → evolves l σ (allocated this σ').
Proof. intros. by apply evolves_when_defer, evolves_new_adapter. Qed.

Lemma evolves_registered l σ σ' registers :
  evolves l σ σ' → evolves l σ (registered registers σ').
Proof.
  intros. destruct registers; [| done]. by apply (evolves_silent _ _ σ').
Qed.

Lemma evolves_cache l σ σ' f :
  evolves l σ σ' → evolves l σ (with_cache f σ').
Proof. intros. by apply (evolves_silent _ _ σ'). Qed.

Lemma snd_then_ret {A B} (m : M A) (k : A → B) σ :
  (bind m (λ x, ret (k x)) σ).2 = (m σ).2.
Proof. unfold bind, ret. by destruct (m σ) as [[x|e] σ']. Qed.

Lemma execute_runs registers σ :
  execute (ScriptRuns registers) σ = (Normal tt, registered registers σ).
Proof. by destruct registers. Qed.

Lemma promise_state_failed σ c ch e :
  chains σ !! c = Some ch → ch_stage ch = Failed e →
  promise_state σ (OfChain c) = Rejected e.
Proof. intros Hch Hstage. simpl. by rewrite Hch, Hstage. Qed.

(** A promise that is settled stays as it is. *)
Lemma evolves_settled l σ σ' p :
  evolves l σ σ' →
  promise_state σ p ≠ Pending →
  promise_state σ' p = promise_state σ p.
Proof.
  intros Hev Hsettled. destruct p as [d|c]; simpl in *.
  - destruct (deferreds σ !! d) as [s|] eqn:Hd; [| done].
    destruct (ev_deferreds _ _ _ Hev _ _ Hd) as (s' & -> & [->| ->]); done.
  - destruct (chains σ !! c) as [ch|] eqn:Hch; [| done].
    destruct (ev_chains _ _ _ Hev _ _ Hch)
      as (ch' & -> & Hadapter & _ & Hdeferred & Hstage).
    destruct (ch_stage ch) eqn:Hs; try done.
    + rewrite (Hstage eq_refl), Hdeferred, Hadapter.
      destruct (deferreds σ !! ch_deferred ch) as [s|] eqn:Hd; [| done].
      destruct (ev_deferreds _ _ _ Hev _ _ Hd) as (s' & -> & [->| ->]); done.
    + by rewrite (Hstage eq_refl).
Qed.

(** ** The events of a chain and of a callback, path by path *)

(** A settled or unknown fetch is not settled again. *)
Lemma fetch_settles_idle c fetched σ :
  ch_stage <$> chains σ !! c ≠ Some Fetching →
  fetch_settles c fetched σ = (Normal tt, σ).
Proof.
  intros Hidle. unfold fetch_settles. unfold_monad.
  destruct (chains σ !! c) as [ch|]; [| done].
  destruct (ch_stage ch) eqn:Hstage; try done.
  simpl in Hidle. congruence.
Qed.

Lemma fetch_settles_fails c ch e σ :
  chains σ !! c = Some ch → ch_stage ch = Fetching →
  fetch_settles c (ScriptFails e) σ
  = (Normal tt, with_chains (alter (set_stage (Failed e)) c) σ).
Proof.
  intros Hch Hstage. unfold fetch_settles. unfold_monad.
  by rewrite Hch, Hstage.
Qed.

Lemma fetch_settles_runs c ch registers σ :
  chains σ !! c = Some ch → ch_stage ch = Fetching →
  fetch_settles c (ScriptRuns registers) σ
  = (Normal tt, with_chains (alter (set_stage Queued) c) (registered registers σ)).
Proof.
  intros Hch Hstage. unfold fetch_settles. unfold_monad.
  rewrite Hch, Hstage, execute_runs. done.
Qed.

(** The handler runs once, when it is due. *)
Lemma fetch_then_idle c σ :
  ch_stage <$> chains σ !! c ≠ Some Queued →
  fetch_then c σ = (Normal tt, σ).
Proof.
  intros Hidle. unfold fetch_then. unfold_monad.
  destruct (chains σ !! c) as [ch|]; [| done].
  destruct (ch_stage ch) eqn:Hstage; try done.
  simpl in Hidle. congruence.
Qed.

(** Line 217 with nothing in the global slot. *)
Lemma fetch_then_unregistered c ch σ :
  chains σ !! c = Some ch → ch_stage ch = Queued →
  createProjectionFunctions σ = None →
  fetch_then c σ
  = (Normal tt,
     with_chains
       (alter (set_stage (Failed (ReferenceError "createProjectionFunctions"))) c) σ).
Proof.
  intros Hch Hstage Hslot. unfold fetch_then, fetch_handler. unfold_monad.
  by rewrite Hch, Hstage, Hslot.
Qed.

(** Lines 217-226 with a value in the global slot. *)
Lemma fetch_then_registered c ch f σ :
  chains σ !! c = Some ch → ch_stage ch = Queued →
  createProjectionFunctions σ = Some f →
  fetch_then c σ
  = (Normal tt,
     with_chains
       (alter (set_stage match invoke_result f with
                         | Normal _ => Following
                         | Throw e => Failed e
                         end) c)
       (invoke_state (ch_projectionName ch) f
          (LoadedCallback (ch_customProjection ch) (ch_deferred ch))
          (with_effects (λ l, l ++ [CacheStore (ch_projectionName ch)])
             (with_cache (<[ch_projectionName ch := f]>) σ)))).
Proof.
  intros Hch Hstage Hslot. unfold fetch_then, fetch_handler, log. unfold_monad.
  rewrite Hch, Hstage, Hslot, invoke_eq. done.
Qed.

Lemma fetch_then_returns c σ : (fetch_then c σ).1 = Normal tt.
Proof.
  unfold fetch_then. unfold_monad.
  destruct (chains σ !! c) as [ch|]; [| done].
  destruct (ch_stage ch); try done.
  by destruct (fetch_handler ch σ).
Qed.

Lemma then_chain_eq ch σ :
  then_chain ch σ
  = (Normal (length (chains σ)),
     (fetch_then (length (chains σ)) (with_chains (λ l, l ++ [ch]) σ)).2).
Proof.
  unfold then_chain. unfold_monad. sim.
  pose proof (fetch_then_returns (length (chains σ)) (with_chains (λ l, l ++ [ch]) σ))
    as Hreturns.
  by destruct (fetch_then _ _) as [[[]|e] σ'].
Qed.

Lemma fetch_then_readyPromise c (a : loc) p σ :
  (fetch_then c (with_adapters (alter (set_readyPromise p) a) σ)).2
  = with_adapters (alter (set_readyPromise p) a) (fetch_then c σ).2.
Proof.
  destruct (chains σ !! c) as [ch|] eqn:Hch;
    [destruct (ch_stage ch) eqn:Hstage |].
  1,3-5: rewrite !fetch_then_idle; [done | |]; sim; rewrite Hch; simpl; congruence.
  destruct (createProjectionFunctions σ) as [f|] eqn:Hslot.
  - rewrite (fetch_then_registered _ _ f _ Hch Hstage Hslot).
    rewrite (fetch_then_registered c ch f) by done. sim.
    set (cb := LoadedCallback (ch_customProjection ch) (ch_deferred ch)).
    change (with_effects (λ l, l ++ [CacheStore (ch_projectionName ch)])
              (with_cache (<[ch_projectionName ch := f]>)
                 (with_adapters (alter (set_readyPromise p) a) σ)))
      with (with_adapters (alter (set_readyPromise p) a)
              (with_effects (λ l, l ++ [CacheStore (ch_projectionName ch)])
                 (with_cache (<[ch_projectionName ch := f]>) σ))).
    by rewrite invoke_state_readyPromise.
  - rewrite (fetch_then_unregistered _ _ _ Hch Hstage Hslot).
    by rewrite (fetch_then_unregistered c ch) by done.
Qed.

Lemma callback_fires_unknown k project unproject σ :
  callbacks σ !! k = None →
  callback_fires k project unproject σ = (Normal tt, σ).
Proof. intros Hk. unfold callback_fires. unfold_monad. by rewrite Hk. Qed.

Lemma callback_fires_known k cb project unproject σ :
  callbacks σ !! k = Some cb →
  callback_fires k project unproject σ
  = (Normal tt, callback_state cb project unproject σ).
Proof.
  intros Hk. unfold callback_fires. unfold_monad.
  by rewrite Hk, completion_callback_eq.
Qed.

Lemma quiet_nothing σ : quiet [] σ σ.
Proof. split; try done. by rewrite app_nil_r. Qed.

Lemma quiet_heap h σ : quiet [] σ (with_heap h σ).
Proof. split; try done. sim. by rewrite app_nil_r. Qed.

Lemma quiet_call e h h' σ :
  quiet [e] σ (with_heap h' (with_effects (λ l, l ++ [e]) (with_heap h σ))).
Proof. by split. Qed.

Lemma call_quiet f e input result h σ :
  ∃ added, quiet added σ (call f e input result (with_heap h σ)).2.
Proof.
  unfold call, log. unfold_monad.
  destruct f as [d|f|calls throws]; sim; eauto using quiet_heap.
  destruct (f input result h) as [[[]|err] h']; sim; eauto using quiet_call.
Qed.

Lemma call_quiet' f e input result σ :
  ∃ added, quiet added σ (call f e input result σ).2.
Proof.
  unfold call, log. unfold_monad.
  destruct f as [d|f|calls throws]; sim; eauto using quiet_nothing.
  destruct (f input result (heap σ)) as [[[]|err] h']; sim.
  - exists [e]. by split.
  - exists [e]. by split.
Qed.

Lemma project_quiet a input result σ :
  ∃ added, quiet added σ (project a input result σ).2.
Proof.
  unfold project, adapter, Check_defined, new_Cartesian3, allocate. unfold_monad.
  destruct (adapters σ !! a) as [this|]; sim; eauto using quiet_nothing.
  destruct (_ready this); sim; eauto using quiet_nothing.
  destruct (defined (JData input)); sim; eauto using quiet_nothing.
  destruct (defined (JData result)); sim.
  - destruct (call_quiet' (_project this) (ProjectCall a) input result σ)
      as [added Hquiet].
    exists added. by destruct (call _ _ _ _ σ) as [[] ?].
  - destruct (call_quiet (_project this) (ProjectCall a) input
                (VObject (length (heap σ))) (heap σ ++ [Cartesian3 0 0 0]) σ)
      as [added Hquiet].
    exists added. by destruct (call _ _ _ _ _) as [[] ?].
Qed.

Lemma unproject_quiet a input result σ :
  ∃ added, quiet added σ (unproject a input result σ).2.
Proof.
  unfold unproject, adapter, Check_defined, new_Cartographic, allocate. unfold_monad.
  destruct (adapters σ !! a) as [this|]; sim; eauto using quiet_nothing.
  destruct (_ready this); sim; eauto using quiet_nothing.
  destruct (defined (JData input)); sim; eauto using quiet_nothing.
  destruct (defined (JData result)); sim.
  - destruct (call_quiet' (_unproject this) (UnprojectCall a) input result σ)
      as [added Hquiet].
    exists added. by destruct (call _ _ _ _ σ) as [[] ?].
  - destruct (call_quiet (_unproject this) (UnprojectCall a) input
                (VObject (length (heap σ))) (heap σ ++ [Cartographic 0 0 0]) σ)
      as [added Hquiet].
    exists added. by destruct (call _ _ _ _ _) as [[] ?].
Qed.

(** ** What project and unproject leave alone *)

Lemma quiet_promise_state added σ σ' p :
  quiet added σ σ' → promise_state σ' p = promise_state σ p.
Proof.
  intros [_ _ _ _ _ Hdeferreds Hchains _]. unfold promise_state.
  by rewrite Hdeferreds, Hchains.
Qed.

(** X1. A call of [project] or [unproject] (lines 149-190), whether it
    returns or throws, and whatever the stored functions do to the
    coordinate objects, leaves the adapters as they were, this one
    included: flags, stored pairs, urls, names.  It leaves the cache and
    the global slot as they were, and the state of every promise. *)
Theorem projection_calls_leave_the_loader_alone (σ : state) (a : loc)
    (input result : data) :
  let σ1 := (project a input result σ).2 in
  let σ2 := (unproject a input result σ).2 in
  (adapters σ1 = adapters σ ∧
   loadedProjectionFunctions σ1 = loadedProjectionFunctions σ ∧
   createProjectionFunctions σ1 = createProjectionFunctions σ ∧
   ∀ p, promise_state σ1 p = promise_state σ p) ∧
  (adapters σ2 = adapters σ ∧
   loadedProjectionFunctions σ2 = loadedProjectionFunctions σ ∧
   createProjectionFunctions σ2 = createProjectionFunctions σ ∧
   ∀ p, promise_state σ2 p = promise_state σ p).
Proof.
  intros σ1 σ2. subst σ1 σ2.
  destruct (project_quiet a input result σ) as [added1 Hquiet1].
  destruct (unproject_quiet a input result σ) as [added2 Hquiet2].
  split.
  - split; [apply Hquiet1 |]. split; [apply Hquiet1 |]. split; [apply Hquiet1 |].
    intros p. by apply (quiet_promise_state added1).
  - split; [apply Hquiet2 |]. split; [apply Hquiet2 |]. split; [apply Hquiet2 |].
    intros p. by apply (quiet_promise_state added2).
Qed.

(** ** Failures of the stored functions *)

(** X2. On a ready adapter, with a defined input: when the stored function
    throws, [project] (line 161) or [unproject] (line 188) throws the same
    exception, and what the function wrote to the coordinate objects
    before it threw stays written.  The call was logged and nothing else
    has changed; with no result supplied, the object made at line 158 or
    185 stays allocated, as the function left it. *)
Theorem stored_function_error_propagates (σ : state) (a : loc)
    (this : CustomProjection)
    (f g : data → data → list instance → completion unit * list instance)
    (input : data) (e : error) :
  adapters σ !! a = Some this →
  _ready this = true →
  _project this = JFunction f →
  _unproject this = JFunction g →
  defined (JData input) = true →
  let fresh := length (heap σ) in
  (∀ result h', defined (JData result) = true →
     f input result (heap σ) = (Throw e, h') →
     project a input result σ = (Throw e, called (ProjectCall a) h' σ)) ∧
  (∀ result h', defined (JData result) = true →
     g input result (heap σ) = (Throw e, h') →
     unproject a input result σ = (Throw e, called (UnprojectCall a) h' σ)) ∧
  (∀ h', f input (VObject fresh) (heap σ ++ [Cartesian3 0 0 0]) = (Throw e, h') →
     project a input VUndefined σ = (Throw e, called (ProjectCall a) h' σ)) ∧
  (∀ h', g input (VObject fresh) (heap σ ++ [Cartographic 0 0 0]) = (Throw e, h') →
     unproject a input VUndefined σ = (Throw e, called (UnprojectCall a) h' σ)).
Proof.
  intros Hthis Hready Hf Hg Hin fresh.
  destruct input; try discriminate Hin.
  all: repeat split.
  all: try (intros result h' Hres Hcall; destruct result; try discriminate Hres).
  all: try intros h' Hcall.
  all: unfold project, unproject, adapter, call, log, new_Cartesian3,
         new_Cartographic, allocate; unfold_monad.
  all: rewrite Hthis, Hready; simpl.
  all: rewrite ?Hf, ?Hg; simpl; fold fresh.
  all: by rewrite Hcall.
Qed.

(** ** A pair that is no pair of functions *)

(** X3. The completion callbacks store what they are given (lines 197-199
    and 220-222) and check nothing.  When a callback that was handed out
    is called with values that are plain data, [undefined] for one, its
    adapter is ready all the same and holds those values; [project] and
    [unproject] with a defined input then pass the readiness check and fail
    with the [TypeError] of calling what is no function, at every call. *)
Theorem unchecked_pair_fails_at_the_call (σ : state) (k : nat) (cb : closure)
    (this : CustomProjection) (v w : data) :
  callbacks σ !! k = Some cb →
  adapters σ !! closure_adapter cb = Some this →
  let a := closure_adapter cb in
  let σ' := (callback_fires k (JData v) (JData w) σ).2 in
  adapters σ' !! a = Some (wired (JData v) (JData w) this) ∧
  _ready (wired (JData v) (JData w) this) = true ∧
  ∀ input result,
    defined (JData input) = true → defined (JData result) = true →
    project a input result σ' = (Throw (TypeError "not a function"), σ') ∧
    unproject a input result σ' = (Throw (TypeError "not a function"), σ').
Proof.
  intros Hk Hthis a σ'. subst σ'.
  rewrite (callback_fires_known _ _ _ _ _ Hk). sim.
  assert (Hthis' : adapters (callback_state cb (JData v) (JData w) σ) !! a
                   = Some (wired (JData v) (JData w) this)).
  { rewrite callback_state_adapter. rewrite decide_True by done. subst a.
    by rewrite Hthis. }
  split; [done |]. split; [done |].
  intros input result Hin Hres.
  unfold project, unproject, adapter, Check_defined, call. unfold_monad.
  rewrite Hthis', Hin, Hres. by cbn.
Qed.

(** ** Where callbacks are handed out *)

Lemma unreached_lookup a σ :
  unreached a σ = true ↔
  ∀ k cb, callbacks σ !! k = Some cb → closure_adapter cb ≠ a.
Proof.
  unfold unreached. rewrite <- Is_true_true, forallb_True, Forall_lookup.
  split; intros Hall k cb Hk; specialize (Hall k cb Hk).
  - by apply bool_decide_unpack in Hall.
  - by apply bool_decide_pack.
Qed.

Lemma invoke_state_callbacks projectionName factory cb σ :
  callbacks (invoke_state projectionName factory cb σ) = callbacks σ ∨
  callbacks (invoke_state projectionName factory cb σ) = callbacks σ ++ [cb].
Proof.
  destruct factory as [v|f|calls throws]; [by left | by left |].
  right. unfold invoke_state. by rewrite (proj2 (calls_state_surroundings _ _ _)).
Qed.

Lemma unreached_invoke projectionName factory cb a σ :
  closure_adapter cb ≠ a → unreached a σ = true →
  unreached a (invoke_state projectionName factory cb σ) = true.
Proof.
  intros Hne Hσ. unfold unreached in *.
  destruct (invoke_state_callbacks projectionName factory cb σ) as [-> | ->];
    [done |].
  rewrite forallb_app, Hσ. simpl. by rewrite bool_decide_eq_true_2.
Qed.

(** ** Keeping the wiring, one change at a time *)

Lemma consistent_initial inherited slot worker base :
  consistent None (initial inherited slot worker base).
Proof. by split. Qed.

Lemma consistent_frame running σ σ' :
  consistent running σ →
  adapters σ' = adapters σ → deferreds σ' = deferreds σ →
  chains σ' = chains σ → callbacks σ' = callbacks σ →
  consistent running σ'.
Proof.
  intros [] Ha Hd Hc Hk. split; rewrite ?Ha, ?Hd, ?Hc, ?Hk; done.
Qed.

Lemma consistent_quiet running added σ σ' :
  consistent running σ → quiet added σ σ' → consistent running σ'.
Proof. intros Hcons []. by apply (consistent_frame running σ). Qed.

(** While the handler of a chain runs, less is asked of that chain. *)
Lemma consistent_running c σ : consistent None σ → consistent (Some c) σ.
Proof.
  intros [Hlen Hflag Hd Hc Hchains Hk]. split; try done.
  - intros c0 ch Hch. destruct (Hchains _ _ Hch) as (? & this & ? & ? & Hready).
    split; [done |]. exists this. repeat split; try done. auto.
  - intros k cb Hcb. destruct (Hk _ _ Hcb) as (? & this & ? & Hkind).
    split; [done |]. exists this. split; [done |].
    destruct cb; [done |].
    destruct Hkind as (c1 & ch & ? & ? & [?|?]); [| done].
    exists c1, ch. auto.
Qed.

Lemma consistent_allocated running this σ :
  consistent running σ →
  _ready this = false → _readyPromise this = None →
  consistent running (allocated this σ).
Proof.
  intros [Hlen Hflag Hd Hc Hchains Hk] Hready Hpromise.
  unfold allocated. split; sim.
  - rewrite !length_app. simpl. lia.
  - intros a this0 Hthis0.
    apply lookup_app_Some in Hthis0 as [Hold|[Hge Hnew]].
    + destruct (Hflag _ _ Hold) as [[Hpending ?]|(v & Hresolved & ?)].
      * left. split; [by apply lookup_app_l_Some | done].
      * right. exists v. split; [by apply lookup_app_l_Some | done].
    + apply list_lookup_singleton_Some in Hnew as [Hz <-].
      left. split; [| done].
      apply list_lookup_middle. lia.
  - intros a this0 d Hthis0 Hp.
    apply lookup_app_Some in Hthis0 as [Hold|[Hge Hnew]]; [eauto |].
    apply list_lookup_singleton_Some in Hnew as [_ <-]. congruence.
  - intros a this0 c Hthis0 Hp.
    apply lookup_app_Some in Hthis0 as [Hold|[Hge Hnew]]; [eauto |].
    apply list_lookup_singleton_Some in Hnew as [_ <-]. congruence.
  - intros c ch Hch. destruct (Hchains _ _ Hch) as (? & this0 & ? & ?).
    split; [done |]. exists this0. split; [by apply lookup_app_l_Some | done].
  - intros k cb Hcb. destruct (Hk _ _ Hcb) as (? & this0 & ? & ?).
    split; [done |]. exists this0. split; [by apply lookup_app_l_Some | done].
Qed.

(** Handing a callback to a factory. *)
Lemma consistent_handed running cb this σ :
  consistent running σ →
  closure_deferred cb = closure_adapter cb →
  adapters σ !! closure_adapter cb = Some this →
  match cb with
  | CachedCallback _ _ => ∀ c, _readyPromise this ≠ Some (OfChain c)
  | LoadedCallback _ _ =>
      ∃ c ch, _readyPromise this = Some (OfChain c) ∧
        chains σ !! c = Some ch ∧
        (terminal (ch_stage ch) = true ∨ running = Some c)
  end →
  consistent running (with_callbacks (λ l, l ++ [cb]) σ).
Proof.
  intros [Hlen Hflag Hd Hc Hchains Hk] Hcb Hthis Hkind. split; sim; try done.
  intros k cb0 Hcb0.
  apply lookup_app_Some in Hcb0 as [Hold|[_ Hnew]]; [eauto |].
  apply list_lookup_singleton_Some in Hnew as [_ <-]. eauto.
Qed.

(** A callback that was handed out runs. *)
Lemma consistent_callback running cb project unproject k σ :
  consistent running σ →
  callbacks σ !! k = Some cb →
  consistent running (callback_state cb project unproject σ).
Proof.
  intros [Hlen Hflag Hd Hc Hchains Hk] Hcb.
  destruct (Hk _ _ Hcb) as (Hcbd & this & Hthis & Hkind).
  set (a := closure_adapter cb) in *.
  set (g := λ x, set_ready true (set_functions project unproject x)).
  assert (Hlookup : ∀ a0, adapters (callback_state cb project unproject σ) !! a0
            = (if decide (a = a0) then g else id) <$> adapters σ !! a0).
  { intros a0. unfold callback_state. sim. fold a.
    destruct (decide (a = a0)) as [<-|Hne].
    - rewrite !list_lookup_alter_eq. by destruct (adapters σ !! a).
    - rewrite !list_lookup_alter_ne by done. by destruct (adapters σ !! a0). }
  assert (Hpromise : ∀ a0 this', adapters (callback_state cb project unproject σ) !! a0
            = Some this' →
            ∃ this0, adapters σ !! a0 = Some this0 ∧
              _readyPromise this' = _readyPromise this0 ∧
              (a ≠ a0 → this' = this0) ∧ (a = a0 → _ready this' = true)).
  { intros a0 this'. rewrite Hlookup. intros Hthis'.
    apply fmap_Some in Hthis' as (this0 & ? & ->).
    exists this0. split; [done |]. destruct (decide (a = a0)); by repeat split. }
  assert (Hexists : ∀ a0 this0, adapters σ !! a0 = Some this0 →
            ∃ this', adapters (callback_state cb project unproject σ) !! a0 = Some this' ∧
              _readyPromise this' = _readyPromise this0 ∧
              (a ≠ a0 → this' = this0)).
  { intros a0 this0 Hthis0. rewrite Hlookup, Hthis0. simpl.
    eexists. split; [done |]. destruct (decide (a = a0)); by split. }
  assert (Hdeferreds : ∀ d, deferreds (callback_state cb project unproject σ) !! d
            = (if decide (a = d) then settle (closure_resolution cb) else id)
                <$> deferreds σ !! d).
  { intros d. unfold callback_state. sim. rewrite Hcbd. fold a.
    destruct (decide (a = d)) as [<-|Hne].
    - by rewrite list_lookup_alter_eq.
    - rewrite list_lookup_alter_ne by done. by destruct (deferreds σ !! d). }
  split.
  - unfold callback_state. sim. by rewrite !length_alter.
  - intros a0 this' Hthis'.
    destruct (Hpromise _ _ Hthis') as (this0 & Hthis0 & Hp & Hsame & Hset).
    rewrite Hdeferreds, Hp.
    destruct (decide (a = a0)) as [<-|Hne].
    + right. rewrite Hthis in Hthis0. injection Hthis0 as <-.
      destruct (Hflag _ _ Hthis) as [[-> _]|(v & -> & _ & Hv)]; simpl.
      * exists (closure_resolution cb). repeat split; [by apply Hset |].
        intros Hnochain. destruct cb as [a' d'|a' d']; [done |].
        destruct Hkind as (c & _ & Hc' & _). by destruct (Hnochain c).
      * exists v. repeat split; [by apply Hset | done].
    + rewrite (Hsame Hne). destruct (deferreds σ !! a0) eqn:Hd0; simpl.
      * destruct (Hflag _ _ Hthis0) as [[? ?]|(v & ? & ?)]; simplify_eq; eauto.
      * destruct (Hflag _ _ Hthis0) as [[? ?]|(v & ? & ?)]; simplify_eq.
  - intros a0 this' d Hthis' Hp.
    destruct (Hpromise _ _ Hthis') as (this0 & Hthis0 & Hp0 & _).
    rewrite Hp0 in Hp. eauto.
  - intros a0 this' c Hthis' Hp.
    destruct (Hpromise _ _ Hthis') as (this0 & Hthis0 & Hp0 & _).
    rewrite Hp0 in Hp. apply (Hc _ _ _ Hthis0 Hp).
  - intros c ch Hch. change (chains σ !! c = Some ch) in Hch.
    destruct (Hchains _ _ Hch) as (? & this0 & Hthis0 & Hp0 & Hready).
    split; [done |].
    destruct (Hexists _ _ Hthis0) as (this' & Hthis' & Hp' & Hsame).
    exists this'. split; [done |]. split; [congruence |].
    intros Hopen Hrun.
    destruct (decide (a = ch_customProjection ch)) as [Heq|Hne].
    + exfalso. rewrite <- Heq, Hthis in Hthis0. injection Hthis0 as <-.
      destruct cb as [a' d'|a' d'].
      * by destruct (Hkind c).
      * destruct Hkind as (c1 & ch1 & Hp1 & Hch1 & Hstage).
        assert (c1 = c) as -> by congruence.
        rewrite Hch in Hch1. injection Hch1 as <-.
        destruct Hstage; congruence.
    + rewrite (Hsame Hne). auto.
  - intros k0 cb0 Hcb0. change (callbacks σ !! k0 = Some cb0) in Hcb0.
    destruct (Hk _ _ Hcb0) as (? & this0 & Hthis0 & Hkind0).
    split; [done |].
    destruct (Hexists _ _ Hthis0) as (this' & Hthis' & Hp' & _).
    exists this'. split; [done |]. by rewrite Hp'.
Qed.

Lemma consistent_calls running cb calls k σ :
  consistent running σ →
  callbacks σ !! k = Some cb →
  consistent running (calls_state cb calls σ).
Proof.
  intros Hcons Hcb.
  apply (calls_state_ind
           (λ σ', consistent running σ' ∧ callbacks σ' !! k = Some cb)); [done |].
  intros σ' project unproject [Hcons' Hcb']. split; [| done].
  by apply (consistent_callback _ _ _ _ k).
Qed.

(** Line 58 on a cache hit: the deferred becomes the readiness promise. *)
Lemma consistent_promise_deferred running a this σ :
  consistent running σ →
  adapters σ !! a = Some this → _readyPromise this = None →
  consistent running
    (with_adapters (alter (set_readyPromise (OfDeferred a)) a) σ).
Proof.
  intros [Hlen Hflag Hd Hc Hchains Hk] Hthis Hnone.
  assert (Hlookup : ∀ a0 this', alter (set_readyPromise (OfDeferred a)) a (adapters σ) !! a0
            = Some this' →
            (a0 = a ∧ this' = set_readyPromise (OfDeferred a) this) ∨
            (a0 ≠ a ∧ adapters σ !! a0 = Some this')).
  { intros a0 this'. destruct (decide (a = a0)) as [<-|Hne].
    - rewrite list_lookup_alter_eq, Hthis. intros [= <-]. by left.
    - rewrite list_lookup_alter_ne by done. by right. }
  assert (Hother : ∀ a0 this0, adapters σ !! a0 = Some this0 →
            is_Some (_readyPromise this0) →
            alter (set_readyPromise (OfDeferred a)) a (adapters σ) !! a0 = Some this0).
  { intros a0 this0 Hthis0 Hsome. rewrite list_lookup_alter_ne; [done |].
    intros <-. rewrite Hthis in Hthis0. injection Hthis0 as <-.
    rewrite Hnone in Hsome. by destruct Hsome. }
  split; sim.
  - by rewrite length_alter.
  - intros a0 this' Hthis'.
    destruct (Hlookup _ _ Hthis') as [[-> ->]|[_ Hold]]; [| eauto].
    destruct (Hflag _ _ Hthis) as [?|(v & ? & ? & Hv)]; [by left |].
    right. exists v. repeat split; try done.
    intros _. apply Hv. intros c. by rewrite Hnone.
  - intros a0 this' d Hthis' Hp.
    destruct (Hlookup _ _ Hthis') as [[-> ->]|[_ Hold]]; [| eauto].
    simpl in Hp. congruence.
  - intros a0 this' c Hthis' Hp.
    destruct (Hlookup _ _ Hthis') as [[-> ->]|[_ Hold]]; [done | eauto].
  - intros c ch Hch. destruct (Hchains _ _ Hch) as (? & this0 & Hthis0 & Hp0 & ?).
    split; [done |]. exists this0. split; [| done].
    apply Hother; [done |]. by rewrite Hp0.
  - intros k cb Hcb. destruct (Hk _ _ Hcb) as (? & this0 & Hthis0 & Hkind).
    split; [done |].
    destruct (decide (closure_adapter cb = a)) as [Heq|Hne].
    + rewrite Heq in *. rewrite Hthis in Hthis0. injection Hthis0 as <-.
      exists (set_readyPromise (OfDeferred a) this).
      split; [by rewrite list_lookup_alter_eq, Hthis |].
      destruct cb; [done |].
      destruct Hkind as (c & ch & Hp & _). congruence.
    + exists this0. split; [| done]. by rewrite list_lookup_alter_ne.
Qed.

(** Lines 215-232 and line 58 on a cache miss: the chain is set up and
    becomes the readiness promise. *)
Lemma consistent_promise_chain running a this name s σ :
  consistent running σ →
  adapters σ !! a = Some this →
  _readyPromise this = None → _ready this = false →
  (∀ k cb, callbacks σ !! k = Some cb → closure_adapter cb ≠ a) →
  consistent running
    (with_adapters (alter (set_readyPromise (OfChain (length (chains σ)))) a)
       (with_chains (λ l, l ++ [{| ch_customProjection := a;
                                   ch_projectionName := name;
                                   ch_deferred := a;
                                   ch_stage := s |}]) σ)).
Proof.
  intros [Hlen Hflag Hd Hc Hchains Hk] Hthis Hnone Hready Hfresh.
  set (c := length (chains σ)).
  assert (Hlookup : ∀ a0 this', alter (set_readyPromise (OfChain c)) a (adapters σ) !! a0
            = Some this' →
            (a0 = a ∧ this' = set_readyPromise (OfChain c) this) ∨
            (a0 ≠ a ∧ adapters σ !! a0 = Some this')).
  { intros a0 this'. destruct (decide (a = a0)) as [<-|Hne].
    - rewrite list_lookup_alter_eq, Hthis. intros [= <-]. by left.
    - rewrite list_lookup_alter_ne by done. by right. }
  assert (Hother : ∀ a0 this0, adapters σ !! a0 = Some this0 →
            is_Some (_readyPromise this0) →
            alter (set_readyPromise (OfChain c)) a (adapters σ) !! a0 = Some this0).
  { intros a0 this0 Hthis0 Hsome. rewrite list_lookup_alter_ne; [done |].
    intros <-. rewrite Hthis in Hthis0. injection Hthis0 as <-.
    rewrite Hnone in Hsome. by destruct Hsome. }
  split; sim.
  - by rewrite length_alter.
  - intros a0 this' Hthis'.
    destruct (Hlookup _ _ Hthis') as [[-> ->]|[_ Hold]]; [| eauto].
    destruct (Hflag _ _ Hthis) as [?|(v & ? & ? & Hv)]; [by left | congruence].
  - intros a0 this' d Hthis' Hp.
    destruct (Hlookup _ _ Hthis') as [[-> ->]|[_ Hold]]; [done | eauto].
  - intros a0 this' c0 Hthis' Hp.
    destruct (Hlookup _ _ Hthis') as [[-> ->]|[_ Hold]].
    + simpl in Hp. injection Hp as <-.
      eexists. split; [by apply list_lookup_middle | done].
    + destruct (Hc _ _ _ Hold Hp) as (ch & ? & ?).
      exists ch. split; [by apply lookup_app_l_Some | done].
  - intros c0 ch Hch.
    apply lookup_app_Some in Hch as [Hold|[Hge Hnew]].
    + destruct (Hchains _ _ Hold) as (? & this0 & Hthis0 & Hp0 & ?).
      split; [done |]. exists this0. split; [| done].
      apply Hother; [done |]. by rewrite Hp0.
    + apply list_lookup_singleton_Some in Hnew as [Hz <-]. simpl.
      split; [done |]. exists (set_readyPromise (OfChain c) this).
      split; [by rewrite list_lookup_alter_eq, Hthis |].
      split; [| done]. simpl. f_equal. f_equal. unfold c. lia.
  - intros k cb Hcb. destruct (Hk _ _ Hcb) as (? & this0 & Hthis0 & Hkind).
    split; [done |]. exists this0.
    split; [rewrite list_lookup_alter_ne; [done |]; intros Heq;
            by apply (Hfresh _ _ Hcb) |].
    destruct cb; [done |].
    destruct Hkind as (c1 & ch & ? & ? & ?).
    exists c1, ch. repeat split; try done. by apply lookup_app_l_Some.
Qed.

(** A chain that had not come to an end moves on. *)
Lemma consistent_set_stage running c ch s σ :
  consistent running σ →
  chains σ !! c = Some ch → terminal (ch_stage ch) = false →
  consistent running (with_chains (alter (set_stage s) c) σ).
Proof.
  intros [Hlen Hflag Hd Hc Hchains Hk] Hch Hopen.
  assert (Hlookup : ∀ c0 ch', alter (set_stage s) c (chains σ) !! c0 = Some ch' →
            ∃ ch0, chains σ !! c0 = Some ch0 ∧
              ch_customProjection ch' = ch_customProjection ch0 ∧
              ch_deferred ch' = ch_deferred ch0 ∧
              (terminal (ch_stage ch') = false → terminal (ch_stage ch0) = false)).
  { intros c0 ch'. destruct (decide (c = c0)) as [<-|Hne].
    - rewrite list_lookup_alter_eq, Hch. intros [= <-]. by exists ch.
    - rewrite list_lookup_alter_ne by done. intros ?. by exists ch'. }
  assert (Hexists : ∀ c0 ch0, chains σ !! c0 = Some ch0 →
            ∃ ch', alter (set_stage s) c (chains σ) !! c0 = Some ch' ∧
              ch_customProjection ch' = ch_customProjection ch0 ∧
              (terminal (ch_stage ch0) = true → terminal (ch_stage ch') = true)).
  { intros c0 ch0 Hch0. destruct (decide (c = c0)) as [<-|Hne].
    - rewrite list_lookup_alter_eq, Hch0. eexists. split; [done |].
      split; [done |]. rewrite Hch in Hch0. injection Hch0 as <-. congruence.
    - rewrite list_lookup_alter_ne by done. by exists ch0. }
  split; sim; try done.
  - intros a this c0 Hthis Hp. destruct (Hc _ _ _ Hthis Hp) as (ch0 & Hch0 & ?).
    destruct (Hexists _ _ Hch0) as (ch' & ? & ? & _).
    exists ch'. split; [done | congruence].
  - intros c0 ch' Hch'.
    destruct (Hlookup _ _ Hch') as (ch0 & Hch0 & Ha & Hd' & Hterm).
    destruct (Hchains _ _ Hch0) as (? & this & ? & ? & Hready).
    split; [congruence |]. exists this. rewrite Ha. repeat split; try done. auto.
  - intros k cb Hcb. destruct (Hk _ _ Hcb) as (? & this & ? & Hkind).
    split; [done |]. exists this. split; [done |].
    destruct cb; [done |].
    destruct Hkind as (c1 & ch1 & ? & Hch1 & Hstage).
    destruct (Hexists _ _ Hch1) as (ch' & ? & _ & Hterm).
    exists c1, ch'. repeat split; try done. destruct Hstage; auto.
Qed.

(** The handler of a chain is over and the chain has come to an end. *)
Lemma consistent_finished c ch s σ :
  consistent (Some c) σ →
  chains σ !! c = Some ch → terminal s = true →
  consistent None (with_chains (alter (set_stage s) c) σ).
Proof.
  intros [Hlen Hflag Hd Hc Hchains Hk] Hch Hs.
  split; sim; try done.
  - intros a this c0 Hthis Hp. destruct (Hc _ _ _ Hthis Hp) as (ch0 & Hch0 & ?).
    destruct (decide (c = c0)) as [<-|Hne].
    + rewrite list_lookup_alter_eq, Hch0. by eexists.
    + rewrite list_lookup_alter_ne by done. by exists ch0.
  - intros c0 ch'. destruct (decide (c = c0)) as [<-|Hne].
    + rewrite list_lookup_alter_eq, Hch. intros [= <-]. simpl.
      destruct (Hchains _ _ Hch) as (? & this & ? & ? & _).
      split; [done |]. exists this. repeat split; try done. congruence.
    + rewrite list_lookup_alter_ne by done. intros Hch'.
      destruct (Hchains _ _ Hch') as (? & this & ? & ? & Hready).
      split; [done |]. exists this. repeat split; try done.
      intros Hopen _. apply Hready; [done | congruence].
  - intros k cb Hcb. destruct (Hk _ _ Hcb) as (? & this & ? & Hkind).
    split; [done |]. exists this. split; [done |].
    destruct cb; [done |].
    destruct Hkind as (c1 & ch1 & ? & Hch1 & Hstage).
    destruct (decide (c = c1)) as [<-|Hne].
    + eexists c, _. rewrite list_lookup_alter_eq, Hch. repeat split; try done.
      by left.
    + exists c1, ch1. rewrite list_lookup_alter_ne by done. repeat split; try done.
      destruct Hstage as [?|?]; [by left | congruence].
Qed.

(** A factory call leaves every readiness promise as it was. *)
Lemma invoke_state_promise projectionName factory cb σ a :
  _readyPromise <$> adapters (invoke_state projectionName factory cb σ) !! a
  = _readyPromise <$> adapters σ !! a.
Proof.
  destruct factory as [d|f|calls throws]; simpl; try done.
  apply (calls_state_ind
           (λ σ', _readyPromise <$> adapters σ' !! a = _readyPromise <$> adapters σ !! a));
    [done |].
  intros σ' project unproject <-. unfold callback_state. sim.
  destruct (decide (closure_adapter cb = a)) as [->|Hne].
  - rewrite !list_lookup_alter_eq. by destruct (adapters σ' !! a).
  - by rewrite !list_lookup_alter_ne.
Qed.

Lemma consistent_invoke running projectionName factory cb this σ :
  consistent running σ →
  closure_deferred cb = closure_adapter cb →
  adapters σ !! closure_adapter cb = Some this →
  match cb with
  | CachedCallback _ _ => ∀ c, _readyPromise this ≠ Some (OfChain c)
  | LoadedCallback _ _ =>
      ∃ c ch, _readyPromise this = Some (OfChain c) ∧
        chains σ !! c = Some ch ∧
        (terminal (ch_stage ch) = true ∨ running = Some c)
  end →
  consistent running (invoke_state projectionName factory cb σ).
Proof.
  intros Hcons Hcb Hthis Hkind.
  destruct factory as [d|f|calls throws]; simpl; try done.
  apply (consistent_calls _ _ _ (length (callbacks σ))).
  - apply (consistent_handed _ _ this); try done.
    by apply (consistent_frame running σ).
  - sim. by apply list_lookup_middle.
Qed.

Section Theory.

Variable getAbsoluteUri : string → string → string.
Variable typeOf_string : data → bool.

(** ** The constructor, path by path *)

Lemma Check_typeOf_string_valid name v σ :
  typeOf_string v = true →
  Check_typeOf_string typeOf_string name v σ = (Normal tt, σ).
Proof. intros Hv. unfold Check_typeOf_string. by rewrite Hv. Qed.

Lemma Check_typeOf_string_invalid name v σ :
  typeOf_string v = false →
  ∃ message,
    Check_typeOf_string typeOf_string name v σ = (Throw (DeveloperError message), σ).
Proof. intros Hv. unfold Check_typeOf_string. rewrite Hv. by eexists. Qed.

Section Paths.

Variables (url projectionName : data) (ellipsoid : option Ellipsoid).
Variable imported : script.
Variable σ : state.

Let this : CustomProjection :=
  fields getAbsoluteUri url projectionName ellipsoid (baseUri σ).
Let a : loc := length (adapters σ).
Let d : nat := length (deferreds σ).
Let c : nat := length (chains σ).
Let cached : jsval := property (loadedProjectionFunctions σ) (text projectionName).
Let following (s : stage) : chain :=
  {| ch_customProjection := a; ch_projectionName := text projectionName;
     ch_deferred := d; ch_stage := s |}.

Lemma new_invalid :
  typeOf_string url && typeOf_string projectionName = false →
  ∃ message,
    new_CustomProjection getAbsoluteUri typeOf_string url projectionName ellipsoid imported σ
    = (Throw (DeveloperError message), σ).
Proof.
  intros Hinvalid. unfold new_CustomProjection. unfold_monad.
  destruct (typeOf_string url) eqn:Hurl.
  - rewrite (Check_typeOf_string_valid _ _ _ Hurl).
    destruct (Check_typeOf_string_invalid "projectionName" projectionName σ Hinvalid)
      as [message ->].
    by exists message.
  - destruct (Check_typeOf_string_invalid "url" url σ Hurl) as [message ->].
    by exists message.
Qed.

(** Cache hit, lines 195-204. *)
Lemma new_cached :
  typeOf_string url = true → typeOf_string projectionName = true →
  defined cached = true →
  new_CustomProjection getAbsoluteUri typeOf_string url projectionName ellipsoid imported σ
  = match invoke_result cached with
    | Normal _ =>
        (Normal a,
         with_adapters (alter (set_readyPromise (OfDeferred d)) a)
           (invoke_state (text projectionName) cached (CachedCallback a d)
              (allocated this σ)))
    | Throw e =>
        (Throw e,
         invoke_state (text projectionName) cached (CachedCallback a d)
           (allocated this σ))
    end.
Proof.
  intros Hurl Hname Hcached.
  unfold new_CustomProjection, buildCustomProjection, when_defer, assign.
  unfold_monad.
  rewrite (Check_typeOf_string_valid _ _ _ Hurl).
  rewrite (Check_typeOf_string_valid _ _ _ Hname). sim.
  fold cached. rewrite Hcached, invoke_eq.
  by destruct (invoke_result cached).
Qed.

(** Cache miss in a page, lines 210-232. *)
Lemma new_fetching :
  typeOf_string url = true → typeOf_string projectionName = true →
  defined cached = false → inWorker σ = false →
  new_CustomProjection getAbsoluteUri typeOf_string url projectionName ellipsoid imported σ
  = (Normal a,
     with_adapters (alter (set_readyPromise (OfChain c)) a)
       (with_chains (λ l, l ++ [following Fetching])
          (with_effects (λ l, l ++ [FetchJsonp (_url this)])
             (allocated this σ)))).
Proof.
  intros Hurl Hname Hcached Hworker.
  unfold new_CustomProjection, buildCustomProjection, when_defer, assign,
    Resource_fetchJsonp, log.
  unfold_monad.
  rewrite (Check_typeOf_string_valid _ _ _ Hurl).
  rewrite (Check_typeOf_string_valid _ _ _ Hname). sim.
  fold cached. rewrite Hcached. sim. rewrite Hworker, then_chain_eq. sim.
  rewrite fetch_then_idle; [done |].
  sim. by rewrite list_lookup_middle.
Qed.

(** Cache miss in a worker whose import fails, line 207. *)
Lemma new_import_fails e :
  typeOf_string url = true → typeOf_string projectionName = true →
  defined cached = false → inWorker σ = true →
  imported = ScriptFails e →
  new_CustomProjection getAbsoluteUri typeOf_string url projectionName ellipsoid imported σ
  = (Throw e,
     with_effects (λ l, l ++ [ImportScripts (_url this)]) (allocated this σ)).
Proof.
  intros Hurl Hname Hcached Hworker ->.
  unfold new_CustomProjection, buildCustomProjection, when_defer, assign,
    importScripts, log.
  unfold_monad.
  rewrite (Check_typeOf_string_valid _ _ _ Hurl).
  rewrite (Check_typeOf_string_valid _ _ _ Hname). sim.
  fold cached. rewrite Hcached. sim. by rewrite Hworker.
Qed.

(** Cache miss in a worker, lines 207-232: the file runs, and the handler
    runs inside [then]. *)
Lemma new_imported registers :
  typeOf_string url = true → typeOf_string projectionName = true →
  defined cached = false → inWorker σ = true →
  imported = ScriptRuns registers →
  new_CustomProjection getAbsoluteUri typeOf_string url projectionName ellipsoid imported σ
  = (Normal a, (fetch_then c (importing this registers σ)).2).
Proof.
  intros Hurl Hname Hcached Hworker ->.
  unfold new_CustomProjection, buildCustomProjection, when_defer, assign,
    importScripts, log.
  unfold_monad.
  rewrite (Check_typeOf_string_valid _ _ _ Hurl).
  rewrite (Check_typeOf_string_valid _ _ _ Hname). sim.
  fold cached. rewrite Hcached. sim. rewrite Hworker, execute_runs, then_chain_eq.
  unfold importing. rewrite fetch_then_readyPromise.
  by destruct registers.
Qed.

End Paths.

(** ** Cache hits *)

(** C2. When the cache holds a defined entry under the projection name,
    constructing an adapter with that name loads nothing: the effects of
    the construction contain neither [Resource.fetchJsonp] nor
    [importScripts], and no promise chain on a fetch is set up.  With
    arguments that pass validation and a factory in the cache, the first
    effect is the call of the cached factory, followed only by the
    callback calls the factory makes. *)
Theorem cached_name_loads_nothing (σ : state) (url : data) (name : string)
    (ellipsoid : option Ellipsoid) (imported : script) :
  defined (property (loadedProjectionFunctions σ) name) = true →
  let σ' :=
    (new_CustomProjection getAbsoluteUri typeOf_string url (VString name) ellipsoid imported σ).2 in
  ∃ added,
    effects σ' = effects σ ++ added ∧
    Forall (λ e, is_load e = false) added ∧
    chains σ' = chains σ ∧
    ∀ calls throws,
      property (loadedProjectionFunctions σ) name = JFactory calls throws →
      typeOf_string url = true → typeOf_string (VString name) = true →
      added = FactoryCall name
                :: replicate (length calls) (CallbackRun (length (adapters σ))).
Proof.
  intros Hcached σ'. subst σ'.
  destruct (typeOf_string url && typeOf_string (VString name)) eqn:Hvalid.
  - apply andb_true_iff in Hvalid as [Hurl Hname].
    rewrite (new_cached url (VString name) ellipsoid imported σ
               Hurl Hname Hcached).
    cbn [text].
    set (cb := CachedCallback (length (adapters σ)) (length (deferreds σ))).
    set (this := fields getAbsoluteUri url (VString name) ellipsoid (baseUri σ)).
    exists (invoke_effects name (property (loadedProjectionFunctions σ) name) cb).
    assert (Heffects :
      effects (invoke_state name (property (loadedProjectionFunctions σ) name) cb
                 (allocated this σ))
      = effects σ ++ invoke_effects name (property (loadedProjectionFunctions σ) name) cb)
      by exact (invoke_state_effects name _ cb (allocated this σ)).
    assert (Hchains :
      chains (invoke_state name (property (loadedProjectionFunctions σ) name) cb
                (allocated this σ)) = chains σ)
      by exact (same_chains _ _ (invoke_state_surroundings name _ cb (allocated this σ))).
    split; [| split; [apply invoke_effects_no_load | split]].
    + by destruct (invoke_result _).
    + by destruct (invoke_result _).
    + intros calls throws -> _ _. done.
  - destruct (new_invalid url (VString name) ellipsoid imported σ Hvalid)
      as [message ->].
    exists []. rewrite app_nil_r. repeat split; [constructor |].
    intros calls throws _ Hurl Hname. by rewrite Hurl, Hname in Hvalid.
Qed.

(** ** Every event makes the state evolve *)

Lemma evolves_fetch_settles c fetched σ :
  ∃ added, evolves added σ (fetch_settles c fetched σ).2.
Proof.
  destruct (chains σ !! c) as [ch|] eqn:Hch;
    [destruct (ch_stage ch) eqn:Hstage |].
  2-5: rewrite fetch_settles_idle; [exists []; apply evolves_refl |];
       rewrite Hch; simpl; congruence.
  assert (Hopen : ∀ ch, chains σ !! c = Some ch → terminal (ch_stage ch) = false).
  { intros ch' Hch'. rewrite Hch in Hch'. injection Hch' as <-. by rewrite Hstage. }
  destruct fetched as [e|registers].
  - rewrite (fetch_settles_fails _ _ _ _ Hch Hstage). eexists. sim.
    apply evolves_set_stage; [apply evolves_refl | done].
  - rewrite (fetch_settles_runs _ _ _ _ Hch Hstage). eexists. sim.
    apply evolves_set_stage; [| done].
    apply evolves_registered, evolves_refl.
Qed.

Lemma evolves_fetch_then c σ :
  ∃ added, evolves added σ (fetch_then c σ).2.
Proof.
  destruct (chains σ !! c) as [ch|] eqn:Hch;
    [destruct (ch_stage ch) eqn:Hstage |].
  1,3-5: rewrite fetch_then_idle; [exists []; apply evolves_refl |];
         rewrite Hch; simpl; congruence.
  assert (Hopen : ∀ ch, chains σ !! c = Some ch → terminal (ch_stage ch) = false).
  { intros ch' Hch'. rewrite Hch in Hch'. injection Hch' as <-. by rewrite Hstage. }
  destruct (createProjectionFunctions σ) as [f|] eqn:Hslot.
  - rewrite (fetch_then_registered _ _ _ _ Hch Hstage Hslot). eexists. sim.
    apply evolves_set_stage; [| done].
    apply evolves_invoke, evolves_log, evolves_cache, evolves_refl.
  - rewrite (fetch_then_unregistered _ _ _ Hch Hstage Hslot). eexists. sim.
    apply evolves_set_stage; [apply evolves_refl | done].
Qed.

Lemma evolves_importing this registers σ :
  _ready this = false →
  evolves [ImportScripts (_url this)] σ (importing this registers σ).
Proof.
  intros Hready. unfold importing. apply evolves_set_readyPromise; [| done].
  apply evolves_then_chain, evolves_registered.
  apply (evolves_log [] σ), evolves_allocated; [apply evolves_refl | done].
Qed.

Lemma evolves_new url projectionName ellipsoid imported σ :
  ∃ added, evolves added σ
    (new_CustomProjection getAbsoluteUri typeOf_string url projectionName ellipsoid imported σ).2.
Proof.
  set (this := fields getAbsoluteUri url projectionName ellipsoid (baseUri σ)).
  assert (Hallocated : evolves [] σ (allocated this σ))
    by (by apply evolves_allocated; [apply evolves_refl |]).
  destruct (typeOf_string url && typeOf_string projectionName) eqn:Hvalid.
  - apply andb_true_iff in Hvalid as [Hurl Hname].
    destruct (defined (property (loadedProjectionFunctions σ) (text projectionName)))
      eqn:Hcached.
    + rewrite (new_cached _ _ _ _ _ Hurl Hname Hcached).
      eexists. destruct (invoke_result _); sim.
      * apply evolves_set_readyPromise; [| done].
        apply evolves_invoke, Hallocated.
      * apply evolves_invoke, Hallocated.
    + destruct (inWorker σ) eqn:Hworker.
      * destruct imported as [e|registers].
        -- rewrite (new_import_fails _ _ _ _ _ e Hurl Hname Hcached Hworker eq_refl).
           eexists. sim. apply evolves_log, Hallocated.
        -- rewrite (new_imported _ _ _ _ _ registers Hurl Hname Hcached Hworker
                      eq_refl).
           sim. fold this.
           destruct (evolves_fetch_then (length (chains σ)) (importing this registers σ))
             as [added Hthen].
           exists ([ImportScripts (_url this)] ++ added).
           by apply (evolves_trans _ _ _ (importing this registers σ));
             [apply evolves_importing |].
      * rewrite (new_fetching _ _ _ _ _ Hurl Hname Hcached Hworker).
        eexists. sim. apply evolves_set_readyPromise; [| done].
        apply evolves_then_chain, evolves_log, Hallocated.
  - destruct (new_invalid url projectionName ellipsoid imported σ Hvalid)
      as [message ->].
    exists []. apply evolves_refl.
Qed.

Lemma evolves_callback_fires k project unproject σ :
  ∃ added, evolves added σ (callback_fires k project unproject σ).2.
Proof.
  destruct (callbacks σ !! k) as [cb|] eqn:Hk.
  - rewrite (callback_fires_known _ _ _ _ _ Hk). eexists. sim.
    apply evolves_callback, evolves_refl.
  - rewrite (callback_fires_unknown _ _ _ _ Hk). exists []. apply evolves_refl.
Qed.

Lemma evolves_after e σ :
  ∃ added, evolves added σ (after getAbsoluteUri typeOf_string e σ).
Proof.
  unfold after, step. unfold mbind, mret, M_bind, M_ret.
  destruct e as [url projectionName ellipsoid imported|c fetched|c|k project unproject
                |a input result|a input result|o|base];
    rewrite ?snd_then_ret.
  - apply evolves_new.
  - apply evolves_fetch_settles.
  - apply evolves_fetch_then.
  - apply evolves_callback_fires.
  - destruct (project_quiet a input result σ) as [added Hquiet].
    exists added. by apply quiet_evolves.
  - destruct (unproject_quiet a input result σ) as [added Hquiet].
    exists added. by apply quiet_evolves.
  - exists []. apply quiet_evolves, quiet_heap.
  - exists []. apply quiet_evolves. split; sim; try done. by rewrite app_nil_r.
Qed.

Lemma evolves_run events σ :
  ∃ added, evolves added σ (run getAbsoluteUri typeOf_string events σ).
Proof.
  revert σ. induction events as [|e events IH]; intros σ.
  - exists []. apply evolves_refl.
  - simpl. destruct (evolves_after e σ) as [l1 H1].
    destruct (IH (after getAbsoluteUri typeOf_string e σ)) as [l2 H2].
    exists (l1 ++ l2). by apply (evolves_trans _ _ _ (after getAbsoluteUri typeOf_string e σ)).
Qed.

Lemma evolves_added_by events σ :
  evolves (added_by getAbsoluteUri typeOf_string events σ) σ
    (run getAbsoluteUri typeOf_string events σ).
Proof.
  destruct (evolves_run events σ) as [added Hev].
  unfold added_by. by rewrite (ev_effects _ _ _ Hev), drop_app_length.
Qed.

(** ** The adapter a construction returns *)

Lemma lookup_allocated this σ :
  adapters (allocated this σ) !! length (adapters σ) = Some this.
Proof. unfold allocated. sim. by apply list_lookup_middle. Qed.

Lemma lookup_importing this registers σ :
  adapters (importing this registers σ) !! length (adapters σ)
  = Some (set_readyPromise (OfChain (length (chains σ))) this).
Proof.
  unfold importing. sim. rewrite list_lookup_alter_eq.
  replace (adapters (registered registers _)) with (adapters (allocated this σ))
    by by destruct registers.
  by rewrite lookup_allocated.
Qed.

(** A construction that returns hands out the adapter it appended; its
    fixed fields are those of lines 47-57, and line 58 has assigned its
    readiness promise. *)
Lemma new_returns url projectionName ellipsoid imported σ a σ' :
  new_CustomProjection getAbsoluteUri typeOf_string url projectionName ellipsoid imported σ
  = (Normal a, σ') →
  a = length (adapters σ) ∧
  ∃ this', adapters σ' !! a = Some this' ∧
    _url this' = getAbsoluteUri (text url) (baseUri σ) ∧
    _projectionName this' = text projectionName ∧
    _ellipsoid this' = defaultValue ellipsoid WGS84 ∧
    is_Some (_readyPromise this').
Proof.
  destruct (typeOf_string url && typeOf_string projectionName) eqn:Hvalid.
  - apply andb_true_iff in Hvalid as [Hurl Hname].
    destruct (defined (property (loadedProjectionFunctions σ) (text projectionName)))
      eqn:Hcached.
    + rewrite (new_cached _ _ _ _ _ Hurl Hname Hcached).
      destruct (invoke_result _); [| done].
      intros [= <- <-]. split; [done |]. sim.
      set (this := fields getAbsoluteUri url projectionName ellipsoid (baseUri σ)).
      rewrite list_lookup_alter_eq.
      destruct (ev_adapters _ _ _
        (evolves_invoke [] _ _ (text projectionName)
           (property (loadedProjectionFunctions σ) (text projectionName))
           (CachedCallback (length (adapters σ)) (length (deferreds σ)))
           (evolves_refl (allocated this σ)))
        _ _ (lookup_allocated this σ)) as (this' & -> & Hurl' & Hname' & Hell & _).
      eexists. split; [done |]. by repeat split.
    + destruct (inWorker σ) eqn:Hworker.
      * destruct imported as [e|registers].
        -- by rewrite (new_import_fails _ _ _ _ _ e Hurl Hname Hcached Hworker eq_refl).
        -- rewrite (new_imported _ _ _ _ _ registers Hurl Hname Hcached Hworker
                      eq_refl).
           intros [= <- <-]. split; [done |].
           set (this := fields getAbsoluteUri url projectionName ellipsoid (baseUri σ)).
           destruct (evolves_fetch_then (length (chains σ)) (importing this registers σ))
             as [added Hthen].
           destruct (ev_adapters _ _ _ Hthen _ _ (lookup_importing this registers σ))
             as (this' & -> & Hurl' & Hname' & Hell & _ & Hp).
           eexists. split; [done |]. rewrite Hurl', Hname', Hell.
           repeat split. rewrite (Hp _ eq_refl). by eexists.
      * rewrite (new_fetching _ _ _ _ _ Hurl Hname Hcached Hworker).
        intros [= <- <-]. split; [done |]. sim.
      set (this := fields getAbsoluteUri url projectionName ellipsoid (baseUri σ)).
        rewrite list_lookup_alter_eq, lookup_allocated.
        eexists. split; [done |]. by repeat split.
  - destruct (new_invalid url projectionName ellipsoid imported σ Hvalid)
      as [message ->].
    done.
Qed.

(** ** The flag *)

(** C8. The flag is false in the adapter the constructor makes (line 57);
    in the state a construction leaves, the new adapter is ready only if
    its completion callback has already run during the construction; and
    a flag that is true stays true through every run of events:
    construction of further adapters, fetches settling, handlers running,
    callbacks firing any number of times, [project] and [unproject]
    calls. *)
Theorem ready_flag_is_monotonic :
  (∀ url projectionName ellipsoid base,
     _ready (fields getAbsoluteUri url projectionName ellipsoid base) = false) ∧
  (∀ σ url projectionName ellipsoid imported this',
     adapters (new_CustomProjection getAbsoluteUri typeOf_string url projectionName
                 ellipsoid imported σ).2 !! length (adapters σ) = Some this' →
     _ready this' = true →
     CallbackRun (length (adapters σ))
       ∈ added_by getAbsoluteUri typeOf_string
           [ENew url projectionName ellipsoid imported] σ) ∧
  (∀ events σ a this,
     adapters σ !! a = Some this → _ready this = true →
     ∃ this', adapters (run getAbsoluteUri typeOf_string events σ) !! a = Some this' ∧
              _ready this' = true).
Proof.
  split; [done |]. split.
  - intros σ url projectionName ellipsoid imported this' Hthis' Hready.
    pose proof (evolves_added_by [ENew url projectionName ellipsoid imported] σ) as Hev.
    assert (Hrun : run getAbsoluteUri typeOf_string
                     [ENew url projectionName ellipsoid imported] σ
                   = (new_CustomProjection getAbsoluteUri typeOf_string url
                        projectionName ellipsoid imported σ).2).
    { simpl. unfold after, step. unfold mbind, mret, M_bind, M_ret.
      by rewrite snd_then_ret. }
    rewrite Hrun in Hev.
    destruct (ev_cause _ _ _ Hev _ _ Hthis' Hready) as [(this & Hthis & _)|Hin];
      [| done].
    apply lookup_lt_Some in Hthis. lia.
  - intros events σ a this Hthis Hready.
    destruct (evolves_run events σ) as [added Hev].
    destruct (ev_adapters _ _ _ Hev _ _ Hthis)
      as (this' & Hthis' & _ & _ & _ & Hkeep & _).
    eauto.
Qed.

(** ** The accessors *)

(** C9. [isEquatorialCylindrical] is false for every adapter.  The [url]
    accessor of a constructed adapter gives [getAbsoluteUri] of the url
    supplied, resolved against the base of the moment of construction;
    it gives the same through every later run of events, changes of the
    base included. *)
Theorem url_is_absolute_and_fixed :
  (∀ this, isEquatorialCylindrical this = false) ∧
  (∀ σ u n ellipsoid imported a σ' events,
     new_CustomProjection getAbsoluteUri typeOf_string (VString u) (VString n) ellipsoid imported σ
     = (Normal a, σ') →
     url <$> adapters (run getAbsoluteUri typeOf_string events σ') !! a
     = Some (getAbsoluteUri u (baseUri σ))).
Proof.
  split; [done |].
  intros σ u n ellipsoid imported a σ' events Hnew.
  destruct (new_returns _ _ _ _ _ _ _ Hnew) as (_ & this & Hthis & Hurl & _).
  destruct (evolves_run events σ') as [added Hev].
  destruct (ev_adapters _ _ _ Hev _ _ Hthis) as (this' & -> & Hurl' & _).
  simpl. unfold url. by rewrite Hurl', Hurl.
Qed.

(** ** Settled promises *)

(** A rejected chain stays rejected, with the same error. *)
Lemma rejected_for_good events σ c e :
  promise_state σ (OfChain c) = Rejected e →
  promise_state (run getAbsoluteUri typeOf_string events σ) (OfChain c) = Rejected e.
Proof.
  intros Hrejected.
  destruct (evolves_run events σ) as [added Hev].
  rewrite (evolves_settled _ _ _ _ Hev); [done |]. by rewrite Hrejected.
Qed.

(** ** Every event keeps the wiring *)

Lemma consistent_fetch_settles c fetched σ :
  consistent None σ → consistent None (fetch_settles c fetched σ).2.
Proof.
  intros Hcons.
  destruct (chains σ !! c) as [ch|] eqn:Hch;
    [destruct (ch_stage ch) eqn:Hstage |].
  2-5: rewrite fetch_settles_idle; [done |]; rewrite Hch; simpl; congruence.
  destruct fetched as [e|registers].
  - rewrite (fetch_settles_fails _ _ _ _ Hch Hstage). sim.
    apply (consistent_set_stage _ _ ch); [done | done | by rewrite Hstage].
  - rewrite (fetch_settles_runs _ _ _ _ Hch Hstage). sim.
    apply (consistent_set_stage _ _ ch).
    + apply (consistent_frame None σ); try done; by destruct registers.
    + by destruct registers.
    + by rewrite Hstage.
Qed.

Lemma consistent_fetch_then c σ :
  consistent None σ → consistent None (fetch_then c σ).2.
Proof.
  intros Hcons.
  destruct (chains σ !! c) as [ch|] eqn:Hch;
    [destruct (ch_stage ch) eqn:Hstage |].
  1,3-5: rewrite fetch_then_idle; [done |]; rewrite Hch; simpl; congruence.
  destruct (createProjectionFunctions σ) as [f|] eqn:Hslot.
  - rewrite (fetch_then_registered _ _ _ _ Hch Hstage Hslot). sim.
    destruct (cons_chains _ _ Hcons _ _ Hch) as (Hd & this & Hthis & Hpromise & _).
    set (cb := LoadedCallback (ch_customProjection ch) (ch_deferred ch)).
    set (σ1 := with_effects _ (with_cache _ σ)).
    assert (Hinvoked : consistent (Some c)
              (invoke_state (ch_projectionName ch) f cb σ1)).
    { apply (consistent_invoke _ _ _ _ this); try done.
      - apply (consistent_frame (Some c) σ); try done.
        by apply consistent_running.
      - exists c, ch. repeat split; try done. by right. }
    apply (consistent_finished _ ch); [done | |].
    + by rewrite (same_chains _ _
                    (invoke_state_surroundings (ch_projectionName ch) f cb σ1)).
    + by destruct (invoke_result f).
  - rewrite (fetch_then_unregistered _ _ _ Hch Hstage Hslot). sim.
    apply (consistent_set_stage _ _ ch); [done | done | by rewrite Hstage].
Qed.

Lemma consistent_importing this registers σ :
  consistent None σ →
  _ready this = false → _readyPromise this = None →
  consistent None (importing this registers σ).
Proof.
  intros Hcons Hready Hpromise.
  pose proof (cons_length _ _ Hcons) as Hlen.
  assert (Hallocated : consistent None (allocated this σ))
    by by apply consistent_allocated.
  unfold importing, importing_chain. rewrite <- Hlen.
  set (σ1 := registered registers _).
  assert (Hσ1 : consistent None σ1).
  { apply (consistent_frame None (allocated this σ)); try done.
    all: subst σ1; by destruct registers. }
  replace (length (chains σ)) with (length (chains σ1))
    by (subst σ1; by destruct registers).
  apply (consistent_promise_chain _ _ this); try done.
  - subst σ1. destruct registers; apply lookup_allocated.
  - intros k cb Hcb.
    assert (Hcb' : callbacks σ !! k = Some cb) by (subst σ1; by destruct registers).
    destruct (cons_callbacks _ _ Hcons _ _ Hcb') as (_ & ? & Hthis & _).
    apply lookup_lt_Some in Hthis. lia.
Qed.

Lemma consistent_new url projectionName ellipsoid imported σ :
  consistent None σ →
  consistent None
    (new_CustomProjection getAbsoluteUri typeOf_string url projectionName ellipsoid imported σ).2.
Proof.
  intros Hcons.
  pose proof (cons_length _ _ Hcons) as Hlen.
  pose (this := fields getAbsoluteUri url projectionName ellipsoid (baseUri σ)).
  assert (Hallocated : consistent None (allocated this σ))
    by by apply consistent_allocated.
  assert (Hfresh : ∀ k cb, callbacks σ !! k = Some cb →
            closure_adapter cb ≠ length (adapters σ)).
  { intros k cb Hcb. destruct (cons_callbacks _ _ Hcons _ _ Hcb) as (_ & ? & Hthis & _).
    apply lookup_lt_Some in Hthis. lia. }
  destruct (typeOf_string url && typeOf_string projectionName) eqn:Hvalid.
  - apply andb_true_iff in Hvalid as [Hurl Hname].
    destruct (defined (property (loadedProjectionFunctions σ) (text projectionName)))
      eqn:Hcached.
    + rewrite (new_cached _ _ _ _ _ Hurl Hname Hcached). rewrite <- Hlen.
      fold this.
      set (cb := CachedCallback (length (adapters σ)) (length (adapters σ))).
      set (f := property (loadedProjectionFunctions σ) (text projectionName)).
      assert (Hinvoked : consistent None
                (invoke_state (text projectionName) f cb (allocated this σ))).
      { apply (consistent_invoke _ _ _ _ this); try done.
        apply lookup_allocated. }
      destruct (invoke_result f); sim; [| done].
      pose proof (invoke_state_promise (text projectionName) f cb (allocated this σ)
                    (length (adapters σ))) as Hpromise.
      rewrite lookup_allocated in Hpromise.
      destruct (adapters (invoke_state (text projectionName) f cb (allocated this σ))
                  !! length (adapters σ)) as [this'|] eqn:Hthis'; [| done].
      injection Hpromise as Hpromise.
      by apply (consistent_promise_deferred _ _ this').
    + destruct (inWorker σ) eqn:Hworker.
      * destruct imported as [e|registers].
        -- rewrite (new_import_fails _ _ _ _ _ e Hurl Hname Hcached Hworker eq_refl).
           sim. by apply (consistent_frame None (allocated this σ)).
        -- rewrite (new_imported _ _ _ _ _ registers Hurl Hname Hcached Hworker
                      eq_refl).
           sim. apply consistent_fetch_then. by apply consistent_importing.
      * rewrite (new_fetching _ _ _ _ _ Hurl Hname Hcached Hworker).
        rewrite <- Hlen. sim. fold this.
        set (σ1 := with_effects _ (allocated this σ)).
        assert (Hσ1 : consistent None σ1)
          by by apply (consistent_frame None (allocated this σ)).
        apply (consistent_promise_chain None _ this _ _ σ1); try done.
        apply lookup_allocated.
  - destruct (new_invalid url projectionName ellipsoid imported σ Hvalid)
      as [message ->].
    done.
Qed.

Lemma consistent_callback_fires k project unproject σ :
  consistent None σ → consistent None (callback_fires k project unproject σ).2.
Proof.
  intros Hcons. destruct (callbacks σ !! k) as [cb|] eqn:Hk.
  - rewrite (callback_fires_known _ _ _ _ _ Hk). sim.
    by apply (consistent_callback _ _ _ _ k).
  - by rewrite (callback_fires_unknown _ _ _ _ Hk).
Qed.

Lemma consistent_after e σ :
  consistent None σ → consistent None (after getAbsoluteUri typeOf_string e σ).
Proof.
  intros Hcons. unfold after, step. unfold mbind, mret, M_bind, M_ret.
  destruct e as [url projectionName ellipsoid imported|c fetched|c|k project unproject
                |a input result|a input result|o|base];
    rewrite ?snd_then_ret.
  - by apply consistent_new.
  - by apply consistent_fetch_settles.
  - by apply consistent_fetch_then.
  - by apply consistent_callback_fires.
  - destruct (project_quiet a input result σ) as [added Hquiet].
    by apply (consistent_quiet _ added σ).
  - destruct (unproject_quiet a input result σ) as [added Hquiet].
    by apply (consistent_quiet _ added σ).
  - by apply (consistent_frame None σ).
  - by apply (consistent_frame None σ).
Qed.

Lemma consistent_run events σ :
  consistent None σ → consistent None (run getAbsoluteUri typeOf_string events σ).
Proof.
  revert σ. induction events as [|e events IH]; intros σ Hcons; [done |].
  simpl. by apply IH, consistent_after.
Qed.

Lemma consistent_reachable σ :
  reachable getAbsoluteUri typeOf_string σ → consistent None σ.
Proof.
  intros (inherited & slot & worker & base & events & ->).
  apply consistent_run, consistent_initial.
Qed.

(** ** The readiness promise of an adapter *)

Lemma wired_promise σ a this p :
  consistent None σ →
  adapters σ !! a = Some this →
  _readyPromise this = Some p →
  (p = OfDeferred a ∨
   ∃ c ch, p = OfChain c ∧ chains σ !! c = Some ch ∧ ch_customProjection ch = a) ∧
  (∀ v, promise_state σ p = Resolved v → v = ResAdapter a ∧ _ready this = true) ∧
  (_ready this = true →
   promise_state σ p = Resolved (ResAdapter a) ∨
   ∃ c ch e, p = OfChain c ∧ chains σ !! c = Some ch ∧ ch_stage ch = Failed e ∧
             promise_state σ p = Rejected e).
Proof.
  intros Hcons Hthis Hp.
  destruct p as [d|c].
  - assert (d = a) as -> by apply (cons_deferred _ _ Hcons _ _ _ Hthis Hp).
    split; [by left |]. split; simpl.
    + intros v0 Hv0.
      destruct (cons_flag _ _ Hcons _ _ Hthis)
        as [[Hd Hready]|(v & Hd & Hready & Hv)]; rewrite Hd in Hv0; [done |].
      injection Hv0 as <-. split; [| done]. apply Hv. intros c. congruence.
    + intros Hready. left.
      destruct (cons_flag _ _ Hcons _ _ Hthis)
        as [[Hd Hready']|(v & Hd & _ & Hv)]; [congruence |].
      rewrite Hd. simpl. rewrite Hv; [done |]. intros c. congruence.
  - destruct (cons_chain _ _ Hcons _ _ _ Hthis Hp) as (ch & Hch & Ha).
    destruct (cons_chains _ _ Hcons _ _ Hch) as (Hd & this' & Hthis' & _ & Hopen).
    rewrite Ha, Hthis in Hthis'. injection Hthis' as <-.
    split; [right; by exists c, ch |].
    split; simpl; rewrite Hch, Hd, Ha.
    + intros v0 Hv0. destruct (ch_stage ch); try done.
      destruct (cons_flag _ _ Hcons _ _ Hthis)
        as [[Hd' Hready]|(v & Hd' & Hready & Hv)]; rewrite Hd' in Hv0; [done |].
      simpl in Hv0. by injection Hv0 as <-.
    + intros Hready. destruct (ch_stage ch) eqn:Hstage.
      * rewrite (Hopen eq_refl) in Hready; done.
      * rewrite (Hopen eq_refl) in Hready; done.
      * left. destruct (cons_flag _ _ Hcons _ _ Hthis)
          as [[Hd' Hready']|(v & Hd' & _ & Hv)]; [congruence |].
        by rewrite Hd'.
      * right. by exists c, ch, e.
Qed.

(** ** Readiness comes from the callback *)


(** ** A file that registers no entry point *)

(** C5, as the code has it.  When the handler of a due chain runs and the
    global slot holds nothing, or holds a value that is plain data and so
    cannot be called, the readiness promise of the chain is rejected, not
    left pending, and stays rejected through every later run.  The error is
    the [ReferenceError] for [createProjectionFunctions], or the
    [TypeError] of the call; it is the same whatever the url and the
    projection name are, and carries neither. *)
Theorem missing_entry_point_rejects (σ : state) (c : nat) (ch : chain) :
  chains σ !! c = Some ch → ch_stage ch = Queued →
  (createProjectionFunctions σ = None →
   ∀ events,
     promise_state (run getAbsoluteUri typeOf_string events (fetch_then c σ).2) (OfChain c)
     = Rejected (ReferenceError "createProjectionFunctions")) ∧
  (∀ d, createProjectionFunctions σ = Some (JData d) →
   ∀ events,
     promise_state (run getAbsoluteUri typeOf_string events (fetch_then c σ).2) (OfChain c)
     = Rejected (TypeError "factory is not a function")).
Proof.
  intros Hch Hstage. split.
  - intros Hslot events. apply rejected_for_good.
    rewrite (fetch_then_unregistered _ _ _ Hch Hstage Hslot). sim.
    eapply promise_state_failed.
    + sim. by rewrite list_lookup_alter_eq, Hch.
    + done.
  - intros d Hslot events. apply rejected_for_good.
    rewrite (fetch_then_registered _ _ _ _ Hch Hstage Hslot).
    cbn [invoke_state invoke_result]. sim.
    eapply promise_state_failed.
    + sim. by rewrite list_lookup_alter_eq, Hch.
    + done.
Qed.

(** ** The readiness promise *)

(** What a call of a completion callback does to the readiness promise
    of its adapter: a pending promise is resolved with the adapter, a
    settled one is left as it is. *)
Lemma callback_settles σ k cb project unproject this p :
  consistent None σ →
  callbacks σ !! k = Some cb →
  adapters σ !! closure_adapter cb = Some this →
  _readyPromise this = Some p →
  promise_state (callback_state cb project unproject σ) p
  = match promise_state σ p with
    | Pending => Resolved (ResAdapter (closure_adapter cb))
    | s => s
    end.
Proof.
  intros Hcons Hk Hthis Hp.
  destruct (cons_callbacks _ _ Hcons _ _ Hk) as (Hd & this' & Hthis' & Hkind).
  rewrite Hthis in Hthis'. injection Hthis' as <-.
  assert (Hdeferred :
    deferreds (callback_state cb project unproject σ) !! closure_adapter cb
    = settle (closure_resolution cb) <$> deferreds σ !! closure_adapter cb).
  { rewrite callback_state_deferred, decide_True; done. }
  destruct p as [d|c].
  - assert (d = closure_adapter cb) as ->
      by apply (cons_deferred _ _ Hcons _ _ _ Hthis Hp).
    unfold promise_state. rewrite Hdeferred.
    destruct cb as [a' d'|a' d'].
    + destruct (cons_flag _ _ Hcons _ _ Hthis) as [[-> _]|(v & -> & _)]; done.
    + destruct Hkind as (c & ch & Hp' & _). congruence.
  - destruct (cons_chain _ _ Hcons _ _ _ Hthis Hp) as (ch & Hch & Ha).
    destruct (cons_chains _ _ Hcons _ _ Hch) as (Hd' & _).
    unfold promise_state.
    replace (chains (callback_state cb project unproject σ)) with (chains σ) by done.
    rewrite Hch, Hd', Ha, Hdeferred.
    destruct cb as [a' d'|a' d'].
    + by destruct (Hkind c).
    + destruct Hkind as (c' & ch' & Hp' & Hch' & [Hterminal|Hrunning]); [| done].
      rewrite Hp in Hp'. injection Hp' as <-.
      rewrite Hch in Hch'. injection Hch' as <-.
      destruct (ch_stage ch); try done.
      cbn [closure_resolution closure_adapter] in *.
      destruct (cons_flag _ _ Hcons _ _ Hthis) as [[-> _]|(v & -> & _)]; done.
Qed.

(** C3, as the code has it.  In every state a program reaches, for every
    adapter with its readiness promise [p]: [p] is the adapter's own
    deferred (cache hit) or the chain set up for the adapter (cache miss);
    whenever [p] is resolved, its value is the adapter itself and the
    adapter is ready.  Calling a completion callback of the adapter with
    a pair stores the pair, and resolves [p] with the adapter if [p] was
    pending; a [p] that was settled is left as it was.  So once the
    adapter is ready, [p] is resolved with the adapter, with one
    exception: on the cache-miss path, when the handler of lines 216-227
    ended with an exception, as it does when the factory calls back and
    then throws, [p] is rejected with that exception although the adapter
    is ready.  A settled [p] never changes again, whatever happens later,
    further callback calls included. *)
Theorem readyPromise_resolves_unless_handler_threw (σ : state) (a : loc)
    (this : CustomProjection) (p : promise) :
  reachable getAbsoluteUri typeOf_string σ →
  adapters σ !! a = Some this →
  readyPromise this = Some p →
  (p = OfDeferred a ∨
   ∃ c ch, p = OfChain c ∧ chains σ !! c = Some ch ∧ ch_customProjection ch = a) ∧
  (∀ v, promise_state σ p = Resolved v → v = ResAdapter a ∧ _ready this = true) ∧
  (∀ k cb project unproject,
     callbacks σ !! k = Some cb → closure_adapter cb = a →
     let σ' := (callback_fires k project unproject σ).2 in
     adapters σ' !! a = Some (wired project unproject this) ∧
     promise_state σ' p
     = match promise_state σ p with
       | Pending => Resolved (ResAdapter a)
       | s => s
       end) ∧
  (_ready this = true →
   promise_state σ p = Resolved (ResAdapter a) ∨
   ∃ c ch e, p = OfChain c ∧ chains σ !! c = Some ch ∧ ch_stage ch = Failed e ∧
             promise_state σ p = Rejected e) ∧
  (∀ events, promise_state σ p ≠ Pending →
             promise_state (run getAbsoluteUri typeOf_string events σ) p
             = promise_state σ p).
Proof.
  intros Hreachable Hthis Hp.
  pose proof (consistent_reachable _ Hreachable) as Hcons.
  destruct (wired_promise σ a this p Hcons Hthis Hp) as (Hshape & Hvalue & Hready).
  split; [done |]. split; [done |]. split; [| split; [done |]].
  - intros k cb project unproject Hk <- σ'. subst σ'.
    rewrite (callback_fires_known _ _ _ _ _ Hk). sim. split.
    + rewrite callback_state_adapter, decide_True by done. by rewrite Hthis.
    + by apply (callback_settles σ k cb project unproject this p).
  - intros events Hsettled.
    destruct (evolves_run events σ) as [added Hev].
    by apply (evolves_settled added).
Qed.

(** ** What a construction leaves alone *)

Lemma run_cons e events σ :
  run getAbsoluteUri typeOf_string (e :: events) σ
  = run getAbsoluteUri typeOf_string events (after getAbsoluteUri typeOf_string e σ).
Proof. done. Qed.

Lemma run_app events events' σ :
  run getAbsoluteUri typeOf_string (events ++ events') σ
  = run getAbsoluteUri typeOf_string events' (run getAbsoluteUri typeOf_string events σ).
Proof. apply foldl_app. Qed.

Lemma after_new url projectionName ellipsoid imported σ :
  after getAbsoluteUri typeOf_string (ENew url projectionName ellipsoid imported) σ
  = (new_CustomProjection getAbsoluteUri typeOf_string url projectionName ellipsoid
       imported σ).2.
Proof. unfold after, step. unfold mbind, mret, M_bind, M_ret. by rewrite snd_then_ret. Qed.

Lemma lookup_alter_fresh {A} (f : A → A) (l : list A) (i j : nat) :
  j < i → alter f i l !! j = l !! j.
Proof. intros Hlt. apply list_lookup_alter_ne. lia. Qed.

Lemma importing_parts this registers σ :
  let σ1 := importing this registers σ in
  adapters σ1
  = alter (set_readyPromise (OfChain (length (chains σ)))) (length (adapters σ))
      (adapters σ ++ [this]) ∧
  deferreds σ1 = deferreds σ ++ [Pending] ∧
  chains σ1 = chains σ ++ [importing_chain this σ] ∧
  callbacks σ1 = callbacks σ ∧
  loadedProjectionFunctions σ1 = loadedProjectionFunctions σ ∧
  createProjectionFunctions σ1
  = match registers with Some f => Some f | None => createProjectionFunctions σ end ∧
  inWorker σ1 = inWorker σ ∧ baseUri σ1 = baseUri σ ∧ heap σ1 = heap σ ∧
  effects σ1 = effects σ ++ [ImportScripts (_url this)].
Proof. unfold importing, allocated. by destruct registers. Qed.

Lemma importing_chain_due this registers σ :
  chains (importing this registers σ) !! length (chains σ)
  = Some (importing_chain this σ).
Proof.
  destruct (importing_parts this registers σ) as (_ & _ & -> & _).
  by apply list_lookup_middle.
Qed.

(** The handler of a chain touches the adapter, the deferred and the
    stage of that chain, the cache, the callbacks it creates and the
    log. *)
Lemma fetch_then_others c ch σ :
  chains σ !! c = Some ch →
  let σ' := (fetch_then c σ).2 in
  (∀ a : loc, a ≠ ch_customProjection ch → adapters σ' !! a = adapters σ !! a) ∧
  (∀ d : nat, d ≠ ch_deferred ch → deferreds σ' !! d = deferreds σ !! d) ∧
  (∀ c' : nat, c' ≠ c → chains σ' !! c' = chains σ !! c') ∧
  (∀ k : nat, k < length (callbacks σ) → callbacks σ' !! k = callbacks σ !! k) ∧
  inWorker σ' = inWorker σ ∧ baseUri σ' = baseUri σ ∧ heap σ' = heap σ.
Proof.
  intros Hch σ'. subst σ'.
  destruct (ch_stage ch) eqn:Hstage.
  1,3-4: rewrite fetch_then_idle; [done |]; rewrite Hch; simpl; congruence.
  destruct (createProjectionFunctions σ) as [f|] eqn:Hslot.
  - rewrite (fetch_then_registered _ _ _ _ Hch Hstage Hslot). sim.
    set (cb := LoadedCallback (ch_customProjection ch) (ch_deferred ch)).
    set (σ1 := with_effects (λ l, l ++ [CacheStore (ch_projectionName ch)])
                 (with_cache (<[ch_projectionName ch := f]>) σ)).
    destruct (invoke_state_others (ch_projectionName ch) f cb σ1)
      as (Hadapters & Hdeferreds & Hcallbacks).
    destruct (invoke_state_surroundings (ch_projectionName ch) f cb σ1)
      as [_ _ Hworker Hbase Hheap Hchains _ _].
    repeat split; try done.
    + intros c' Hne. rewrite list_lookup_alter_ne by done. by rewrite Hchains.
  - rewrite (fetch_then_unregistered _ _ _ Hch Hstage Hslot). sim.
    repeat split; try done.
    intros c' Hne. by rewrite list_lookup_alter_ne.
Qed.

(** A construction touches no object that was there before it, and not
    the kind of context, the base or the heap. *)
Lemma new_others url projectionName ellipsoid imported σ :
  let σ' := (new_CustomProjection getAbsoluteUri typeOf_string url projectionName
               ellipsoid imported σ).2 in
  (∀ a : loc, a < length (adapters σ) → adapters σ' !! a = adapters σ !! a) ∧
  (∀ d : nat, d < length (deferreds σ) → deferreds σ' !! d = deferreds σ !! d) ∧
  (∀ c : nat, c < length (chains σ) → chains σ' !! c = chains σ !! c) ∧
  (∀ k : nat, k < length (callbacks σ) → callbacks σ' !! k = callbacks σ !! k) ∧
  inWorker σ' = inWorker σ ∧ baseUri σ' = baseUri σ ∧ heap σ' = heap σ.
Proof.
  intros σ'. subst σ'.
  set (this := fields getAbsoluteUri url projectionName ellipsoid (baseUri σ)).
  destruct (typeOf_string url && typeOf_string projectionName) eqn:Hvalid.
  - apply andb_true_iff in Hvalid as [Hurl Hname].
    destruct (defined (property (loadedProjectionFunctions σ) (text projectionName)))
      eqn:Hcached.
    + rewrite (new_cached _ _ _ _ _ Hurl Hname Hcached). fold this.
      set (cb := CachedCallback (length (adapters σ)) (length (deferreds σ))).
      set (cached := property (loadedProjectionFunctions σ) (text projectionName)).
      destruct (invoke_state_others (text projectionName) cached cb (allocated this σ))
        as (Hadapters & Hdeferreds & Hcallbacks).
      destruct (invoke_state_surroundings (text projectionName) cached cb
                  (allocated this σ)) as [Hcache _ Hworker Hbase Hheap Hchains _ _].
      assert (Hold : (∀ a : loc, a < length (adapters σ) →
                        adapters (invoke_state (text projectionName) cached cb
                                    (allocated this σ)) !! a = adapters σ !! a) ∧
                     (∀ d : nat, d < length (deferreds σ) →
                        deferreds (invoke_state (text projectionName) cached cb
                                     (allocated this σ)) !! d = deferreds σ !! d)).
      { split.
        - intros a Ha. rewrite Hadapters by (cbn [cb closure_adapter]; lia).
          unfold allocated. sim. by apply lookup_app_l.
        - intros d Hd. rewrite Hdeferreds by (cbn [cb closure_deferred]; lia).
          unfold allocated. sim. by apply lookup_app_l. }
      destruct Hold as [Hadapters' Hdeferreds'].
      destruct (invoke_result cached) as [[]|e]; sim.
      * repeat split; try done.
        -- intros a Ha. rewrite lookup_alter_fresh by done. by apply Hadapters'.
        -- intros c Hc. by rewrite Hchains.
      * repeat split; try done.
        intros c Hc. by rewrite Hchains.
    + destruct (inWorker σ) eqn:Hworker.
      * destruct imported as [e|registers].
        -- rewrite (new_import_fails _ _ _ _ _ e Hurl Hname Hcached Hworker eq_refl).
           unfold allocated. sim. repeat split; try done.
           all: intros i Hi; by apply lookup_app_l.
        -- rewrite (new_imported _ _ _ _ _ registers Hurl Hname Hcached Hworker
                      eq_refl).
           sim. fold this.
           destruct (fetch_then_others _ _ _ (importing_chain_due this registers σ))
             as (Hadapters & Hdeferreds & Hchains & Hcallbacks & -> & -> & ->).
           destruct (importing_parts this registers σ)
             as (Ha & Hd & Hc & Hk & _ & _ & Hworker' & Hbase & Hheap & _).
           cbn [importing_chain ch_customProjection ch_deferred] in *.
           repeat split; try done.
           ++ intros i Hi. rewrite Hadapters by lia.
              rewrite Ha, lookup_alter_fresh by done. by apply lookup_app_l.
           ++ intros i Hi. rewrite Hdeferreds by lia. rewrite Hd. by apply lookup_app_l.
           ++ intros i Hi. rewrite Hchains by lia. rewrite Hc. by apply lookup_app_l.
           ++ intros i Hi. rewrite Hcallbacks by (by rewrite Hk). by rewrite Hk.
           ++ congruence.
      * rewrite (new_fetching _ _ _ _ _ Hurl Hname Hcached Hworker).
        unfold allocated. sim. repeat split; try done.
        all: intros i Hi; rewrite ?lookup_alter_fresh by done; by apply lookup_app_l.
  - destruct (new_invalid url projectionName ellipsoid imported σ Hvalid)
      as [message ->].
    by repeat split.
Qed.

(** ** States a program reaches *)

Lemma reachable_initial inherited slot worker base :
  reachable getAbsoluteUri typeOf_string (initial inherited slot worker base).
Proof. by exists inherited, slot, worker, base, []. Qed.

Lemma reachable_run events σ :
  reachable getAbsoluteUri typeOf_string σ →
  reachable getAbsoluteUri typeOf_string (run getAbsoluteUri typeOf_string events σ).
Proof.
  intros (inherited & slot & worker & base & events' & ->).
  exists inherited, slot, worker, base, (events' ++ events). by rewrite run_app.
Qed.

(** ** The outcome of a cache hit *)

Lemma lookup_allocated_deferred this σ :
  deferreds (allocated this σ) !! length (deferreds σ) = Some Pending.
Proof. unfold allocated. sim. by apply list_lookup_middle. Qed.

(** X4. With arguments that pass the check and a factory in the cache
    under the name (lines 195-203), the constructor calls that factory
    before it returns.  The callback calls the factory
    makes meanwhile decide what the constructor leaves: the adapter holds
    the pair of the last call and is ready if there was a call, and its
    deferred is resolved with the adapter if there was a call and pending
    otherwise.  When the factory ends with an exception, the constructor
    throws it; otherwise it returns the adapter, whose readiness promise
    is that deferred. *)
Theorem cache_hit_outcome (σ : state) (url : data) (name : string)
    (ellipsoid : option Ellipsoid) (imported : script)
    (calls : list (jsval * jsval)) (throws : option error) :
  typeOf_string url = true → typeOf_string (VString name) = true →
  property (loadedProjectionFunctions σ) name = JFactory calls throws →
  let r := new_CustomProjection getAbsoluteUri typeOf_string url (VString name)
             ellipsoid imported σ in
  let a := length (adapters σ) in
  let d := length (deferreds σ) in
  let this :=
    after_calls calls (fields getAbsoluteUri url (VString name) ellipsoid (baseUri σ)) in
  r.1 = match throws with Some e => Throw e | None => Normal a end ∧
  adapters r.2 !! a
  = Some match throws with
         | Some _ => this
         | None => set_readyPromise (OfDeferred d) this
         end ∧
  promise_state r.2 (OfDeferred d)
  = match last calls with
    | Some _ => Resolved (ResAdapter a)
    | None => Pending
    end.
Proof.
  intros Hurl Hname Hcached r a d this. subst r.
  rewrite (new_cached url (VString name) ellipsoid imported σ Hurl Hname)
    by (cbn [text]; by rewrite Hcached).
  cbn [text]. rewrite Hcached.
  assert (Hadapter :
    adapters (invoke_state name (JFactory calls throws) (CachedCallback a d)
                (allocated (fields getAbsoluteUri url (VString name) ellipsoid (baseUri σ)) σ))
      !! a = Some this).
  { rewrite invoke_state_adapter. cbn [closure_adapter].
    rewrite decide_True by done. subst a. by rewrite lookup_allocated. }
  assert (Hdeferred :
    deferreds (invoke_state name (JFactory calls throws) (CachedCallback a d)
                 (allocated (fields getAbsoluteUri url (VString name) ellipsoid (baseUri σ)) σ))
      !! d = Some (settled_by calls (ResAdapter a) Pending)).
  { rewrite invoke_state_deferred. cbn [closure_deferred closure_resolution].
    rewrite decide_True by done. subst d. by rewrite lookup_allocated_deferred. }
  destruct throws as [e|]; cbn [invoke_result]; sim; fold a d;
    unfold promise_state; sim.
  - split; [done |]. split; [done |]. rewrite Hdeferred. unfold settled_by.
    by destruct (last calls).
  - split; [done |]. split.
    + by rewrite list_lookup_alter_eq, Hadapter.
    + rewrite Hdeferred. unfold settled_by. by destruct (last calls).
Qed.

(** ** The outcome of the handler *)

Lemma fetch_then_factory σ c ch calls throws :
  consistent None σ →
  chains σ !! c = Some ch → ch_stage ch = Queued →
  createProjectionFunctions σ = Some (JFactory calls throws) →
  let σ' := (fetch_then c σ).2 in
  let a := ch_customProjection ch in
  property (loadedProjectionFunctions σ') (ch_projectionName ch) = JFactory calls throws ∧
  (∃ this, adapters σ !! a = Some this ∧ _ready this = false ∧
           readyPromise this = Some (OfChain c) ∧
           adapters σ' !! a = Some (after_calls calls this)) ∧
  promise_state σ (OfChain c) = Pending ∧
  promise_state σ' (OfChain c)
  = match throws, last calls with
    | Some e, _ => Rejected e
    | None, Some _ => Resolved (ResAdapter a)
    | None, None => Pending
    end.
Proof.
  intros Hcons Hch Hstage Hslot σ' a. subst σ'.
  destruct (cons_chains _ _ Hcons _ _ Hch) as (Hd & this & Hthis & Hp & Hopen).
  fold a in Hd, Hthis.
  assert (Hready : _ready this = false) by (apply Hopen; by rewrite ?Hstage).
  assert (Hpending : deferreds σ !! a = Some Pending).
  { destruct (cons_flag _ _ Hcons _ _ Hthis) as [[? _]|(v & _ & Hready' & _)];
      [done | congruence]. }
  rewrite (fetch_then_registered _ _ _ _ Hch Hstage Hslot). sim. fold a.
  set (σ1 := with_effects (λ l, l ++ [CacheStore (ch_projectionName ch)])
               (with_cache (<[ch_projectionName ch := JFactory calls throws]>) σ)).
  pose proof (invoke_state_surroundings (ch_projectionName ch) (JFactory calls throws)
                (LoadedCallback a (ch_deferred ch)) σ1) as Hsame.
  split; [| split; [| split]].
  - rewrite (same_cache _ _ Hsame). subst σ1. sim.
    unfold property. by rewrite lookup_insert_eq.
  - exists this. repeat split; try done.
    rewrite invoke_state_adapter. cbn [closure_adapter].
    rewrite decide_True by done. subst σ1. sim. by rewrite Hthis.
  - unfold promise_state. by rewrite Hch, Hstage.
  - unfold promise_state. sim.
    rewrite list_lookup_alter_eq, (same_chains _ _ Hsame). subst σ1. sim.
    rewrite Hch. cbn [fmap option_fmap option_map set_stage ch_stage ch_deferred].
    destruct throws as [e|]; cbn [invoke_result]; [done |].
    rewrite invoke_state_deferred. cbn [closure_deferred closure_resolution].
    rewrite decide_True by done. sim. rewrite Hd, Hpending. unfold settled_by.
    by destruct (last calls).
Qed.

(** X5. In a state a program reaches, when the handler of a due chain
    (lines 216-227) finds a factory in the global slot: the adapter of the
    chain was not ready and its readiness promise was pending; the handler
    stores the factory in the cache under the name of the chain and calls
    it; the adapter then holds the pair of the last callback call the
    factory made and is ready if there was one; the readiness promise is
    rejected with the exception of the factory if it ended with one, and
    otherwise resolved with the adapter if the factory called back, and
    still pending if it did not. *)
Theorem handler_outcome (σ : state) (c : nat) (ch : chain)
    (calls : list (jsval * jsval)) (throws : option error) :
  reachable getAbsoluteUri typeOf_string σ →
  chains σ !! c = Some ch → ch_stage ch = Queued →
  createProjectionFunctions σ = Some (JFactory calls throws) →
  let σ' := (fetch_then c σ).2 in
  let a := ch_customProjection ch in
  property (loadedProjectionFunctions σ') (ch_projectionName ch) = JFactory calls throws ∧
  (∃ this, adapters σ !! a = Some this ∧ _ready this = false ∧
           readyPromise this = Some (OfChain c) ∧
           adapters σ' !! a = Some (after_calls calls this)) ∧
  promise_state σ (OfChain c) = Pending ∧
  promise_state σ' (OfChain c)
  = match throws, last calls with
    | Some e, _ => Rejected e
    | None, Some _ => Resolved (ResAdapter a)
    | None, None => Pending
    end.
Proof.
  intros Hreachable. apply fetch_then_factory. by apply consistent_reachable.
Qed.

(** ** When the constructor throws *)

(** X6. The constructor throws in three cases and no other.  When [url]
    or [projectionName] does not pass the check of lines 44-45, it throws a
    [DeveloperError] and has changed nothing.  When both pass, it throws
    [e] exactly when the cache has a defined entry under the name and
    calling that entry throws [e] (line 196: the exception of the factory,
    or the [TypeError] of calling what is no factory), or when the name is
    not cached, the code runs in a worker and [importScripts] throws [e]
    (line 207).  So in a page a construction under a name that is not
    cached always returns. *)
Theorem constructor_throws_exactly (σ : state) (url projectionName : data)
    (ellipsoid : option Ellipsoid) (imported : script) :
  let new := new_CustomProjection getAbsoluteUri typeOf_string url projectionName
               ellipsoid imported σ in
  let cached := property (loadedProjectionFunctions σ) (text projectionName) in
  (typeOf_string url && typeOf_string projectionName = false →
   ∃ message, new = (Throw (DeveloperError message), σ)) ∧
  (typeOf_string url && typeOf_string projectionName = true →
   ∀ e, new.1 = Throw e ↔
        (defined cached = true ∧ invoke_result cached = Throw e) ∨
        (defined cached = false ∧ inWorker σ = true ∧ imported = ScriptFails e)).
Proof.
  intros new cached. subst new. split; [apply new_invalid |].
  intros [Hurl Hname]%andb_true_iff e.
  destruct (defined cached) eqn:Hcached.
  - rewrite (new_cached _ _ _ _ _ Hurl Hname Hcached). fold cached.
    destruct (invoke_result cached) as [[]|e']; sim.
    + split; [done |]. by intros [[_ ?]|[? _]].
    + split.
      * intros [= ->]. by left.
      * by intros [[_ [= ->]]|[? _]].
  - destruct (inWorker σ) eqn:Hworker.
    + destruct imported as [e'|registers].
      * rewrite (new_import_fails _ _ _ _ _ e' Hurl Hname Hcached Hworker eq_refl). sim.
        split.
        -- intros [= ->]. by right.
        -- by intros [[? _]|(_ & _ & [= ->])].
      * rewrite (new_imported _ _ _ _ _ registers Hurl Hname Hcached Hworker eq_refl).
        sim. split; [done |]. by intros [[? _]|(_ & _ & ?)].
    + rewrite (new_fetching _ _ _ _ _ Hurl Hname Hcached Hworker). sim.
      split; [done |]. by intros [[? _]|(_ & ? & _)].
Qed.

(** ** A name that is not cached, in a page *)

(** X7. In a page, with arguments that pass the check and a name that is
    not cached (lines 210-232): the constructor returns at once; it has
    called [Resource.fetchJsonp] once, with the absolute url, the very url
    the accessor gives; it has neither written the cache nor called a
    factory; the new adapter is not ready and its readiness promise is
    pending.  Loads in flight are not shared: [n] constructions in a row
    with the same arguments start [n] fetches of that url. *)
Theorem page_miss_fetches_every_time (σ : state) (url projectionName : data)
    (ellipsoid : option Ellipsoid) (imported : script) :
  typeOf_string url = true → typeOf_string projectionName = true →
  defined (property (loadedProjectionFunctions σ) (text projectionName)) = false →
  inWorker σ = false →
  let r := new_CustomProjection getAbsoluteUri typeOf_string url projectionName
             ellipsoid imported σ in
  let a := length (adapters σ) in
  let c := length (chains σ) in
  let absoluteUrl := getAbsoluteUri (text url) (baseUri σ) in
  r.1 = Normal a ∧
  effects r.2 = effects σ ++ [FetchJsonp absoluteUrl] ∧
  loadedProjectionFunctions r.2 = loadedProjectionFunctions σ ∧
  adapters r.2 !! a
  = Some (set_readyPromise (OfChain c)
            (fields getAbsoluteUri url projectionName ellipsoid (baseUri σ))) ∧
  promise_state r.2 (OfChain c) = Pending ∧
  ∀ n, effects (run getAbsoluteUri typeOf_string
                  (replicate n (ENew url projectionName ellipsoid imported)) σ)
       = effects σ ++ replicate n (FetchJsonp absoluteUrl).
Proof.
  intros Hurl Hname Hcached Hworker r a c absoluteUrl. subst r a c absoluteUrl.
  rewrite (new_fetching _ _ _ _ _ Hurl Hname Hcached Hworker). sim.
  split; [done |]. split; [done |]. split; [done |]. split; [| split].
  - by rewrite list_lookup_alter_eq, lookup_allocated.
  - unfold promise_state. sim. by rewrite list_lookup_middle.
  - intros n. revert σ Hcached Hworker.
    induction n as [|n IH]; intros σ Hcached Hworker; [by rewrite app_nil_r |].
    cbn [replicate]. rewrite run_cons, after_new.
    rewrite (new_fetching _ _ _ _ _ Hurl Hname Hcached Hworker).
    sim. rewrite IH by done. sim. by rewrite <- app_assoc.
Qed.

(** ** The cache and the global slot through a handler and a callback *)

Lemma callback_fires_surroundings k project unproject σ :
  loadedProjectionFunctions (callback_fires k project unproject σ).2
  = loadedProjectionFunctions σ ∧
  createProjectionFunctions (callback_fires k project unproject σ).2
  = createProjectionFunctions σ.
Proof.
  destruct (callbacks σ !! k) as [cb|] eqn:Hk.
  - by rewrite (callback_fires_known _ _ _ _ _ Hk).
  - by rewrite (callback_fires_unknown _ _ _ _ Hk).
Qed.

Lemma fetch_then_cache c σ :
  loadedProjectionFunctions (fetch_then c σ).2
  = match chains σ !! c with
    | Some ch =>
        match ch_stage ch, createProjectionFunctions σ with
        | Queued, Some f => <[ch_projectionName ch := f]> (loadedProjectionFunctions σ)
        | _, _ => loadedProjectionFunctions σ
        end
    | None => loadedProjectionFunctions σ
    end.
Proof.
  destruct (chains σ !! c) as [ch|] eqn:Hch;
    [destruct (ch_stage ch) eqn:Hstage |].
  1,3-5: rewrite fetch_then_idle; [done |]; rewrite Hch; simpl; congruence.
  destruct (createProjectionFunctions σ) as [f|] eqn:Hslot.
  - rewrite (fetch_then_registered _ _ _ _ Hch Hstage Hslot). sim.
    by rewrite (same_cache _ _ (invoke_state_surroundings _ _ _ _)).
  - by rewrite (fetch_then_unregistered _ _ _ Hch Hstage Hslot).
Qed.

Lemma fetch_then_slot c σ :
  createProjectionFunctions (fetch_then c σ).2 = createProjectionFunctions σ.
Proof.
  destruct (chains σ !! c) as [ch|] eqn:Hch;
    [destruct (ch_stage ch) eqn:Hstage |].
  1,3-5: rewrite fetch_then_idle; [done |]; rewrite Hch; simpl; congruence.
  destruct (createProjectionFunctions σ) as [f|] eqn:Hslot.
  - rewrite (fetch_then_registered _ _ _ _ Hch Hstage Hslot). sim.
    by rewrite (same_slot _ _ (invoke_state_surroundings _ _ _ _)).
  - by rewrite (fetch_then_unregistered _ _ _ Hch Hstage Hslot).
Qed.

Lemma fetch_settles_cache c fetched σ :
  loadedProjectionFunctions (fetch_settles c fetched σ).2 = loadedProjectionFunctions σ.
Proof.
  destruct (chains σ !! c) as [ch|] eqn:Hch;
    [destruct (ch_stage ch) eqn:Hstage |].
  2-5: rewrite fetch_settles_idle; [done |]; rewrite Hch; simpl; congruence.
  destruct fetched as [e|[f|]].
  - by rewrite (fetch_settles_fails _ _ _ _ Hch Hstage).
  - by rewrite (fetch_settles_runs _ _ _ _ Hch Hstage).
  - by rewrite (fetch_settles_runs _ _ _ _ Hch Hstage).
Qed.

(** ** A name that is not cached, in a worker *)

(** The calls the handler of a chain adds to the log: none of them is a
    load. *)
Lemma fetch_then_effects c σ :
  ∃ added, effects (fetch_then c σ).2 = effects σ ++ added ∧
           Forall (λ x, is_load x = false) added.
Proof.
  destruct (chains σ !! c) as [ch|] eqn:Hch;
    [destruct (ch_stage ch) eqn:Hstage |].
  1,3-5: rewrite fetch_then_idle; [exists []; by rewrite app_nil_r |];
         rewrite Hch; simpl; congruence.
  destruct (createProjectionFunctions σ) as [f|] eqn:Hslot.
  - rewrite (fetch_then_registered _ _ _ _ Hch Hstage Hslot). sim.
    rewrite invoke_state_effects. sim.
    eexists. split; [by rewrite <- app_assoc |].
    constructor; [done |]. apply invoke_effects_no_load.
  - rewrite (fetch_then_unregistered _ _ _ Hch Hstage Hslot).
    exists []. by rewrite app_nil_r.
Qed.

(** X8. In a worker, with arguments that pass the check and a name that is
    not cached (lines 206-208), in a state a program reaches: the
    constructor calls [importScripts] first, once, with the absolute url,
    and never [Resource.fetchJsonp].  The file is executed during the
    call.  When that throws, the constructor throws the same error; no
    promise chain was set up and the cache is as it was.  When the file
    runs, the chain starts from a promise that is fulfilled already (line
    208), so that the handler of lines 216-227 runs inside [then], before
    the constructor returns the adapter.  With nothing in the global slot
    the readiness promise is rejected with a [ReferenceError] already.
    With a value in the slot, the value the file registered or else what
    the slot held, the constructor has stored it in the cache under the
    name and called it; when the call throws, the readiness promise is
    rejected with that exception; for a factory, the adapter holds the
    pair of the last callback call and is ready if there was one, and the
    promise is resolved with the adapter if the factory called back and
    ended without an exception. *)
Theorem worker_miss_imports (σ : state) (url projectionName : data)
    (ellipsoid : option Ellipsoid) (imported : script) :
  reachable getAbsoluteUri typeOf_string σ →
  typeOf_string url = true → typeOf_string projectionName = true →
  defined (property (loadedProjectionFunctions σ) (text projectionName)) = false →
  inWorker σ = true →
  let r := new_CustomProjection getAbsoluteUri typeOf_string url projectionName
             ellipsoid imported σ in
  let a := length (adapters σ) in
  let c := length (chains σ) in
  let name := text projectionName in
  let this :=
    set_readyPromise (OfChain c)
      (fields getAbsoluteUri url projectionName ellipsoid (baseUri σ)) in
  let imports := ImportScripts (getAbsoluteUri (text url) (baseUri σ)) in
  match imported with
  | ScriptFails e =>
      r.1 = Throw e ∧
      effects r.2 = effects σ ++ [imports] ∧
      loadedProjectionFunctions r.2 = loadedProjectionFunctions σ ∧
      chains r.2 = chains σ ∧
      createProjectionFunctions r.2 = createProjectionFunctions σ
  | ScriptRuns registers =>
      r.1 = Normal a ∧
      match
        match registers with Some f => Some f | None => createProjectionFunctions σ end
      with
      | Some f =>
          createProjectionFunctions r.2 = Some f ∧
          effects r.2
          = effects σ ++ imports :: CacheStore name
                         :: invoke_effects name f (LoadedCallback a (length (deferreds σ))) ∧
          loadedProjectionFunctions r.2 = <[name := f]> (loadedProjectionFunctions σ) ∧
          (∀ e, invoke_result f = Throw e →
                promise_state r.2 (OfChain c) = Rejected e) ∧
          (∀ calls throws, f = JFactory calls throws →
             adapters r.2 !! a = Some (after_calls calls this) ∧
             promise_state r.2 (OfChain c)
             = match throws, last calls with
               | Some e, _ => Rejected e
               | None, Some _ => Resolved (ResAdapter a)
               | None, None => Pending
               end)
      | None =>
          createProjectionFunctions r.2 = None ∧
          effects r.2 = effects σ ++ [imports] ∧
          loadedProjectionFunctions r.2 = loadedProjectionFunctions σ ∧
          adapters r.2 !! a = Some this ∧
          promise_state r.2 (OfChain c)
          = Rejected (ReferenceError "createProjectionFunctions")
      end
  end.
Proof.
  intros Hreachable Hurl Hname Hcached Hworker r a c name this imports.
  subst r a c name this imports.
  pose proof (consistent_reachable _ Hreachable) as Hcons.
  destruct imported as [e|registers].
  - by rewrite (new_import_fails _ _ _ _ _ e Hurl Hname Hcached Hworker eq_refl).
  - rewrite (new_imported _ _ _ _ _ registers Hurl Hname Hcached Hworker eq_refl).
    sim. split; [done |].
    set (this := fields getAbsoluteUri url projectionName ellipsoid (baseUri σ)).
    destruct (importing_parts this registers σ)
      as (_ & _ & _ & _ & Hcache & Hslot & _ & _ & _ & Heffects).
    pose proof (importing_chain_due this registers σ) as Hch.
    pose proof (lookup_importing this registers σ) as Hthis.
    assert (Hcons1 : consistent None (importing this registers σ))
      by by apply consistent_importing.
    assert (Hstage : ch_stage (importing_chain this σ) = Queued) by done.
    set (σ1 := importing this registers σ) in *.
    rewrite <- Hslot.
    destruct (createProjectionFunctions σ1) as [f|] eqn:Hslot1.
    + split; [by rewrite fetch_then_slot |]. split; [| split; [| split]].
      * rewrite (fetch_then_registered _ _ _ _ Hch Hstage Hslot1). sim.
        rewrite invoke_state_effects. sim. rewrite Heffects.
        by rewrite <- !app_assoc.
      * rewrite fetch_then_cache, Hch, Hslot1.
        cbn [importing_chain ch_stage ch_projectionName]. by rewrite Hcache.
      * intros e He.
        rewrite (fetch_then_registered _ _ _ _ Hch Hstage Hslot1). rewrite He. sim.
        eapply promise_state_failed.
        -- sim. rewrite list_lookup_alter_eq.
           rewrite (same_chains _ _ (invoke_state_surroundings _ _ _ _)). sim.
           by rewrite Hch.
        -- done.
      * intros calls throws ->.
        destruct (fetch_then_factory σ1 _ _ calls throws Hcons1 Hch Hstage Hslot1)
          as (_ & (this1 & Hthis1 & _ & _ & Hafter) & _ & Hpromise).
        cbn [importing_chain ch_customProjection] in *.
        rewrite Hthis in Hthis1. injection Hthis1 as <-. done.
    + rewrite (fetch_then_unregistered _ _ _ Hch Hstage Hslot1). sim.
      split; [done |]. split; [done |]. split; [done |]. split; [done |].
      eapply promise_state_failed.
      * sim. by rewrite list_lookup_alter_eq, Hch.
      * done.
Qed.

(** ** Where the cache and the global slot are written *)

(** A construction writes the cache only where it runs the handler: in a
    worker, under a name that is not cached, after the file ran. *)
Lemma new_cache url projectionName ellipsoid imported σ :
  let σ' := (new_CustomProjection getAbsoluteUri typeOf_string url projectionName
               ellipsoid imported σ).2 in
  loadedProjectionFunctions σ' = loadedProjectionFunctions σ ∨
  ∃ f, inWorker σ = true ∧
       defined (property (loadedProjectionFunctions σ) (text projectionName)) = false ∧
       createProjectionFunctions σ' = Some f ∧
       loadedProjectionFunctions σ'
       = <[text projectionName := f]> (loadedProjectionFunctions σ).
Proof.
  intros σ'. subst σ'.
  set (this := fields getAbsoluteUri url projectionName ellipsoid (baseUri σ)).
  destruct (typeOf_string url && typeOf_string projectionName) eqn:Hvalid.
  - apply andb_true_iff in Hvalid as [Hurl Hname].
    destruct (defined (property (loadedProjectionFunctions σ) (text projectionName)))
      eqn:Hcached.
    + left. rewrite (new_cached _ _ _ _ _ Hurl Hname Hcached).
      destruct (invoke_result _); sim;
        by rewrite (same_cache _ _ (invoke_state_surroundings _ _ _ _)).
    + destruct (inWorker σ) eqn:Hworker.
      * destruct imported as [e|registers].
        -- left.
           by rewrite (new_import_fails _ _ _ _ _ e Hurl Hname Hcached Hworker eq_refl).
        -- rewrite (new_imported _ _ _ _ _ registers Hurl Hname Hcached Hworker
                      eq_refl).
           sim. fold this.
           destruct (importing_parts this registers σ)
             as (_ & _ & _ & _ & Hcache & _).
           pose proof (importing_chain_due this registers σ) as Hch.
           rewrite fetch_then_slot, fetch_then_cache, Hch.
           cbn [importing_chain ch_stage ch_projectionName].
           destruct (createProjectionFunctions (importing this registers σ)) as [f|];
             [right; exists f | left]; by rewrite Hcache.
      * left. by rewrite (new_fetching _ _ _ _ _ Hurl Hname Hcached Hworker).
  - destruct (new_invalid url projectionName ellipsoid imported σ Hvalid)
      as [message ->].
    by left.
Qed.

Lemma after_cache e σ :
  is_then e = false → is_new e = false →
  loadedProjectionFunctions (after getAbsoluteUri typeOf_string e σ)
  = loadedProjectionFunctions σ.
Proof.
  intros Hother Hother'. unfold after, step. unfold mbind, mret, M_bind, M_ret.
  destruct e as [url projectionName ellipsoid imported|c fetched|c|k project unproject
                |a input result|a input result|o|base];
    rewrite ?snd_then_ret; try done.
  - apply fetch_settles_cache.
  - apply callback_fires_surroundings.
  - destruct (project_quiet a input result σ) as [added []]. done.
  - destruct (unproject_quiet a input result σ) as [added []]. done.
Qed.

(** A name that has a defined entry keeps that entry through every event
    in which no handler left due by a fetch runs. *)
Lemma after_entry e σ name :
  is_then e = false →
  defined (property (loadedProjectionFunctions σ) name) = true →
  property (loadedProjectionFunctions (after getAbsoluteUri typeOf_string e σ)) name
  = property (loadedProjectionFunctions σ) name.
Proof.
  intros Hother Hdefined.
  destruct (is_new e) eqn:Hnew; [| by rewrite after_cache].
  destruct e as [url projectionName ellipsoid imported| | | | | | |];
    try discriminate Hnew.
  rewrite after_new.
  destruct (new_cache url projectionName ellipsoid imported σ)
    as [->|(f & _ & Hcached & _ & ->)]; [done |].
  unfold property. rewrite lookup_insert_ne; [done |].
  intros Hname. rewrite Hname in Hcached. congruence.
Qed.

(** X9. The cache is written in one place, line 218, in the handler.  An
    event that is neither the run of a handler nor a construction leaves
    the cache as it was: fetches settling, callbacks, [project] and
    [unproject].  When the run of the handler of a chain changes what the
    cache holds under a name, the handler was due, the name is that of
    the chain, and the new entry is what the global slot held.  When a
    construction changes what the cache holds under a name, it ran in a
    worker, where the handler runs inside the constructor; the name is
    the one it was given, which was not cached, and the new entry is what
    the global slot holds.  Nothing removes an entry: a name that has one
    keeps one through every run. *)
Theorem cache_is_written_by_the_handler_only :
  (∀ e σ, is_then e = false → is_new e = false →
     loadedProjectionFunctions (after getAbsoluteUri typeOf_string e σ)
     = loadedProjectionFunctions σ) ∧
  (∀ c σ name,
     loadedProjectionFunctions (after getAbsoluteUri typeOf_string (EThen c) σ) !! name
     ≠ loadedProjectionFunctions σ !! name →
     ∃ ch f, chains σ !! c = Some ch ∧ ch_stage ch = Queued ∧
             ch_projectionName ch = name ∧ createProjectionFunctions σ = Some f ∧
             loadedProjectionFunctions (after getAbsoluteUri typeOf_string (EThen c) σ)
               !! name = Some f) ∧
  (∀ url projectionName ellipsoid imported σ name,
     let σ' := after getAbsoluteUri typeOf_string
                 (ENew url projectionName ellipsoid imported) σ in
     loadedProjectionFunctions σ' !! name ≠ loadedProjectionFunctions σ !! name →
     inWorker σ = true ∧ text projectionName = name ∧
     defined (property (loadedProjectionFunctions σ) name) = false ∧
     ∃ f, createProjectionFunctions σ' = Some f ∧
          loadedProjectionFunctions σ' !! name = Some f) ∧
  (∀ events σ name,
     is_Some (loadedProjectionFunctions σ !! name) →
     is_Some (loadedProjectionFunctions (run getAbsoluteUri typeOf_string events σ)
                !! name)).
Proof.
  assert (Hthen : ∀ c σ,
    loadedProjectionFunctions (after getAbsoluteUri typeOf_string (EThen c) σ)
    = loadedProjectionFunctions (fetch_then c σ).2).
  { intros c σ. unfold after, step. unfold mbind, mret, M_bind, M_ret.
    by rewrite snd_then_ret. }
  split; [exact after_cache |]. split; [| split].
  - intros c σ name. rewrite Hthen, fetch_then_cache.
    destruct (chains σ !! c) as [ch|]; [| done].
    destruct (ch_stage ch) eqn:Hstage; try done.
    destruct (createProjectionFunctions σ) as [f|]; [| done].
    destruct (decide (ch_projectionName ch = name)) as [<-|Hne].
    + intros _. exists ch, f. by rewrite lookup_insert_eq.
    + by rewrite lookup_insert_ne.
  - intros url projectionName ellipsoid imported σ name σ'. subst σ'.
    rewrite after_new.
    destruct (new_cache url projectionName ellipsoid imported σ)
      as [->|(f & Hworker & Hcached & Hslot & ->)]; [done |].
    destruct (decide (text projectionName = name)) as [<-|Hne].
    + intros _. repeat split; try done. exists f. by rewrite lookup_insert_eq.
    + by rewrite lookup_insert_ne.
  - intros events. induction events as [|e events IH]; intros σ name Hsome; [done |].
    rewrite run_cons. apply IH.
    destruct (is_then e) eqn:He.
    + destruct e as [| |c| | | | |]; try discriminate He.
      rewrite Hthen, fetch_then_cache.
      destruct (chains σ !! c) as [ch|]; [| done].
      destruct (ch_stage ch); try done.
      destruct (createProjectionFunctions σ) as [f|]; [| done].
      destruct (decide (ch_projectionName ch = name)) as [<-|Hne].
      * by rewrite lookup_insert_eq.
      * by rewrite lookup_insert_ne.
    + destruct (is_new e) eqn:Hnew; [| by rewrite after_cache].
      destruct e as [url projectionName ellipsoid imported| | | | | | |];
        try discriminate Hnew.
      rewrite after_new.
      destruct (new_cache url projectionName ellipsoid imported σ)
        as [->|(f & _ & _ & _ & ->)]; [done |].
      destruct (decide (text projectionName = name)) as [<-|Hne].
      * by rewrite lookup_insert_eq.
      * by rewrite lookup_insert_ne.
Qed.

Lemma new_slot url projectionName ellipsoid imported σ :
  let σ' := (new_CustomProjection getAbsoluteUri typeOf_string url projectionName
               ellipsoid imported σ).2 in
  createProjectionFunctions σ' = createProjectionFunctions σ ∨
  ∃ f, imported = ScriptRuns (Some f) ∧ createProjectionFunctions σ' = Some f.
Proof.
  intros σ'. subst σ'.
  destruct (typeOf_string url && typeOf_string projectionName) eqn:Hvalid.
  - apply andb_true_iff in Hvalid as [Hurl Hname].
    destruct (defined (property (loadedProjectionFunctions σ) (text projectionName)))
      eqn:Hcached.
    + rewrite (new_cached _ _ _ _ _ Hurl Hname Hcached). left.
      destruct (invoke_result _); sim;
        by rewrite (same_slot _ _ (invoke_state_surroundings _ _ _ _)).
    + destruct (inWorker σ) eqn:Hworker.
      * destruct imported as [e|[f|]].
        -- rewrite (new_import_fails _ _ _ _ _ e Hurl Hname Hcached Hworker eq_refl).
           by left.
        -- rewrite (new_imported _ _ _ _ _ _ Hurl Hname Hcached Hworker eq_refl).
           sim. rewrite fetch_then_slot. right. by exists f.
        -- rewrite (new_imported _ _ _ _ _ _ Hurl Hname Hcached Hworker eq_refl).
           sim. rewrite fetch_then_slot. by left.
      * rewrite (new_fetching _ _ _ _ _ Hurl Hname Hcached Hworker). by left.
  - destruct (new_invalid url projectionName ellipsoid imported σ Hvalid)
      as [message ->].
    by left.
Qed.

Lemma fetch_settles_slot c fetched σ :
  createProjectionFunctions (fetch_settles c fetched σ).2 = createProjectionFunctions σ ∨
  ∃ f, fetched = ScriptRuns (Some f) ∧
       createProjectionFunctions (fetch_settles c fetched σ).2 = Some f.
Proof.
  destruct (chains σ !! c) as [ch|] eqn:Hch;
    [destruct (ch_stage ch) eqn:Hstage |].
  2-5: rewrite fetch_settles_idle; [by left |]; rewrite Hch; simpl; congruence.
  destruct fetched as [e|[f|]].
  - rewrite (fetch_settles_fails _ _ _ _ Hch Hstage). by left.
  - rewrite (fetch_settles_runs _ _ _ _ Hch Hstage). right. by exists f.
  - rewrite (fetch_settles_runs _ _ _ _ Hch Hstage). by left.
Qed.

(** X10. The file never assigns the global [createProjectionFunctions]:
    the constructor, the handler that reads the slot at line 217, the
    callbacks, [project] and [unproject] leave in the slot what it held.
    An event changes what the slot holds only by executing a fetched or
    imported file that registers a value, which the slot then holds. *)
Theorem slot_is_written_by_files_only (e : event) (σ : state) :
  createProjectionFunctions (after getAbsoluteUri typeOf_string e σ)
  = createProjectionFunctions σ ∨
  ∃ f, registered_by e = Some f ∧
       createProjectionFunctions (after getAbsoluteUri typeOf_string e σ) = Some f.
Proof.
  unfold after, step. unfold mbind, mret, M_bind, M_ret.
  destruct e as [url projectionName ellipsoid imported|c fetched|c|k project unproject
                |a input result|a input result|o|base];
    rewrite ?snd_then_ret; try by left.
  - destruct (new_slot url projectionName ellipsoid imported σ) as [?|(f & -> & ?)];
      [by left | right; by exists f].
  - destruct (fetch_settles_slot c fetched σ) as [?|(f & -> & ?)];
      [by left | right; by exists f].
  - left. apply fetch_then_slot.
  - left. apply callback_fires_surroundings.
  - left. destruct (project_quiet a input result σ) as [added []]. done.
  - left. destruct (unproject_quiet a input result σ) as [added []]. done.
Qed.

(** ** What the handler finds in the slot *)

Lemma after_then c σ :
  after getAbsoluteUri typeOf_string (EThen c) σ = (fetch_then c σ).2.
Proof. unfold after, step. unfold mbind, mret, M_bind, M_ret. by rewrite snd_then_ret. Qed.

Lemma after_fetch_settles c fetched σ :
  after getAbsoluteUri typeOf_string (EFetchSettles c fetched) σ
  = (fetch_settles c fetched σ).2.
Proof. unfold after, step. unfold mbind, mret, M_bind, M_ret. by rewrite snd_then_ret. Qed.

(** X11. The handler takes whatever the global slot holds when it runs
    (line 217): the value the fetched file registered, or, when the file
    registered none, the value an earlier file left there.  In a state a
    program reaches, when the file of a fetching chain runs, and the
    handler runs with a factory in the slot, from this file or not, the
    promise is not rejected for a missing entry point: that factory is
    stored in the cache under the name of this chain and called, and the
    adapter of the chain gets the pair the factory hands over. *)
Theorem handler_takes_what_the_slot_holds (σ : state) (c : nat) (ch : chain)
    (registers : option jsval) (calls : list (jsval * jsval)) (throws : option error) :
  reachable getAbsoluteUri typeOf_string σ →
  chains σ !! c = Some ch → ch_stage ch = Fetching →
  match registers with
  | Some f => Some f
  | None => createProjectionFunctions σ
  end = Some (JFactory calls throws) →
  let σ' := run getAbsoluteUri typeOf_string
              [EFetchSettles c (ScriptRuns registers); EThen c] σ in
  let a := ch_customProjection ch in
  property (loadedProjectionFunctions σ') (ch_projectionName ch) = JFactory calls throws ∧
  (∃ this, adapters σ !! a = Some this ∧ _ready this = false ∧
           adapters σ' !! a = Some (after_calls calls this)) ∧
  promise_state σ' (OfChain c)
  = match throws, last calls with
    | Some e, _ => Rejected e
    | None, Some _ => Resolved (ResAdapter a)
    | None, None => Pending
    end.
Proof.
  intros Hreachable Hch Hstage Hslot σ' a. subst σ'.
  pose proof (consistent_after (EFetchSettles c (ScriptRuns registers)) σ
                (consistent_reachable _ Hreachable)) as Hcons.
  rewrite !run_cons, after_then. cbn [run foldl].
  rewrite after_fetch_settles in *.
  rewrite (fetch_settles_runs _ _ _ _ Hch Hstage) in *.
  destruct (fetch_then_factory
              (with_chains (alter (set_stage Queued) c) (registered registers σ)) c
              (set_stage Queued ch) calls throws Hcons)
    as (Hcache & (this & Hthis & Hready & _ & Hthis') & _ & Hpromise); try done.
  { sim. replace (chains (registered registers σ)) with (chains σ)
      by by destruct registers.
    by rewrite list_lookup_alter_eq, Hch. }
  { sim. by destruct registers. }
  split; [done |]. split; [| done].
  exists this. repeat split; try done.
  sim. by destruct registers.
Qed.

(** ** A callback that is called again *)

(** X12. In a state a program reaches, when external code calls a callback
    it was handed (lines 196-201 and 219-224), for the first time or
    again: the adapter of the callback holds the pair of this call, the
    pair of an earlier call being overwritten, and it is ready; its url,
    name, ellipsoid and readiness promise are as before; no other adapter
    is touched; a promise that was settled is as it was, and when the
    adapter was ready already, every promise is. *)
Theorem callback_again_overwrites (σ : state) (k : nat) (cb : closure)
    (project unproject : jsval) :
  reachable getAbsoluteUri typeOf_string σ →
  callbacks σ !! k = Some cb →
  let a := closure_adapter cb in
  let σ' := (callback_fires k project unproject σ).2 in
  (∃ this, adapters σ !! a = Some this ∧
           adapters σ' !! a = Some (wired project unproject this)) ∧
  (∀ a' : loc, a' ≠ a → adapters σ' !! a' = adapters σ !! a') ∧
  (∀ p, promise_state σ p ≠ Pending → promise_state σ' p = promise_state σ p) ∧
  (∀ this, adapters σ !! a = Some this → _ready this = true →
           ∀ p, promise_state σ' p = promise_state σ p).
Proof.
  intros Hreachable Hk a σ'. subst σ'.
  pose proof (consistent_reachable _ Hreachable) as Hcons.
  destruct (cons_callbacks _ _ Hcons _ _ Hk) as (Hd & this & Hthis & _).
  fold a in Hd, Hthis.
  rewrite (callback_fires_known _ _ _ _ _ Hk). sim.
  split; [| split; [| split]].
  - exists this. split; [done |].
    rewrite callback_state_adapter, decide_True by done. by rewrite Hthis.
  - intros a' Hne. by rewrite callback_state_adapter, decide_False.
  - intros p. apply (evolves_settled [CallbackRun a]).
    apply (evolves_callback [] σ σ), evolves_refl.
  - intros this' Hthis' Hready p.
    assert (Hdeferreds : ∀ d : nat,
      deferreds (callback_state cb project unproject σ) !! d = deferreds σ !! d).
    { intros d. rewrite callback_state_deferred.
      destruct (decide (d = closure_deferred cb)) as [->|]; [| done].
      rewrite Hd.
      destruct (cons_flag _ _ Hcons _ _ Hthis') as [[_ ?]|(v & -> & _)];
        [congruence | done]. }
    unfold promise_state. destruct p as [d|c]; [by rewrite Hdeferreds |].
    replace (chains (callback_state cb project unproject σ)) with (chains σ) by done.
    destruct (chains σ !! c) as [ch|]; [| done].
    by rewrite Hdeferreds.
Qed.

(** ** The other adapters *)



(** ** A name the handler has stored *)

Lemma run_entry events σ name :
  Forall (λ e, is_then e = false) events →
  defined (property (loadedProjectionFunctions σ) name) = true →
  property (loadedProjectionFunctions (run getAbsoluteUri typeOf_string events σ)) name
  = property (loadedProjectionFunctions σ) name.
Proof.
  intros Hevents. revert σ.
  induction Hevents as [|e events He _ IH]; intros σ Hdefined; [done |].
  rewrite run_cons, IH; rewrite after_entry; done.
Qed.

Lemma fetch_then_entry c ch f σ :
  chains σ !! c = Some ch → ch_stage ch = Queued →
  createProjectionFunctions σ = Some f →
  property (loadedProjectionFunctions (fetch_then c σ).2) (ch_projectionName ch) = f.
Proof.
  intros Hch Hstage Hslot. rewrite fetch_then_cache, Hch, Hstage, Hslot.
  unfold property. by rewrite lookup_insert_eq.
Qed.

Lemma hit_loads_nothing url projectionName ellipsoid imported σ :
  defined (property (loadedProjectionFunctions σ) (text projectionName)) = true →
  let σ' := (new_CustomProjection getAbsoluteUri typeOf_string url projectionName
               ellipsoid imported σ).2 in
  ∃ added, effects σ' = effects σ ++ added ∧
           Forall (λ e, is_load e = false) added ∧
           chains σ' = chains σ.
Proof.
  intros Hcached σ'. subst σ'.
  destruct (typeOf_string url && typeOf_string projectionName) eqn:Hvalid.
  - apply andb_true_iff in Hvalid as [Hurl Hname].
    rewrite (new_cached _ _ _ _ _ Hurl Hname Hcached).
    set (cb := CachedCallback (length (adapters σ)) (length (deferreds σ))).
    set (this := fields getAbsoluteUri url projectionName ellipsoid (baseUri σ)).
    set (cached := property (loadedProjectionFunctions σ) (text projectionName)).
    exists (invoke_effects (text projectionName) cached cb).
    pose proof (invoke_state_effects (text projectionName) cached cb (allocated this σ))
      as Heffects.
    pose proof (same_chains _ _ (invoke_state_surroundings (text projectionName) cached
                                   cb (allocated this σ))) as Hchains.
    split; [| split; [apply invoke_effects_no_load |]];
      by destruct (invoke_result cached).
  - destruct (new_invalid url projectionName ellipsoid imported σ Hvalid)
      as [message ->].
    exists []. rewrite app_nil_r. by repeat split.
Qed.

(** X14. Once the handler of a due chain has stored a defined value under
    the name of the chain (line 218), the name is cached, whether or not
    the factory has called back: through every run in which no handler
    that waited for a fetch runs, the cache holds that value under the
    name, and a construction under the name calls neither
    [Resource.fetchJsonp] nor [importScripts] and sets up no promise
    chain. *)
Theorem stored_name_is_a_hit (σ : state) (c : nat) (ch : chain) (f : jsval)
    (events : list event) (url : data) (ellipsoid : option Ellipsoid)
    (imported : script) :
  chains σ !! c = Some ch → ch_stage ch = Queued →
  createProjectionFunctions σ = Some f → defined f = true →
  Forall (λ e, is_then e = false) events →
  let σ1 := run getAbsoluteUri typeOf_string events (fetch_then c σ).2 in
  let σ2 := (new_CustomProjection getAbsoluteUri typeOf_string url
               (VString (ch_projectionName ch)) ellipsoid imported σ1).2 in
  property (loadedProjectionFunctions σ1) (ch_projectionName ch) = f ∧
  ∃ added, effects σ2 = effects σ1 ++ added ∧
           Forall (λ e, is_load e = false) added ∧
           chains σ2 = chains σ1.
Proof.
  intros Hch Hstage Hslot Hdefined Hevents σ1 σ2.
  assert (Hcached : property (loadedProjectionFunctions σ1) (ch_projectionName ch) = f).
  { pose proof (fetch_then_entry _ _ _ _ Hch Hstage Hslot) as Hentry.
    subst σ1. rewrite run_entry; [done | done | by rewrite Hentry]. }
  split; [done |]. apply hit_loads_nothing. cbn [text]. by rewrite Hcached.
Qed.

(** X15. The handler stores what the global slot holds before it calls it
    (lines 218-219).  When that is a defined value that is plain data, a
    number for one, the call fails and the promise of the chain is
    rejected, but the value stays in the cache: through every run in which
    no handler that waited for a fetch runs, every construction under
    that name, with arguments that pass the check, throws the [TypeError]
    of the call of line 196 out of the constructor, having loaded
    nothing. *)
Theorem uncallable_entry_poisons_the_name (σ : state) (c : nat) (ch : chain)
    (v : data) (events : list event) (url : data) (ellipsoid : option Ellipsoid)
    (imported : script) :
  chains σ !! c = Some ch → ch_stage ch = Queued →
  createProjectionFunctions σ = Some (JData v) → defined (JData v) = true →
  Forall (λ e, is_then e = false) events →
  typeOf_string url = true → typeOf_string (VString (ch_projectionName ch)) = true →
  let σ1 := run getAbsoluteUri typeOf_string events (fetch_then c σ).2 in
  promise_state σ1 (OfChain c) = Rejected (TypeError "factory is not a function") ∧
  ∃ σ2,
    new_CustomProjection getAbsoluteUri typeOf_string url
      (VString (ch_projectionName ch)) ellipsoid imported σ1
    = (Throw (TypeError "factory is not a function"), σ2) ∧
    effects σ2 = effects σ1 ∧ chains σ2 = chains σ1.
Proof.
  intros Hch Hstage Hslot Hdefined Hevents Hurl Hname σ1.
  assert (Hcached : property (loadedProjectionFunctions σ1) (ch_projectionName ch)
                    = JData v).
  { pose proof (fetch_then_entry _ _ _ _ Hch Hstage Hslot) as Hentry.
    subst σ1. rewrite run_entry; [done | done | by rewrite Hentry]. }
  split.
  - subst σ1. apply rejected_for_good.
    rewrite (fetch_then_registered _ _ _ _ Hch Hstage Hslot).
    cbn [invoke_state invoke_result]. sim.
    eapply promise_state_failed.
    + sim. by rewrite list_lookup_alter_eq, Hch.
    + done.
  - rewrite (new_cached _ _ _ _ _ Hurl Hname) by (cbn [text]; by rewrite Hcached).
    cbn [text]. rewrite Hcached. cbn [invoke_result invoke_state].
    eexists. split; [done |]. by split.
Qed.

(** ** A load that has failed *)

(** While the fetch of a chain is under way or its handler is due, no
    callback of its adapter exists, and the adapter is not ready. *)
Lemma open_chain_unreached σ c ch :
  consistent None σ →
  chains σ !! c = Some ch → terminal (ch_stage ch) = false →
  unreached (ch_customProjection ch) σ = true ∧
  ∃ this, adapters σ !! ch_customProjection ch = Some this ∧ _ready this = false.
Proof.
  intros Hcons Hch Hopen.
  destruct (cons_chains _ _ Hcons _ _ Hch) as (_ & this & Hthis & Hp & Hflag).
  split; [| exists this; split; [done | by apply Hflag]].
  apply unreached_lookup. intros k cb Hk Ha.
  destruct (cons_callbacks _ _ Hcons _ _ Hk) as (_ & this' & Hthis' & Hkind).
  rewrite Ha, Hthis in Hthis'. injection Hthis' as <-.
  destruct cb as [a' d'|a' d'].
  - by apply (Hkind c).
  - destruct Hkind as (c' & ch' & Hp' & Hch' & [Hterminal|Hrunning]); [| done].
    rewrite Hp in Hp'. injection Hp' as <-.
    rewrite Hch in Hch'. injection Hch' as <-. congruence.
Qed.

Lemma fetch_then_callbacks c ch σ :
  chains σ !! c = Some ch →
  callbacks (fetch_then c σ).2 = callbacks σ ∨
  callbacks (fetch_then c σ).2
  = callbacks σ ++ [LoadedCallback (ch_customProjection ch) (ch_deferred ch)].
Proof.
  intros Hch. destruct (ch_stage ch) eqn:Hstage.
  1,3-4: rewrite fetch_then_idle; [by left |]; rewrite Hch; simpl; congruence.
  destruct (createProjectionFunctions σ) as [f|] eqn:Hslot.
  - rewrite (fetch_then_registered _ _ _ _ Hch Hstage Hslot). sim.
    apply (invoke_state_callbacks _ _ _
             (with_effects _ (with_cache (<[ch_projectionName ch := f]>) σ))).
  - rewrite (fetch_then_unregistered _ _ _ Hch Hstage Hslot). by left.
Qed.

(** A construction hands out at most one callback, of the adapter it
    makes. *)
Lemma new_callbacks url projectionName ellipsoid imported σ :
  let σ' := (new_CustomProjection getAbsoluteUri typeOf_string url projectionName
               ellipsoid imported σ).2 in
  callbacks σ' = callbacks σ ∨
  ∃ cb, closure_adapter cb = length (adapters σ) ∧
        callbacks σ' = callbacks σ ++ [cb].
Proof.
  intros σ'. subst σ'.
  set (this := fields getAbsoluteUri url projectionName ellipsoid (baseUri σ)).
  destruct (typeOf_string url && typeOf_string projectionName) eqn:Hvalid.
  - apply andb_true_iff in Hvalid as [Hurl Hname].
    destruct (defined (property (loadedProjectionFunctions σ) (text projectionName)))
      eqn:Hcached.
    + rewrite (new_cached _ _ _ _ _ Hurl Hname Hcached). fold this.
      destruct (invoke_state_callbacks (text projectionName)
                  (property (loadedProjectionFunctions σ) (text projectionName))
                  (CachedCallback (length (adapters σ)) (length (deferreds σ)))
                  (allocated this σ)) as [Hsame|Hmore];
        [left | right; exists (CachedCallback (length (adapters σ)) (length (deferreds σ)));
                split; [done |]];
        by destruct (invoke_result _).
    + destruct (inWorker σ) eqn:Hworker.
      * destruct imported as [e|registers].
        -- left.
           by rewrite (new_import_fails _ _ _ _ _ e Hurl Hname Hcached Hworker eq_refl).
        -- rewrite (new_imported _ _ _ _ _ registers Hurl Hname Hcached Hworker
                      eq_refl).
           sim. fold this.
           destruct (importing_parts this registers σ) as (_ & _ & _ & Hk & _).
           destruct (fetch_then_callbacks _ _ _ (importing_chain_due this registers σ))
             as [Hsame|Hmore]; [left | right]; rewrite <- Hk; [done |].
           by exists (LoadedCallback (length (adapters σ)) (length (deferreds σ))).
      * left. by rewrite (new_fetching _ _ _ _ _ Hurl Hname Hcached Hworker).
  - destruct (new_invalid url projectionName ellipsoid imported σ Hvalid)
      as [message ->].
    by left.
Qed.

Lemma stranded_after e σ c a :
  stranded c a σ → stranded c a (after getAbsoluteUri typeOf_string e σ).
Proof.
  intros [Hcons (ch & err & Hch & Hch_a & Hstage) Hunreached (this & Hthis & Hready)].
  assert (Hkept :
    unreached a (after getAbsoluteUri typeOf_string e σ) = true ∧
    adapters (after getAbsoluteUri typeOf_string e σ) !! a = adapters σ !! a).
  { pose proof (lookup_lt_Some _ _ _ Hthis) as Ha.
    unfold after, step. unfold mbind, mret, M_bind, M_ret.
    destruct e as [url projectionName ellipsoid imported|c' fetched|c'
                  |k project unproject|a' input result|a' input result|o|base];
      rewrite ?snd_then_ret.
    - split; [| by apply new_others].
      unfold unreached in *.
      destruct (new_callbacks url projectionName ellipsoid imported σ)
        as [-> | (cb & Hcb & ->)]; [done |].
      rewrite forallb_app, Hunreached. simpl.
      rewrite bool_decide_eq_true_2; [done | lia].
    - destruct (chains σ !! c') as [ch'|] eqn:Hch';
        [destruct (ch_stage ch') eqn:Hstage' |].
      2-5: rewrite fetch_settles_idle; [done |]; rewrite Hch'; simpl; congruence.
      destruct fetched as [e|registers].
      + by rewrite (fetch_settles_fails _ _ _ _ Hch' Hstage').
      + rewrite (fetch_settles_runs _ _ _ _ Hch' Hstage'). by destruct registers.
    - destruct (chains σ !! c') as [ch'|] eqn:Hch';
        [destruct (ch_stage ch') eqn:Hstage' |].
      1,3-5: rewrite fetch_then_idle; [done |]; rewrite Hch'; simpl; congruence.
      destruct (createProjectionFunctions σ) as [f|] eqn:Hslot.
      + rewrite (fetch_then_registered _ _ _ _ Hch' Hstage' Hslot). sim.
        assert (Hne : ch_customProjection ch' ≠ a).
        { intros Ha'.
          destruct (cons_chains _ _ Hcons _ _ Hch) as (_ & this1 & Hthis1 & Hp1 & _).
          destruct (cons_chains _ _ Hcons _ _ Hch') as (_ & this2 & Hthis2 & Hp2 & _).
          rewrite Hch_a, Hthis in Hthis1. injection Hthis1 as <-.
          rewrite Ha', Hthis in Hthis2. injection Hthis2 as <-.
          rewrite Hp1 in Hp2. injection Hp2 as <-.
          rewrite Hch in Hch'. injection Hch' as <-. congruence. }
        split.
        * by apply unreached_invoke.
        * by rewrite (proj1 (invoke_state_others _ _ _ _)).
      + by rewrite (fetch_then_unregistered _ _ _ Hch' Hstage' Hslot).
    - destruct (callbacks σ !! k) as [cb|] eqn:Hk.
      + rewrite (callback_fires_known _ _ _ _ _ Hk). sim. split; [done |].
        rewrite callback_state_adapter, decide_False; [done |].
        intros ->. by apply (proj1 (unreached_lookup _ _) Hunreached k cb).
      + by rewrite (callback_fires_unknown _ _ _ _ Hk).
    - destruct (project_quiet a' input result σ) as [added [_ _ _ _ Hsame _ _ Hsame']].
      unfold unreached. by rewrite Hsame, Hsame'.
    - destruct (unproject_quiet a' input result σ) as [added [_ _ _ _ Hsame _ _ Hsame']].
      unfold unreached. by rewrite Hsame, Hsame'.
    - done.
    - done. }
  destruct Hkept as [Hunreached' Hadapter].
  split.
  - by apply consistent_after.
  - destruct (evolves_after e σ) as [added Hev].
    destruct (ev_chains _ _ _ Hev _ _ Hch) as (ch' & Hch' & Ha' & _ & _ & Hstage').
    exists ch', err. split; [done |]. split; [congruence |].
    rewrite Hstage'; [done |]. by rewrite Hstage.
  - done.
  - exists this. by rewrite Hadapter.
Qed.

Lemma stranded_run events σ c a :
  stranded c a σ → stranded c a (run getAbsoluteUri typeOf_string events σ).
Proof.
  revert σ. induction events as [|e events IH]; intros σ Hσ; [done |].
  rewrite run_cons. by apply IH, stranded_after.
Qed.

Lemma stranded_final events σ c a :
  stranded c a σ →
  promise_state (run getAbsoluteUri typeOf_string events σ) (OfChain c)
  = promise_state σ (OfChain c) ∧
  ∃ this, adapters (run getAbsoluteUri typeOf_string events σ) !! a = Some this ∧
          _ready this = false.
Proof.
  intros Hσ. split; [| apply (stranded_flag _ _ _ (stranded_run events σ c a Hσ))].
  destruct (stranded_chain _ _ _ Hσ) as (ch & e & Hch & _ & Hstage).
  destruct (evolves_run events σ) as [added Hev].
  apply (evolves_settled added); [done |].
  by rewrite (promise_state_failed _ _ _ _ Hch Hstage).
Qed.

(** X16. In a state a program reaches, when the fetch of a chain fails
    (the rejection of [Resource.fetchJsonp] passes through the handlers of
    lines 215-230, which are for fulfilment), or when its handler finds
    nothing in the global slot (line 217), the load has failed for good:
    the handler has stored nothing in the cache and has called no
    factory; through every later run, other loads of the same name
    succeeding included, the readiness promise stays rejected with that
    error and the adapter is never ready. *)
Theorem failed_load_is_final (σ : state) (c : nat) (ch : chain)
    (events : list event) :
  reachable getAbsoluteUri typeOf_string σ →
  chains σ !! c = Some ch →
  let a := ch_customProjection ch in
  (∀ e, ch_stage ch = Fetching →
     let σ1 := (fetch_settles c (ScriptFails e) σ).2 in
     let σ' := run getAbsoluteUri typeOf_string events σ1 in
     loadedProjectionFunctions σ1 = loadedProjectionFunctions σ ∧
     effects σ1 = effects σ ∧
     promise_state σ' (OfChain c) = Rejected e ∧
     ∃ this, adapters σ' !! a = Some this ∧ _ready this = false) ∧
  (ch_stage ch = Queued → createProjectionFunctions σ = None →
     let σ1 := (fetch_then c σ).2 in
     let σ' := run getAbsoluteUri typeOf_string events σ1 in
     loadedProjectionFunctions σ1 = loadedProjectionFunctions σ ∧
     effects σ1 = effects σ ∧
     promise_state σ' (OfChain c) = Rejected (ReferenceError "createProjectionFunctions") ∧
     ∃ this, adapters σ' !! a = Some this ∧ _ready this = false).
Proof.
  intros Hreachable Hch a.
  pose proof (consistent_reachable _ Hreachable) as Hcons.
  split.
  - intros e Hstage σ1 σ'.
    destruct (open_chain_unreached σ c ch Hcons Hch) as [Hunreached Hflag];
      [by rewrite Hstage |].
    assert (Hσ1 : stranded c a σ1).
    { split.
      - by apply consistent_fetch_settles.
      - subst σ1. rewrite (fetch_settles_fails _ _ _ _ Hch Hstage). sim.
        exists (set_stage (Failed e) ch), e.
        by rewrite list_lookup_alter_eq, Hch.
      - subst σ1. by rewrite (fetch_settles_fails _ _ _ _ Hch Hstage).
      - subst σ1. by rewrite (fetch_settles_fails _ _ _ _ Hch Hstage). }
    destruct (stranded_final events σ1 c a Hσ1) as [Hpromise Hready].
    split; [| split; [| split; [| done]]].
    + subst σ1. by rewrite (fetch_settles_fails _ _ _ _ Hch Hstage).
    + subst σ1. by rewrite (fetch_settles_fails _ _ _ _ Hch Hstage).
    + subst σ'. rewrite Hpromise. subst σ1.
      rewrite (fetch_settles_fails _ _ _ _ Hch Hstage).
      eapply promise_state_failed.
      * sim. by rewrite list_lookup_alter_eq, Hch.
      * done.
  - intros Hstage Hslot σ1 σ'.
    destruct (open_chain_unreached σ c ch Hcons Hch) as [Hunreached Hflag];
      [by rewrite Hstage |].
    assert (Hσ1 : stranded c a σ1).
    { split.
      - by apply consistent_fetch_then.
      - subst σ1. rewrite (fetch_then_unregistered _ _ _ Hch Hstage Hslot). sim.
        exists (set_stage (Failed (ReferenceError "createProjectionFunctions")) ch),
          (ReferenceError "createProjectionFunctions").
        by rewrite list_lookup_alter_eq, Hch.
      - subst σ1. by rewrite (fetch_then_unregistered _ _ _ Hch Hstage Hslot).
      - subst σ1. by rewrite (fetch_then_unregistered _ _ _ Hch Hstage Hslot). }
    destruct (stranded_final events σ1 c a Hσ1) as [Hpromise Hready].
    split; [| split; [| split; [| done]]].
    + subst σ1. by rewrite (fetch_then_unregistered _ _ _ Hch Hstage Hslot).
    + subst σ1. by rewrite (fetch_then_unregistered _ _ _ Hch Hstage Hslot).
    + subst σ'. rewrite Hpromise. subst σ1.
      rewrite (fetch_then_unregistered _ _ _ Hch Hstage Hslot).
      eapply promise_state_failed.
      * sim. by rewrite list_lookup_alter_eq, Hch.
      * done.
Qed.

(** ** One attempt for each construction *)

Lemma call_effects f e input result σ :
  effects (call f e input result σ).2 = effects σ ∨
  effects (call f e input result σ).2 = effects σ ++ [e].
Proof.
  unfold call, log. unfold_monad.
  destruct f as [d|f|calls throws]; sim; [by left | | by left].
  destruct (f input result (heap σ)) as [[[]|err] h']; sim; by right.
Qed.

Lemma project_effects a input result σ :
  ∃ added, effects (project a input result σ).2 = effects σ ++ added ∧
           Forall (λ x, is_load x = false) added.
Proof.
  unfold project, adapter, Check_defined, new_Cartesian3, allocate. unfold_monad.
  assert (Hnone : ∃ added, effects σ = effects σ ++ added ∧
                           Forall (λ x, is_load x = false) added).
  { exists []. by rewrite app_nil_r. }
  destruct (adapters σ !! a) as [this|]; sim; [| done].
  destruct (_ready this); sim; [| done].
  destruct (defined (JData input)); sim; [| done].
  destruct (defined (JData result)); sim.
  - destruct (call_effects (_project this) (ProjectCall a) input result σ) as [He|He];
      destruct (call _ _ _ _ σ) as [[] ?]; sim; rewrite He; try done.
    all: exists [ProjectCall a]; split; [done |]; by repeat constructor.
  - set (σ1 := with_heap (heap σ ++ [Cartesian3 0 0 0]) σ).
    destruct (call_effects (_project this) (ProjectCall a) input
                (VObject (length (heap σ))) σ1) as [He|He];
      destruct (call _ _ _ _ σ1) as [[] ?]; sim; rewrite He; try done.
    all: exists [ProjectCall a]; split; [done |]; by repeat constructor.
Qed.

Lemma unproject_effects a input result σ :
  ∃ added, effects (unproject a input result σ).2 = effects σ ++ added ∧
           Forall (λ x, is_load x = false) added.
Proof.
  unfold unproject, adapter, Check_defined, new_Cartographic, allocate. unfold_monad.
  assert (Hnone : ∃ added, effects σ = effects σ ++ added ∧
                           Forall (λ x, is_load x = false) added).
  { exists []. by rewrite app_nil_r. }
  destruct (adapters σ !! a) as [this|]; sim; [| done].
  destruct (_ready this); sim; [| done].
  destruct (defined (JData input)); sim; [| done].
  destruct (defined (JData result)); sim.
  - destruct (call_effects (_unproject this) (UnprojectCall a) input result σ)
      as [He|He];
      destruct (call _ _ _ _ σ) as [[] ?]; sim; rewrite He; try done.
    all: exists [UnprojectCall a]; split; [done |]; by repeat constructor.
  - set (σ1 := with_heap (heap σ ++ [Cartographic 0 0 0]) σ).
    destruct (call_effects (_unproject this) (UnprojectCall a) input
                (VObject (length (heap σ))) σ1) as [He|He];
      destruct (call _ _ _ _ σ1) as [[] ?]; sim; rewrite He; try done.
    all: exists [UnprojectCall a]; split; [done |]; by repeat constructor.
Qed.

(** X17. One attempt is made for each construction, and none is made
    again.  A construction adds to the calls the file makes either no
    load at all (arguments refused, or a cache hit), or one load, which
    comes first: [Resource.fetchJsonp] in a page, and nothing after it;
    [importScripts] in a worker, followed by the calls of the handler
    that runs inside the constructor, none of which is a load.  No other
    event ever loads: not a fetch that fails, not a handler that finds no
    entry point or whose factory throws, not a callback, not [project] or
    [unproject]. *)
Theorem one_load_attempt_per_construction (e : event) (σ : state) :
  ∃ added,
    effects (after getAbsoluteUri typeOf_string e σ) = effects σ ++ added ∧
    (Forall (λ x, is_load x = false) added ∨
     is_new e = true ∧
     ∃ url rest,
       added = (if inWorker σ then ImportScripts url else FetchJsonp url) :: rest ∧
       Forall (λ x, is_load x = false) rest ∧
       (inWorker σ = false → rest = [])).
Proof.
  assert (Hnone : ∃ added,
    effects σ = effects σ ++ added ∧
    (Forall (λ x, is_load x = false) added ∨
     is_new e = true ∧
     ∃ url rest,
       added = (if inWorker σ then ImportScripts url else FetchJsonp url) :: rest ∧
       Forall (λ x, is_load x = false) rest ∧
       (inWorker σ = false → rest = []))).
  { exists []. rewrite app_nil_r. split; [done |]. by left. }
  unfold after, step. unfold mbind, mret, M_bind, M_ret.
  destruct e as [url projectionName ellipsoid imported|c fetched|c|k project unproject
                |a input result|a input result|o|base];
    rewrite ?snd_then_ret; try done.
  - set (this := fields getAbsoluteUri url projectionName ellipsoid (baseUri σ)).
    destruct (typeOf_string url && typeOf_string projectionName) eqn:Hvalid.
    + apply andb_true_iff in Hvalid as [Hurl Hname].
      destruct (defined (property (loadedProjectionFunctions σ) (text projectionName)))
        eqn:Hcached.
      * destruct (hit_loads_nothing url projectionName ellipsoid imported σ Hcached)
          as (added & Heffects & Hadded & _).
        exists added. split; [done |]. by left.
      * destruct (inWorker σ) eqn:Hworker.
        -- destruct imported as [e|registers].
           ++ rewrite (new_import_fails _ _ _ _ _ e Hurl Hname Hcached Hworker eq_refl).
              exists [ImportScripts (_url this)]. split; [done |].
              right. split; [done |]. by exists (_url this), [].
           ++ rewrite (new_imported _ _ _ _ _ registers Hurl Hname Hcached Hworker
                         eq_refl).
              sim. fold this.
              destruct (fetch_then_effects (length (chains σ))
                          (importing this registers σ)) as (rest & -> & Hrest).
              destruct (importing_parts this registers σ)
                as (_ & _ & _ & _ & _ & _ & _ & _ & _ & ->).
              exists (ImportScripts (_url this) :: rest).
              split; [by rewrite <- app_assoc |].
              right. split; [done |]. by exists (_url this), rest.
        -- exists [FetchJsonp (_url this)]. split.
           ++ by rewrite (new_fetching _ _ _ _ _ Hurl Hname Hcached Hworker).
           ++ right. split; [done |]. by exists (_url this), [].
    + destruct (new_invalid url projectionName ellipsoid imported σ Hvalid)
        as [message ->].
      done.
  - destruct (chains σ !! c) as [ch|] eqn:Hch;
      [destruct (ch_stage ch) eqn:Hstage |].
    2-5: rewrite fetch_settles_idle; [done |]; rewrite Hch; simpl; congruence.
    destruct fetched as [err|registers].
    + by rewrite (fetch_settles_fails _ _ _ _ Hch Hstage).
    + rewrite (fetch_settles_runs _ _ _ _ Hch Hstage). by destruct registers.
  - destruct (fetch_then_effects c σ) as (added & Heffects & Hadded).
    exists added. split; [done |]. by left.
  - destruct (callbacks σ !! k) as [cb|] eqn:Hk.
    + rewrite (callback_fires_known _ _ _ _ _ Hk). sim.
      eexists. split; [done |]. left. by repeat constructor.
    + by rewrite (callback_fires_unknown _ _ _ _ Hk).
  - destruct (project_effects a input result σ) as (added & Heffects & Hadded).
    exists added. split; [done |]. by left.
  - destruct (unproject_effects a input result σ) as (added & Heffects & Hadded).
    exists added. split; [done |]. by left.
Qed.

(** ** Whose promise, and where a rejection comes from *)

(** X18. Every adapter has a readiness promise of its own: in a state a
    program reaches, the readiness promises of two different adapters are
    different promises, also when the adapters were constructed under one
    name and the second came out of the cache ([when.defer()] at line 194
    is called for each). *)
Theorem readiness_promises_are_not_shared (σ : state) (a a' : loc)
    (this this' : CustomProjection) (p p' : promise) :
  reachable getAbsoluteUri typeOf_string σ →
  adapters σ !! a = Some this → adapters σ !! a' = Some this' →
  readyPromise this = Some p → readyPromise this' = Some p' →
  a ≠ a' → p ≠ p'.
Proof.
  intros Hreachable Hthis Hthis' Hp Hp' Hne <-. apply Hne.
  pose proof (consistent_reachable _ Hreachable) as Hcons.
  destruct (wired_promise σ a this p Hcons Hthis Hp)
    as ([->|(c & ch & -> & Hch & Hch_a)] & _);
  destruct (wired_promise σ a' this' _ Hcons Hthis' Hp')
    as ([Heq|(c' & ch' & Heq & Hch' & Hch_a')] & _); try done.
  - by injection Heq.
  - injection Heq as <-. congruence.
Qed.

(** X19. The file never rejects a deferred; a rejection comes from the
    fetch or from an exception in the handler, through the chain of lines
    215-230.  In a state a program reaches, a readiness promise that is
    rejected is a chain that failed with that error; the promise of an
    adapter that came out of the cache is never rejected: it is pending
    while the adapter is not ready and resolved with the adapter once it
    is. *)
Theorem rejection_comes_from_the_chain (σ : state) (a : loc)
    (this : CustomProjection) (p : promise) :
  reachable getAbsoluteUri typeOf_string σ →
  adapters σ !! a = Some this → readyPromise this = Some p →
  (∀ e, promise_state σ p = Rejected e →
        ∃ c ch, p = OfChain c ∧ chains σ !! c = Some ch ∧ ch_stage ch = Failed e) ∧
  (∀ d, p = OfDeferred d →
        promise_state σ p
        = if _ready this then Resolved (ResAdapter a) else Pending).
Proof.
  intros Hreachable Hthis Hp.
  pose proof (consistent_reachable _ Hreachable) as Hcons.
  assert (Hcell : deferreds σ !! a = Some Pending ∧ _ready this = false ∨
                  ∃ v, deferreds σ !! a = Some (Resolved v) ∧ _ready this = true ∧
                       ((∀ c, _readyPromise this ≠ Some (OfChain c)) → v = ResAdapter a)).
  { destruct (cons_flag _ _ Hcons _ _ Hthis) as [[? ?]|(v & ? & ? & ?)];
      [by left | right; by exists v]. }
  destruct (wired_promise σ a this p Hcons Hthis Hp)
    as ([->|(c & ch & -> & Hch & Hch_a)] & _).
  - split.
    + intros e. unfold promise_state.
      by destruct Hcell as [[-> _]|(v & -> & _)].
    + intros d _. unfold promise_state.
      destruct Hcell as [[-> ->]|(v & -> & -> & Hv)]; [done |].
      simpl. rewrite Hv; [done |]. intros c. unfold readyPromise in Hp. congruence.
  - split; [| done].
    intros e. unfold promise_state. rewrite Hch.
    destruct (cons_chains _ _ Hcons _ _ Hch) as (Hd & _).
    destruct (ch_stage ch) eqn:Hstage; try done.
    + rewrite Hd, Hch_a. by destruct Hcell as [[-> _]|(v & -> & _)].
    + intros [= ->]. by exists c, ch.
Qed.

(** ** The other accessors *)

(** X20. For the adapter a construction returns, the accessors
    [ellipsoid], [projectionName] and [readyPromise] (lines 70-74, 105-109
    and 131-135) give the ellipsoid supplied, or [Ellipsoid.WGS84] when none
    was (line 47), the name supplied (line 52) and the promise line 58
    stored; they give the same through every later run of events: nothing
    assigns these fields again. *)
Theorem accessors_are_fixed (σ : state) (u n : string) (supplied : option Ellipsoid)
    (imported : script) (a : loc) (σ' : state) (events : list event) :
  new_CustomProjection getAbsoluteUri typeOf_string (VString u) (VString n) supplied
    imported σ
  = (Normal a, σ') →
  ∃ p this this',
    adapters σ' !! a = Some this ∧ readyPromise this = Some p ∧
    adapters (run getAbsoluteUri typeOf_string events σ') !! a = Some this' ∧
    ellipsoid this' = defaultValue supplied WGS84 ∧
    projectionName this' = n ∧
    readyPromise this' = Some p.
Proof.
  intros Hnew.
  destruct (new_returns _ _ _ _ _ _ _ Hnew)
    as (_ & this & Hthis & _ & Hname & Hell & [p Hp]).
  destruct (evolves_run events σ') as [added Hev].
  destruct (ev_adapters _ _ _ Hev _ _ Hthis)
    as (this' & Hthis' & _ & Hname' & Hell' & _ & Hp').
  exists p, this, this'. unfold ellipsoid, projectionName, readyPromise.
  repeat split; try done.
  - by rewrite Hell'.
  - by rewrite Hname'.
  - by apply Hp'.
Qed.

(** ** Arguments that pass the check *)

(** When both arguments pass the check, lines 47-57 run: whatever the
    constructor does next and whether it returns or throws, the adapter
    is there, with the url resolved against the base, the name and the
    ellipsoid. *)
Lemma new_allocates url projectionName ellipsoid imported σ :
  typeOf_string url = true → typeOf_string projectionName = true →
  ∃ this',
    adapters (new_CustomProjection getAbsoluteUri typeOf_string url projectionName
                ellipsoid imported σ).2 !! length (adapters σ) = Some this' ∧
    _url this' = getAbsoluteUri (text url) (baseUri σ) ∧
    _projectionName this' = text projectionName ∧
    _ellipsoid this' = defaultValue ellipsoid WGS84.
Proof.
  intros Hurl Hname.
  set (this := fields getAbsoluteUri url projectionName ellipsoid (baseUri σ)).
  destruct (defined (property (loadedProjectionFunctions σ) (text projectionName)))
    eqn:Hcached.
  - rewrite (new_cached _ _ _ _ _ Hurl Hname Hcached). fold this.
    destruct (ev_adapters _ _ _
      (evolves_invoke [] _ _ (text projectionName)
         (property (loadedProjectionFunctions σ) (text projectionName))
         (CachedCallback (length (adapters σ)) (length (deferreds σ)))
         (evolves_refl (allocated this σ)))
      _ _ (lookup_allocated this σ)) as (this' & Hthis' & Hurl' & Hname' & Hell & _).
    destruct (invoke_result _); sim; rewrite ?list_lookup_alter_eq, Hthis';
      eexists; (split; [done |]); by repeat split.
  - destruct (inWorker σ) eqn:Hworker.
    + destruct imported as [e|registers].
      * rewrite (new_import_fails _ _ _ _ _ e Hurl Hname Hcached Hworker eq_refl).
        sim. fold this. rewrite lookup_allocated. by exists this.
      * rewrite (new_imported _ _ _ _ _ registers Hurl Hname Hcached Hworker eq_refl).
        sim. fold this.
        destruct (evolves_fetch_then (length (chains σ)) (importing this registers σ))
          as [added Hthen].
        destruct (ev_adapters _ _ _ Hthen _ _ (lookup_importing this registers σ))
          as (this' & -> & Hurl' & Hname' & Hell & _).
        eexists. split; [done |]. by rewrite Hurl', Hname', Hell.
    + rewrite (new_fetching _ _ _ _ _ Hurl Hname Hcached Hworker). sim. fold this.
      rewrite list_lookup_alter_eq, lookup_allocated. by eexists.
Qed.

End Theory.

(** ** Validation of the constructor's arguments *)

(** C4, as the code has it.  Lines 44-45 test the type of [url] and of
    [projectionName], and nothing else.  When either is missing or is not
    a string, the constructor throws a [DeveloperError] at once, in the
    call itself, and has changed nothing: no adapter was made and no load
    was started.  When both are strings, the empty string included, both
    checks pass: lines 47-57 run and the adapter is made, with the url
    resolved against the base and the name as given. *)
Theorem constructor_checks_the_type_only (getAbsoluteUri : string → string → string)
    (σ : state) (url projectionName : data) (ellipsoid : option Ellipsoid)
    (imported : script) :
  let new := new_CustomProjection getAbsoluteUri is_string url projectionName
               ellipsoid imported σ in
  (is_string url = false ∨ is_string projectionName = false →
   ∃ message, new = (Throw (DeveloperError message), σ)) ∧
  (∀ s name, url = VString s → projectionName = VString name →
   ∃ this', adapters new.2 !! length (adapters σ) = Some this' ∧
            _url this' = getAbsoluteUri s (baseUri σ) ∧
            _projectionName this' = name ∧
            _ellipsoid this' = defaultValue ellipsoid WGS84).
Proof.
  intros new. subst new. split.
  - intros Hrefused. apply new_invalid.
    destruct Hrefused as [->| ->]; [done | apply andb_false_r].
  - intros s name -> ->.
    by apply (new_allocates getAbsoluteUri is_string (VString s) (VString name)).
Qed.

(** * Part IV: concrete runs *)

Lemma not_ready_call_fails_witness :
  adapters loading !! 0 = Some example_pending ∧
  _ready example_pending = false ∧
  project 0 (VObject 0) VUndefined loading = (Throw (DeveloperError not_loaded), loading) ∧
  unproject 0 (VObject 0) VUndefined loading = (Throw (DeveloperError not_loaded), loading).
Proof.
  split; [reflexivity |]. split; [reflexivity |].
  apply (not_ready_call_fails loading 0 example_pending); reflexivity.
Defined.

Lemma undefined_input_is_refused_witness :
  adapters loaded !! 0 = Some example_ready ∧
  _ready example_ready = true ∧
  (∃ message,
     project 0 VUndefined (VObject 0) loaded = (Throw (DeveloperError message), loaded)) ∧
  (∃ message,
     unproject 0 VUndefined (VObject 0) loaded
     = (Throw (DeveloperError message), loaded)).
Proof.
  split; [reflexivity |]. split; [reflexivity |].
  apply (undefined_input_is_refused loaded 0 example_ready); reflexivity.
Defined.

Lemma result_object_is_returned_witness :
  adapters loaded !! 0 = Some example_ready ∧
  _ready example_ready = true ∧
  _project example_ready = JFunction simple_project ∧
  _unproject example_ready = JFunction simple_unproject ∧
  defined (JData (VObject 0)) = true ∧
  project 0 (VObject 0) (VObject 1) loaded =
    (Normal (VObject 1),
     called (ProjectCall 0) [Cartographic 0 0 10; Cartesian3 0 0 10] loaded) ∧
  project 0 (VObject 0) VUndefined loaded =
    (Normal (VObject 2),
     called (ProjectCall 0)
       [Cartographic 0 0 10; Cartesian3 1 2 3; Cartesian3 0 0 10] loaded) ∧
  unproject 0 (VObject 1) (VObject 0) loaded =
    (Normal (VObject 0),
     called (UnprojectCall 0)
       [Cartographic (1 / radius) (2 / radius) 3; Cartesian3 1 2 3] loaded) ∧
  unproject 0 (VObject 1) VUndefined loaded =
    (Normal (VObject 2),
     called (UnprojectCall 0)
       [Cartographic 0 0 10; Cartesian3 1 2 3;
        Cartographic (1 / radius) (2 / radius) 3] loaded).
Proof.
  destruct (result_object_is_returned loaded 0 example_ready
              simple_project simple_unproject (VObject 0)
              eq_refl eq_refl eq_refl eq_refl eq_refl)
    as (Hsupplied & _ & _ & Hfresh & _).
  destruct (result_object_is_returned loaded 0 example_ready
              simple_project simple_unproject (VObject 1)
              eq_refl eq_refl eq_refl eq_refl eq_refl)
    as (_ & Hsupplied' & _ & _ & Hfresh').
  do 5 (split; [reflexivity |]).
  split; [| split; [| split]].
  - apply Hsupplied; reflexivity.
  - apply Hfresh; reflexivity.
  - apply Hsupplied'; reflexivity.
  - apply Hfresh'; reflexivity.
Defined.

Lemma cached_name_loads_nothing_witness :
  defined (property (loadedProjectionFunctions loaded) "simple") = true ∧
  ∃ added,
    effects (new_CustomProjection against_base is_string (VString "proj.js") (VString "simple")
               None (ScriptRuns None) loaded).2
    = effects loaded ++ added ∧
    Forall (λ e, is_load e = false) added ∧
    chains (new_CustomProjection against_base is_string (VString "proj.js") (VString "simple")
              None (ScriptRuns None) loaded).2
    = chains loaded ∧
    ∀ calls throws,
      property (loadedProjectionFunctions loaded) "simple" = JFactory calls throws →
      is_string (VString "proj.js") = true → is_string (VString "simple") = true →
      added = FactoryCall "simple"
                :: replicate (length calls) (CallbackRun (length (adapters loaded))).
Proof.
  split; [reflexivity |].
  apply (cached_name_loads_nothing against_base is_string loaded (VString "proj.js") "simple"
           None (ScriptRuns None)).
  reflexivity.
Defined.

Lemma ready_flag_is_monotonic_witness :
  adapters loaded !! 0 = Some example_ready ∧
  _ready example_ready = true ∧
  ∃ this',
    adapters
      (run against_base is_string
         [ECallback 0 undefined undefined;
          ENew (VString "other.js") (VString "simple") None (ScriptRuns None);
          EProject 0 (VObject 0) VUndefined;
          EFetchSettles 0 (ScriptFails (Thrown "late"));
          EThen 0]
         loaded) !! 0 = Some this' ∧
    _ready this' = true.
Proof.
  split; [reflexivity |]. split; [reflexivity |].
  apply (proj2 (proj2 (ready_flag_is_monotonic against_base is_string)))
    with example_ready; reflexivity.
Defined.

Lemma url_is_absolute_and_fixed_witness :
  new_CustomProjection against_base is_string (VString "proj.js") (VString "simple") None
    (ScriptRuns None) (initial ∅ None false "https://host/")
  = (Normal 0,
     (new_CustomProjection against_base is_string (VString "proj.js") (VString "simple") None
        (ScriptRuns None) (initial ∅ None false "https://host/")).2) ∧
  url <$> adapters
    (run against_base is_string
       [ENavigate "https://elsewhere/";
        EFetchSettles 0 (ScriptRuns (Some simpleProjection));
        EThen 0]
       (new_CustomProjection against_base is_string (VString "proj.js") (VString "simple") None
          (ScriptRuns None) (initial ∅ None false "https://host/")).2) !! 0
  = Some (against_base "proj.js" (baseUri (initial ∅ None false "https://host/"))).
Proof.
  split; [reflexivity |].
  apply (proj2 (url_is_absolute_and_fixed against_base is_string)
           (initial ∅ None false "https://host/") "proj.js" "simple" None (ScriptRuns None) 0).
  reflexivity.
Defined.


Lemma missing_entry_point_rejects_witness :
  chains unregistered !! 0
  = Some {| ch_customProjection := 0; ch_projectionName := "simple";
            ch_deferred := 0; ch_stage := Queued |} ∧
  createProjectionFunctions unregistered = None ∧
  promise_state
    (run against_base is_string [ENavigate "https://elsewhere/"; EThen 0]
       (fetch_then 0 unregistered).2) (OfChain 0)
  = Rejected (ReferenceError "createProjectionFunctions").
Proof.
  split; [reflexivity |]. split; [reflexivity |].
  apply (proj1 (missing_entry_point_rejects against_base is_string unregistered 0
                  {| ch_customProjection := 0; ch_projectionName := "simple";
                     ch_deferred := 0; ch_stage := Queued |} eq_refl eq_refl)).
  reflexivity.
Defined.

(** C5 as stated fails: the example adapter was constructed with the url
    [https://host/proj.js] and the name [simple]; its file registers
    nothing; its readiness promise is rejected with an error whose message
    contains neither the url nor the name. *)
Lemma rejection_lacks_url_and_name :
  url <$> adapters (after against_base is_string (EThen 0) unregistered) !! 0
  = Some "https://host/proj.js" ∧
  projectionName <$> adapters (after against_base is_string (EThen 0) unregistered) !! 0
  = Some "simple" ∧
  readyPromise <$> adapters (after against_base is_string (EThen 0) unregistered) !! 0
  = Some (Some (OfChain 0)) ∧
  createProjectionFunctions unregistered = None ∧
  promise_state (after against_base is_string (EThen 0) unregistered) (OfChain 0)
  = Rejected (ReferenceError "createProjectionFunctions") ∧
  mentions "https://host/proj.js" (ReferenceError "createProjectionFunctions") = false ∧
  mentions "proj.js" (ReferenceError "createProjectionFunctions") = false ∧
  mentions "simple" (ReferenceError "createProjectionFunctions") = false.
Proof. repeat split; reflexivity. Qed.

Lemma reachable_both : reachable against_base is_string both.
Proof.
  exists ∅, None, false, "https://host/",
    [ENew (VString "proj.js") (VString "simple") None (ScriptRuns None);
     EAllocate (Cartographic 0 0 10);
     EAllocate (Cartesian3 1 2 3);
     EFetchSettles 0 (ScriptRuns (Some simpleProjection));
     EThen 0;
     ENew (VString "proj.js") (VString "simple") None (ScriptRuns None)].
  vm_compute. reflexivity.
Defined.

Lemma reachable_kept_waiting : reachable against_base is_string kept_waiting.
Proof. apply reachable_run, reachable_run, reachable_run, reachable_initial. Defined.

Lemma readyPromise_resolves_unless_handler_threw_witness :
  (reachable against_base is_string both ∧
   adapters both !! 0 = Some example_ready ∧
   readyPromise example_ready = Some (OfChain 0) ∧
   promise_state both (OfChain 0) = Resolved (ResAdapter 0)) ∧
  (adapters both !! 1 = Some example_second ∧
   readyPromise example_second = Some (OfDeferred 1) ∧
   promise_state both (OfDeferred 1) = Resolved (ResAdapter 1)) ∧
  (reachable against_base is_string kept_waiting ∧
   adapters kept_waiting !! 0 = Some example_pending ∧
   callbacks kept_waiting !! 0 = Some (LoadedCallback 0 0) ∧
   promise_state kept_waiting (OfChain 0) = Pending ∧
   let σ' := (callback_fires 0 (JFunction simple_project) (JFunction simple_unproject)
                kept_waiting).2 in
   adapters σ' !! 0 = Some example_ready ∧
   promise_state σ' (OfChain 0) = Resolved (ResAdapter 0)).
Proof.
  split; [| split].
  - split; [exact reachable_both |]. split; [reflexivity |]. split; [reflexivity |].
    destruct (readyPromise_resolves_unless_handler_threw against_base is_string both 0
                example_ready (OfChain 0) reachable_both eq_refl eq_refl)
      as (_ & _ & _ & Hresolved & _).
    destruct (Hresolved eq_refl) as [Hv|(c & ch & e & _ & _ & _ & He)];
      [exact Hv | discriminate He].
  - split; [reflexivity |]. split; [reflexivity |].
    destruct (readyPromise_resolves_unless_handler_threw against_base is_string both 1
                example_second (OfDeferred 1) reachable_both eq_refl eq_refl)
      as (_ & _ & _ & Hresolved & _).
    destruct (Hresolved eq_refl) as [Hv|(c & ch & e & _ & _ & _ & He)];
      [exact Hv | discriminate He].
  - split; [exact reachable_kept_waiting |].
    split; [reflexivity |]. split; [reflexivity |]. split; [reflexivity |].
    destruct (readyPromise_resolves_unless_handler_threw against_base is_string
                kept_waiting 0 example_pending (OfChain 0) reachable_kept_waiting
                eq_refl eq_refl)
      as (_ & _ & Hcallback & _).
    exact (Hcallback 0 (LoadedCallback 0 0) (JFunction simple_project)
             (JFunction simple_unproject) eq_refl eq_refl).
Defined.

(** C3 as stated fails: the file of the example adapter registers a
    factory that calls the completion callback with a pair and then
    throws.  Once the handler has run, the adapter holds the pair and is
    ready, and its readiness promise is rejected with the exception of the
    factory; a further call of the callback with a pair leaves it
    rejected. *)
Lemma ready_adapter_with_rejected_promise :
  adapters handler_threw !! 0 = Some example_ready ∧
  _ready example_ready = true ∧
  readyPromise example_ready = Some (OfChain 0) ∧
  callbacks handler_threw !! 0 = Some (LoadedCallback 0 0) ∧
  CallbackRun 0 ∈ effects handler_threw ∧
  promise_state handler_threw (OfChain 0) = Rejected (Thrown "boom") ∧
  promise_state
    (after against_base is_string
       (ECallback 0 (JFunction simple_project) (JFunction simple_unproject))
       handler_threw) (OfChain 0)
  = Rejected (Thrown "boom").
Proof.
  split; [reflexivity |]. split; [reflexivity |]. split; [reflexivity |].
  split; [reflexivity |]. split; [| split; reflexivity].
  apply (list_elem_of_lookup_2 _ 3). reflexivity.
Qed.

(** C4 as stated fails: in a page where nothing is cached, the
    constructor is called with the empty string for the url, and with
    the empty string for the name.  Both calls return the new adapter and
    have started a fetch. *)
Lemma empty_strings_are_accepted :
  missing_or_empty (VString "") = true ∧
  new_CustomProjection against_base is_string (VString "") (VString "simple") None
    (ScriptRuns None) page
  = (Normal 0,
     run against_base is_string
       [ENew (VString "") (VString "simple") None (ScriptRuns None)] page) ∧
  effects (run against_base is_string
             [ENew (VString "") (VString "simple") None (ScriptRuns None)] page)
  = [FetchJsonp "https://host/"] ∧
  new_CustomProjection against_base is_string (VString "proj.js") (VString "") None
    (ScriptRuns None) page
  = (Normal 0,
     run against_base is_string
       [ENew (VString "proj.js") (VString "") None (ScriptRuns None)] page) ∧
  effects (run against_base is_string
             [ENew (VString "proj.js") (VString "") None (ScriptRuns None)] page)
  = [FetchJsonp "https://host/proj.js"].
Proof. repeat split; reflexivity. Qed.

(** ** Runs for the further properties *)

Lemma reachable_loading : reachable against_base is_string loading.
Proof. apply reachable_run, reachable_initial. Qed.

Lemma reachable_loaded : reachable against_base is_string loaded.
Proof. apply reachable_run, reachable_loading. Qed.

Lemma reachable_arrived : reachable against_base is_string arrived.
Proof. apply reachable_run, reachable_loading. Qed.

Lemma reachable_other_loading : reachable against_base is_string other_loading.
Proof. apply reachable_run, reachable_loaded. Qed.

Lemma cache_hit_outcome_witness :
  property (loadedProjectionFunctions loaded) "simple" = simpleProjection ∧
  let r := new_CustomProjection against_base is_string (VString "proj.js")
             (VString "simple") None (ScriptRuns None) loaded in
  r.1 = Normal 1 ∧
  adapters r.2 !! 1 = Some example_second ∧
  promise_state r.2 (OfDeferred 1) = Resolved (ResAdapter 1).
Proof.
  split; [reflexivity |].
  apply (cache_hit_outcome against_base is_string loaded (VString "proj.js") "simple"
           None (ScriptRuns None)
           [(JFunction simple_project, JFunction simple_unproject)] None);
    reflexivity.
Defined.

Lemma handler_outcome_witness :
  reachable against_base is_string arrived ∧
  chains arrived !! 0
  = Some {| ch_customProjection := 0; ch_projectionName := "simple";
            ch_deferred := 0; ch_stage := Queued |} ∧
  createProjectionFunctions arrived = Some simpleProjection ∧
  property (loadedProjectionFunctions (fetch_then 0 arrived).2) "simple"
  = simpleProjection ∧
  (∃ this, adapters arrived !! 0 = Some this ∧ _ready this = false ∧
           readyPromise this = Some (OfChain 0) ∧
           adapters (fetch_then 0 arrived).2 !! 0
           = Some (wired (JFunction simple_project) (JFunction simple_unproject) this)) ∧
  promise_state arrived (OfChain 0) = Pending ∧
  promise_state (fetch_then 0 arrived).2 (OfChain 0) = Resolved (ResAdapter 0).
Proof.
  split; [exact reachable_arrived |]. split; [reflexivity |]. split; [reflexivity |].
  apply (handler_outcome against_base is_string arrived 0
           {| ch_customProjection := 0; ch_projectionName := "simple";
              ch_deferred := 0; ch_stage := Queued |}
           [(JFunction simple_project, JFunction simple_unproject)] None
           reachable_arrived eq_refl eq_refl eq_refl).
Defined.

Lemma page_miss_fetches_every_time_witness :
  let σ := initial ∅ None false "https://host/" in
  let r := new_CustomProjection against_base is_string (VString "proj.js")
             (VString "simple") None (ScriptRuns None) σ in
  defined (property (loadedProjectionFunctions σ) "simple") = false ∧
  inWorker σ = false ∧
  r.1 = Normal 0 ∧
  effects r.2 = [FetchJsonp "https://host/proj.js"] ∧
  loadedProjectionFunctions r.2 = ∅ ∧
  adapters r.2 !! 0 = Some example_pending ∧
  promise_state r.2 (OfChain 0) = Pending ∧
  ∀ n, effects (run against_base is_string
                  (replicate n (ENew (VString "proj.js") (VString "simple") None
                                  (ScriptRuns None))) σ)
       = replicate n (FetchJsonp "https://host/proj.js").
Proof.
  split; [reflexivity |]. split; [reflexivity |].
  apply (page_miss_fetches_every_time against_base is_string
           (initial ∅ None false "https://host/") (VString "proj.js") (VString "simple")
           None (ScriptRuns None)); reflexivity.
Defined.

Lemma worker_miss_imports_witness :
  let r := new_CustomProjection against_base is_string (VString "proj.js")
             (VString "simple") None (ScriptRuns (Some simpleProjection)) worker in
  let r' := new_CustomProjection against_base is_string (VString "proj.js")
              (VString "simple") None (ScriptFails (Thrown "network")) worker in
  reachable against_base is_string worker ∧
  inWorker worker = true ∧
  (r.1 = Normal 0 ∧
   createProjectionFunctions r.2 = Some simpleProjection ∧
   effects r.2
   = [ImportScripts "https://host/proj.js"; CacheStore "simple"; FactoryCall "simple";
      CallbackRun 0] ∧
   loadedProjectionFunctions r.2 = <["simple" := simpleProjection]> ∅ ∧
   adapters r.2 !! 0 = Some example_ready ∧
   promise_state r.2 (OfChain 0) = Resolved (ResAdapter 0)) ∧
  (r'.1 = Throw (Thrown "network") ∧
   effects r'.2 = [ImportScripts "https://host/proj.js"] ∧
   loadedProjectionFunctions r'.2 = ∅ ∧ chains r'.2 = [] ∧
   createProjectionFunctions r'.2 = None).
Proof.
  split; [apply reachable_initial |]. split; [reflexivity |]. split.
  - destruct (worker_miss_imports against_base is_string worker (VString "proj.js")
                (VString "simple") None (ScriptRuns (Some simpleProjection))
                (reachable_initial against_base is_string ∅ None true "https://host/")
                eq_refl eq_refl eq_refl eq_refl)
      as (Hr & Hslot & Heffects & Hcache & _ & Hfactory).
    destruct (Hfactory _ _ eq_refl) as [Hadapter Hpromise].
    split; [exact Hr |]. split; [exact Hslot |]. split; [exact Heffects |].
    split; [exact Hcache |]. split; [exact Hadapter | exact Hpromise].
  - apply (worker_miss_imports against_base is_string worker (VString "proj.js")
             (VString "simple") None (ScriptFails (Thrown "network")));
      [apply reachable_initial | reflexivity ..].
Defined.

Lemma handler_takes_what_the_slot_holds_witness :
  reachable against_base is_string other_loading ∧
  chains other_loading !! 1
  = Some {| ch_customProjection := 1; ch_projectionName := "other";
            ch_deferred := 1; ch_stage := Fetching |} ∧
  createProjectionFunctions other_loading = Some simpleProjection ∧
  let σ' := run against_base is_string
              [EFetchSettles 1 (ScriptRuns None); EThen 1] other_loading in
  property (loadedProjectionFunctions σ') "other" = simpleProjection ∧
  (∃ this, adapters other_loading !! 1 = Some this ∧ _ready this = false ∧
           adapters σ' !! 1
           = Some (wired (JFunction simple_project) (JFunction simple_unproject) this)) ∧
  promise_state σ' (OfChain 1) = Resolved (ResAdapter 1).
Proof.
  split; [exact reachable_other_loading |]. split; [reflexivity |].
  split; [reflexivity |].
  apply (handler_takes_what_the_slot_holds against_base is_string other_loading 1
           {| ch_customProjection := 1; ch_projectionName := "other";
              ch_deferred := 1; ch_stage := Fetching |}
           None [(JFunction simple_project, JFunction simple_unproject)] None
           reachable_other_loading eq_refl eq_refl eq_refl).
Defined.

Lemma stored_function_error_propagates_witness :
  adapters unfinished !! 0
  = Some (wired (JFunction unfinished_project) (JFunction unfinished_project)
            example_ready) ∧
  heap unfinished = [Cartographic 0 0 10; Cartesian3 1 2 3] ∧
  project 0 (VObject 0) (VObject 1) unfinished
  = (Throw (Thrown "latitude out of range"),
     called (ProjectCall 0) [Cartographic 0 0 10; Cartesian3 0 2 3] unfinished) ∧
  unproject 0 (VObject 0) VUndefined unfinished
  = (Throw (Thrown "latitude out of range"),
     called (UnprojectCall 0)
       [Cartographic 0 0 10; Cartesian3 1 2 3;
        write "x" (Some 0%float) (Cartographic 0 0 0)] unfinished).
Proof.
  split; [reflexivity |]. split; [reflexivity |]. split.
  - destruct (stored_function_error_propagates unfinished 0
                (wired (JFunction unfinished_project) (JFunction unfinished_project)
                   example_ready)
                unfinished_project unfinished_project (VObject 0)
                (Thrown "latitude out of range")
                eq_refl eq_refl eq_refl eq_refl eq_refl)
      as (Hsupplied & _).
    apply Hsupplied; reflexivity.
  - destruct (stored_function_error_propagates unfinished 0
                (wired (JFunction unfinished_project) (JFunction unfinished_project)
                   example_ready)
                unfinished_project unfinished_project (VObject 0)
                (Thrown "latitude out of range")
                eq_refl eq_refl eq_refl eq_refl eq_refl)
      as (_ & _ & _ & Hfresh).
    apply Hfresh; reflexivity.
Defined.

Lemma unchecked_pair_fails_at_the_call_witness :
  callbacks loaded !! 0 = Some (LoadedCallback 0 0) ∧
  adapters loaded !! 0 = Some example_ready ∧
  let σ' := (callback_fires 0 undefined undefined loaded).2 in
  adapters σ' !! 0 = Some (wired undefined undefined example_ready) ∧
  _ready (wired undefined undefined example_ready) = true ∧
  project 0 (VObject 0) (VObject 1) σ' = (Throw (TypeError "not a function"), σ') ∧
  unproject 0 (VObject 1) (VObject 0) σ' = (Throw (TypeError "not a function"), σ').
Proof.
  split; [reflexivity |]. split; [reflexivity |].
  destruct (unchecked_pair_fails_at_the_call loaded 0 (LoadedCallback 0 0) example_ready
              VUndefined VUndefined eq_refl eq_refl) as (Hthis & Hready & Hcalls).
  split; [exact Hthis |]. split; [exact Hready |].
  split.
  - apply (Hcalls (VObject 0) (VObject 1)); reflexivity.
  - apply (Hcalls (VObject 1) (VObject 0)); reflexivity.
Defined.

Lemma callback_again_overwrites_witness :
  reachable against_base is_string both ∧
  callbacks both !! 0 = Some (LoadedCallback 0 0) ∧
  adapters both !! 0 = Some example_ready ∧
  let σ' := (callback_fires 0 (JFunction simple_unproject) undefined both).2 in
  adapters σ' !! 0 = Some (wired (JFunction simple_unproject) undefined example_ready) ∧
  adapters σ' !! 1 = Some example_second ∧
  promise_state σ' (OfChain 0) = Resolved (ResAdapter 0) ∧
  promise_state σ' (OfDeferred 1) = Resolved (ResAdapter 1).
Proof.
  split; [exact reachable_both |]. split; [reflexivity |]. split; [reflexivity |].
  destruct (callback_again_overwrites against_base is_string both 0
              (LoadedCallback 0 0) (JFunction simple_unproject) undefined
              reachable_both eq_refl)
    as ((this & Hthis & Hthis') & Hothers & _ & Hpromises).
  assert (this = example_ready) as ->.
  { change (adapters both !! 0 = Some this) in Hthis.
    assert (Hexample : adapters both !! 0 = Some example_ready) by reflexivity.
    rewrite Hexample in Hthis. by injection Hthis. }
  split; [exact Hthis' |]. split; [| split].
  - rewrite (Hothers 1); [reflexivity | discriminate].
  - rewrite (Hpromises example_ready); reflexivity.
  - rewrite (Hpromises example_ready); reflexivity.
Defined.


Lemma stored_name_is_a_hit_witness :
  chains arrived_silent !! 0
  = Some {| ch_customProjection := 0; ch_projectionName := "simple";
            ch_deferred := 0; ch_stage := Queued |} ∧
  createProjectionFunctions arrived_silent = Some silent ∧
  let σ1 := run against_base is_string
              [ENavigate "https://elsewhere/"; EProject 0 (VObject 0) VUndefined]
              (fetch_then 0 arrived_silent).2 in
  let σ2 := (new_CustomProjection against_base is_string (VString "again.js")
               (VString "simple") None (ScriptRuns None) σ1).2 in
  _ready <$> adapters σ1 !! 0 = Some false ∧
  property (loadedProjectionFunctions σ1) "simple" = silent ∧
  ∃ added, effects σ2 = effects σ1 ++ added ∧
           Forall (λ e, is_load e = false) added ∧
           chains σ2 = chains σ1.
Proof.
  split; [reflexivity |]. split; [reflexivity |]. split; [reflexivity |].
  apply (stored_name_is_a_hit against_base is_string arrived_silent
           0 {| ch_customProjection := 0; ch_projectionName := "simple";
                ch_deferred := 0; ch_stage := Queued |}
           silent
           [ENavigate "https://elsewhere/"; EProject 0 (VObject 0) VUndefined]
           (VString "again.js") None (ScriptRuns None)); try reflexivity.
  repeat constructor.
Defined.

Lemma uncallable_entry_poisons_the_name_witness :
  chains misregistered !! 0
  = Some {| ch_customProjection := 0; ch_projectionName := "simple";
            ch_deferred := 0; ch_stage := Queued |} ∧
  createProjectionFunctions misregistered = Some (JData (VNumber 42)) ∧
  let σ1 := run against_base is_string
              [EProject 0 (VObject 0) VUndefined] (fetch_then 0 misregistered).2 in
  promise_state σ1 (OfChain 0) = Rejected (TypeError "factory is not a function") ∧
  ∃ σ2,
    new_CustomProjection against_base is_string (VString "proj.js")
      (VString "simple") None (ScriptRuns None) σ1
    = (Throw (TypeError "factory is not a function"), σ2) ∧
    effects σ2 = effects σ1 ∧ chains σ2 = chains σ1.
Proof.
  split; [reflexivity |]. split; [reflexivity |].
  apply (uncallable_entry_poisons_the_name against_base is_string misregistered 0
           {| ch_customProjection := 0; ch_projectionName := "simple";
              ch_deferred := 0; ch_stage := Queued |}
           (VNumber 42) [EProject 0 (VObject 0) VUndefined]
           (VString "proj.js") None (ScriptRuns None)); try reflexivity.
  repeat constructor.
Defined.

Lemma failed_load_is_final_witness :
  reachable against_base is_string loading ∧
  chains loading !! 0
  = Some {| ch_customProjection := 0; ch_projectionName := "simple";
            ch_deferred := 0; ch_stage := Fetching |} ∧
  let σ1 := (fetch_settles 0 (ScriptFails (Thrown "network")) loading).2 in
  let σ' := run against_base is_string
              [EThen 0;
               ENew (VString "proj.js") (VString "simple") None (ScriptRuns None);
               EFetchSettles 1 (ScriptRuns (Some simpleProjection));
               EThen 1;
               ECallback 0 (JFunction simple_project) (JFunction simple_unproject);
               EFetchSettles 0 (ScriptRuns (Some simpleProjection));
               EThen 0] σ1 in
  loadedProjectionFunctions σ1 = loadedProjectionFunctions loading ∧
  effects σ1 = effects loading ∧
  promise_state σ' (OfChain 0) = Rejected (Thrown "network") ∧
  (∃ this, adapters σ' !! 0 = Some this ∧ _ready this = false) ∧
  promise_state σ' (OfChain 1) = Resolved (ResAdapter 1).
Proof.
  split; [exact reachable_loading |]. split; [reflexivity |].
  destruct (failed_load_is_final against_base is_string loading 0
              {| ch_customProjection := 0; ch_projectionName := "simple";
                 ch_deferred := 0; ch_stage := Fetching |}
              [EThen 0;
               ENew (VString "proj.js") (VString "simple") None (ScriptRuns None);
               EFetchSettles 1 (ScriptRuns (Some simpleProjection));
               EThen 1;
               ECallback 0 (JFunction simple_project) (JFunction simple_unproject);
               EFetchSettles 0 (ScriptRuns (Some simpleProjection));
               EThen 0]
              reachable_loading eq_refl) as [Hfetch _].
  destruct (Hfetch (Thrown "network") eq_refl) as (Hcache & Heffects & Hpromise & Hready).
  split; [exact Hcache |]. split; [exact Heffects |]. split; [exact Hpromise |].
  split; [exact Hready |]. vm_compute. reflexivity.
Defined.

Lemma accessors_are_fixed_witness :
  let σ := initial ∅ None false "https://host/" in
  let r := new_CustomProjection against_base is_string (VString "proj.js")
             (VString "simple") (Some (EllipsoidOf 1 1 1)) (ScriptRuns None) σ in
  r.1 = Normal 0 ∧
  ∃ p this this',
    adapters r.2 !! 0 = Some this ∧ readyPromise this = Some p ∧
    adapters (run against_base is_string
                [EFetchSettles 0 (ScriptRuns (Some simpleProjection)); EThen 0;
                 ECallback 0 undefined undefined]
                r.2) !! 0 = Some this' ∧
    ellipsoid this' = EllipsoidOf 1 1 1 ∧
    projectionName this' = "simple" ∧
    readyPromise this' = Some p.
Proof.
  split; [reflexivity |].
  apply (accessors_are_fixed against_base is_string
           (initial ∅ None false "https://host/") "proj.js" "simple"
           (Some (EllipsoidOf 1 1 1)) (ScriptRuns None) 0).
  reflexivity.
Defined.

Lemma readiness_promises_are_not_shared_witness :
  reachable against_base is_string both ∧
  adapters both !! 0 = Some example_ready ∧
  adapters both !! 1 = Some example_second ∧
  _projectionName example_ready = _projectionName example_second ∧
  readyPromise example_ready = Some (OfChain 0) ∧
  readyPromise example_second = Some (OfDeferred 1) ∧
  OfChain 0 ≠ OfDeferred 1.
Proof.
  split; [exact reachable_both |]. split; [reflexivity |]. split; [reflexivity |].
  split; [reflexivity |]. split; [reflexivity |]. split; [reflexivity |].
  apply (readiness_promises_are_not_shared against_base is_string both 0 1
           example_ready example_second (OfChain 0) (OfDeferred 1) reachable_both
           eq_refl eq_refl eq_refl eq_refl).
  discriminate.
Defined.

Lemma rejection_comes_from_the_chain_witness :
  reachable against_base is_string both ∧
  adapters both !! 1 = Some example_second ∧
  readyPromise example_second = Some (OfDeferred 1) ∧
  _ready example_second = true ∧
  promise_state both (OfDeferred 1) = Resolved (ResAdapter 1).
Proof.
  split; [exact reachable_both |]. split; [reflexivity |]. split; [reflexivity |].
  split; [reflexivity |].
  destruct (rejection_comes_from_the_chain against_base is_string both 1
              example_second (OfDeferred 1) reachable_both eq_refl eq_refl)
    as [_ Hhit].
  exact (Hhit 1 eq_refl).
Defined.

(** ** The scenario of the documentation comment *)

(** Adapter 0 loaded [simple] from [https://host/proj.js]; adapter 1, of
    the same name, was constructed afterwards.  One fetch was made in all.
    Adapter 0 projects longitude 0, latitude 0, height 10 to a new
    [Cartesian3] 0, 0, 10, and adapter 1 unprojects that to a new
    [Cartographic] 0, 0, 10. *)
Example one_fetch_for_two_adapters :
  effects both
  = [FetchJsonp "https://host/proj.js"; CacheStore "simple"; FactoryCall "simple";
     CallbackRun 0; FactoryCall "simple"; CallbackRun 1].
Proof. reflexivity. Qed.

Example project_then_unproject :
  let projected := project 0 (VObject 0) VUndefined both in
  let unprojected := unproject 1 (VObject 2) VUndefined projected.2 in
  projected.1 = Normal (VObject 2) ∧
  heap projected.2 !! 2 = Some (Cartesian3 0 0 10) ∧
  unprojected.1 = Normal (VObject 3) ∧
  heap unprojected.2 !! 3 = Some (Cartographic 0 0 10).
Proof. vm_compute. by repeat split. Qed.
